(** * SubTransAI: the subtitle processing pipeline

    A shallow embedding of the agents under [backend/app/agents]:
    [srt_validator.py], [srt_splitter.py], [translator.py],
    [srt_reassembler.py] and [workflow.py].

    Character model.  A Python [str] is modelled as a list of 8-bit
    characters ([list ascii]); a string literal with non-ASCII text stands
    for its UTF-8 bytes.  The character classes of Python ([str.isspace],
    decimal digits, cased letters, line boundaries) are modelled on the
    ASCII range; every byte above 127 is an ordinary character that is
    neither white space, nor a digit, nor cased, nor a line boundary. *)

From Stdlib Require Import ZArith Ascii String DecimalString DecimalNat.
From stdpp Require Import gmap strings list sorting.

Open Scope Z_scope.

(** ** Python strings *)

Module Py.

Abbreviation str := (list ascii).

(** A literal: [s "abc"] is the Python string ['abc']. *)
Definition s (x : string) : str := list_ascii_of_string x.

Definition LF : ascii := ascii_of_nat 10.
Definition CR : ascii := ascii_of_nat 13.

Definition code (c : ascii) : nat := nat_of_ascii c.

(** [str.isspace] on one character: TAB, LF, VT, FF, CR, FS, GS, RS, US
    and the space. *)
Definition is_space (c : ascii) : bool :=
  let n := code c in
  ((9 <=? n)%nat && (n <=? 13)%nat) || ((28 <=? n)%nat && (n <=? 32)%nat).

(** The line boundaries of [str.splitlines]: LF, VT, FF, CR, FS, GS, RS. *)
Definition is_linebreak (c : ascii) : bool :=
  let n := code c in
  ((10 <=? n)%nat && (n <=? 13)%nat) || ((28 <=? n)%nat && (n <=? 30)%nat).

Definition is_digit (c : ascii) : bool :=
  let n := code c in (48 <=? n)%nat && (n <=? 57)%nat.

Definition digit_value (c : ascii) : Z := Z.of_nat (code c - 48).

Definition ascii_eqb (a b : ascii) : bool := Ascii.eqb a b.

Fixpoint lstrip (x : str) : str :=
  match x with
  | c :: x' => if is_space c then lstrip x' else x
  | [] => []
  end.

Definition rstrip (x : str) : str := rev (lstrip (rev x)).

(** [x.strip()] *)
Definition strip (x : str) : str := rstrip (lstrip x).

(** The truth value of a string: [if line], [if not line]. *)
Definition truthy (x : str) : bool :=
  match x with [] => false | _ :: _ => true end.

(** [x.splitlines()]: lines without their boundaries, CR LF counted as
    one boundary, no empty last line after a final boundary. *)
Fixpoint splitlines (x : str) : list str :=
  match x with
  | [] => []
  | c :: x' =>
      if is_linebreak c then
        [] :: match x' with
              | c2 :: x'' =>
                  if ascii_eqb c CR && ascii_eqb c2 LF
                  then splitlines x'' else splitlines x'
              | [] => []
              end
      else
        match splitlines x' with
        | [] => [[c]]
        | l :: ls => (c :: l) :: ls
        end
  end.

(** [sep.join(xs)] *)
Fixpoint join (sep : str) (xs : list str) : str :=
  match xs with
  | [] => []
  | [x] => x
  | x :: xs' => x ++ sep ++ join sep xs'
  end.

(** The digits of an integer literal as [int()] reads them: decimal
    digits, a single underscore allowed between two digits. *)
Fixpoint int_digits (acc : Z) (after_digit : bool) (x : str) : option Z :=
  match x with
  | [] => if after_digit then Some acc else None
  | c :: x' =>
      if is_digit c then int_digits (10 * acc + digit_value c) true x'
      else if ascii_eqb c "_"%char && after_digit then int_digits acc false x'
      else None
  end.

(** [int(x)] for a string [x]: [None] is [ValueError].  The interpreter's
    bound on the number of digits is not modelled. *)
Definition int (x : str) : option Z :=
  match strip x with
  | c :: r =>
      if ascii_eqb c "+"%char then int_digits 0 false r
      else if ascii_eqb c "-"%char then Z.opp <$> int_digits 0 false r
      else int_digits 0 false (c :: r)
  | [] => None
  end.

(** [str(n)] for an integer. *)
Definition of_Z (n : Z) : str := s (NilZero.string_of_int (Z.to_int n)).
Definition of_nat (n : nat) : str := s (NilZero.string_of_uint (Nat.to_uint n)).

Definition lower_char (c : ascii) : ascii :=
  let n := code c in
  if (65 <=? n)%nat && (n <=? 90)%nat then ascii_of_nat (n + 32) else c.

(** [x.lower()] *)
Definition lower (x : str) : str := map lower_char x.

Fixpoint startswith (x p : str) : bool :=
  match p, x with
  | [], _ => true
  | a :: p', b :: x' => ascii_eqb a b && startswith x' p'
  | _ :: _, [] => false
  end.

Definition endswith (x p : str) : bool := startswith (rev x) (rev p).

(** [p in x] *)
Fixpoint contains (p x : str) : bool :=
  startswith x p || match x with [] => false | _ :: x' => contains p x' end.

(** A string that does not begin, or does not end, with white space (and
    is not empty). *)
Definition starts_clean (x : str) : bool :=
  match x with
  | c :: _ => negb (is_space c)
  | [] => false
  end.

Definition ends_clean (x : str) : bool := starts_clean (rev x).

Definition trimmed (x : str) : Prop :=
  starts_clean x = true ∧ ends_clean x = true.

(** [len(x.encode("utf-8"))], the size of a written file. *)
Definition size (x : str) : nat := length x.

End Py.

Abbreviation str := Py.str.

(** ** Exceptions and fallible calls *)

Inductive exn : Type :=
| re_error (msg : str)          (* re.error *)
| ValueError (msg : str)
| IndexError
| OSError (msg : str)
| ProviderError (msg : str).     (* raised by a translation provider *)

Inductive result (A : Type) : Type :=
| Ok (a : A)
| Raise (e : exn).
Arguments Ok {A} a.
Arguments Raise {A} e.

#[global] Instance result_ret : MRet result := fun A a => Ok a.
#[global] Instance result_bind : MBind result := fun A B k m =>
  match m with
  | Ok a => k a
  | Raise e => Raise e
  end.

(** [str(e)] for an exception. *)
Definition exn_str (e : exn) : str :=
  match e with
  | re_error m | ValueError m | OSError m | ProviderError m => m
  | IndexError => Py.s "list index out of range"
  end.

(** ** Reassembler ([srt_reassembler.py]) *)

Module Reassembler.

(** A translated chunk as [reassemble_srt] reads it: a dict looked up with
    [chunk.get("id", 0)] and [chunk.get("translated_content", "")]. *)
Record translated_chunk : Type := {
  chunk_id : option Z;
  translated_content : option str;
}.

Definition get_id (chunk : translated_chunk) : Z := default 0 (chunk_id chunk).
Definition get_translated_content (chunk : translated_chunk) : str :=
  default [] (translated_content chunk).

(** [sorted(xs, key=key)]: a stable sort, by insertion from the right. *)
Fixpoint insert_by {A} (key : A → Z) (x : A) (xs : list A) : list A :=
  match xs with
  | [] => [x]
  | y :: xs' => if key x <=? key y then x :: y :: xs' else y :: insert_by key x xs'
  end.

Definition sorted {A} (xs : list A) (key : A → Z) : list A :=
  foldr (insert_by key) [] xs.

(** The order of the keys. *)
Definition key_le {A} (key : A → Z) (x y : A) : Prop := key x <= key y.

(** The [while i < len(lines)] loop over one chunk: [i] advances by one in
    every branch, so the loop is a traversal of [lines]. *)
Fixpoint parse_loop (lines : list str) (subtitle_blocks : list (list str))
    (current_block : list str) : list (list str) * list str :=
  match lines with
  | [] => (subtitle_blocks, current_block)
  | raw :: lines' =>
      let line := Py.strip raw in
      if negb (Py.truthy line) then
        parse_loop lines' subtitle_blocks current_block
      else
        match Py.int line with
        | Some subtitle_id =>
            let subtitle_blocks :=
              match current_block with
              | [] => subtitle_blocks
              | _ :: _ => subtitle_blocks ++ [current_block]
              end in
            parse_loop lines' subtitle_blocks [line]
        | None =>
            parse_loop lines' subtitle_blocks (current_block ++ [line])
        end
  end.

(** The body of [for chunk in sorted_chunks] up to [all_subtitles.extend]. *)
Definition parse_chunk (chunk : translated_chunk) : list (list str) :=
  let lines := Py.splitlines (get_translated_content chunk) in
  let '(subtitle_blocks, current_block) := parse_loop lines [] [] in
  match current_block with
  | [] => subtitle_blocks
  | _ :: _ => subtitle_blocks ++ [current_block]
  end.

(** [subtitle[0] = str(i + 1)] for every non-empty block. *)
Definition normalize (all_subtitles : list (list str)) : list (list str) :=
  imap (fun i subtitle =>
          match subtitle with
          | [] => []
          | _ :: lines => Py.of_nat (i + 1) :: lines
          end) all_subtitles.

Definition render (all_subtitles : list (list str)) : str :=
  foldl (fun content subtitle =>
           match subtitle with
           | [] => content
           | _ :: _ => content ++ Py.join [Py.LF] subtitle ++ [Py.LF; Py.LF]
           end) [] all_subtitles.

Record reassembled : Type := {
  content : str;
  subtitle_count : nat;
}.

(** The blocks of the final document: [all_subtitles] after the optional
    renumbering. *)
Definition all_subtitles_of (chunks : list translated_chunk)
    (normalize_ids : bool) : list (list str) :=
  let sorted_chunks := sorted chunks get_id in
  let all_subtitles := concat (map parse_chunk sorted_chunks) in
  if normalize_ids then normalize all_subtitles else all_subtitles.

Definition reassemble_srt (chunks : list translated_chunk)
    (normalize_ids : bool) : reassembled :=
  let all_subtitles := all_subtitles_of chunks normalize_ids in
  {| content := Py.strip (render all_subtitles);
     subtitle_count := length all_subtitles |}.

(** The lines the parsing loop keeps: stripped, and not blank. *)
Definition kept_lines (doc : str) : list str :=
  List.filter Py.truthy (map Py.strip (Py.splitlines doc)).

(** A block as the loop builds it: not empty, and no line after the first
    reads as an integer. *)
Definition block_ok (b : list str) : Prop :=
  b ≠ [] ∧ Forall (fun l => Py.int l = None) (tail b).

(** A block of trimmed lines. *)
Definition block_trimmed (b : list str) : Prop :=
  b ≠ [] ∧ Forall Py.trimmed b.

(** The document the blocks make: their lines joined by a line feed, the
    blocks by an empty line. *)
Definition document (blocks : list (list str)) : str :=
  Py.join [Py.LF; Py.LF] (map (Py.join [Py.LF]) blocks).

(** Two chunks handed over in the order of their completion. *)
Definition chunk_one : translated_chunk :=
  {| chunk_id := Some 1;
     translated_content := Some (Py.s "7
00:00:01,000 --> 00:00:04,000
first") |}.

Definition chunk_two : translated_chunk :=
  {| chunk_id := Some 2;
     translated_content := Some (Py.s "9
00:00:05,000 --> 00:00:09,000
second
line") |}.

(** A chunk with one subtitle whose text has a line of digits. *)
Definition digits_chunk : translated_chunk :=
  {| chunk_id := Some 1;
     translated_content := Some (Py.s "1
00:00:01,000 --> 00:00:04,000
42
hello") |}.

(** The number of records the Reassembler reads in the chunks. *)
Definition total_records (chunks : list translated_chunk) : nat :=
  sum_list (map (fun c => length (parse_chunk c)) chunks).

End Reassembler.

(** ** Translator ([translator.py]) *)

Module Translator.

(** A parsed subtitle block: the dict [{"id", "content", "lines"}]. *)
Record block : Type := {
  id : Z;
  content : str;
  lines : list str;
}.

(** One entry of [glossary_matches]. *)
Record glossary_match : Type := {
  subtitle_id : str;
  term : str;
  translation : str;
}.

(** [Optional[Dict[str, str]]]: the items of the dict in insertion order. *)
Abbreviation glossary := (option (list (str * str))).

(** [if glossary:] is false for [None] and for the empty dict. *)
Definition glossary_items (g : glossary) : list (str * str) := default [] g.

(** The translation capability behind an engine: text, source language and
    target language to the translated text; it may raise. *)
Abbreviation provider := (str → str → str → result str).

Record translation_result : Type := {
  translated_content : str;
  engine : str;
  glossary_matches : list glossary_match;
  error : option str;
}.

(** The parsing loop of [translate_chunk]; like the Reassembler's, with
    [current_subtitle_id] and the guard [if current_block] on text lines. *)
Fixpoint parse_loop (lines : list str) (subtitle_blocks : list block)
    (current_block : list str) (current_subtitle_id : option Z)
    : list block * list str * option Z :=
  match lines with
  | [] => (subtitle_blocks, current_block, current_subtitle_id)
  | raw :: lines' =>
      let line := Py.strip raw in
      if negb (Py.truthy line) then
        parse_loop lines' subtitle_blocks current_block current_subtitle_id
      else
        match Py.int line with
        | Some subtitle_id =>
            let subtitle_blocks :=
              match current_block, current_subtitle_id with
              | _ :: _, Some cid =>
                  subtitle_blocks ++
                    [{| id := cid; content := Py.join [Py.LF] current_block;
                        lines := current_block |}]
              | _, _ => subtitle_blocks
              end in
            parse_loop lines' subtitle_blocks [line] (Some subtitle_id)
        | None =>
            match current_block with
            | _ :: _ =>
                parse_loop lines' subtitle_blocks (current_block ++ [line])
                  current_subtitle_id
            | [] =>
                parse_loop lines' subtitle_blocks current_block
                  current_subtitle_id
            end
        end
  end.

Definition parse_blocks (chunk_content : str) : list block :=
  let '(subtitle_blocks, current_block, current_subtitle_id) :=
    parse_loop (Py.splitlines chunk_content) [] [] None in
  match current_block, current_subtitle_id with
  | _ :: _, Some cid =>
      subtitle_blocks ++
        [{| id := cid; content := Py.join [Py.LF] current_block;
            lines := current_block |}]
  | _, _ => subtitle_blocks
  end.

(** [re.compile(re.escape(term), re.IGNORECASE).sub(translation, text)]:
    every non-overlapping occurrence of [term], compared without case,
    from left to right; an empty [term] matches before every character and
    at the end.  [skip] counts the characters of the current occurrence
    still to drop.  The replacement is taken literally: backslash escapes
    of a replacement template are not modelled. *)
Definition startswith_nocase (x p : str) : bool :=
  Py.startswith (Py.lower x) (Py.lower p).

Fixpoint sub_loop (term repl : str) (skip : nat) (text : str) : str :=
  match text with
  | [] =>
      match skip, term with
      | O, [] => repl
      | _, _ => []
      end
  | c :: text' =>
      match skip with
      | S k => sub_loop term repl k text'
      | O =>
          if startswith_nocase text term then
            match term with
            | [] => repl ++ c :: sub_loop term repl 0 text'
            | _ :: term' => repl ++ sub_loop term repl (length term') text'
            end
          else c :: sub_loop term repl 0 text'
      end
  end.

Definition sub_ignorecase (term repl text : str) : str :=
  sub_loop term repl 0 text.

(** The glossary pass shared by [_translate_with_deepseek] and
    [_translate_with_mistral]: the test is on the source [text], the
    replacement on the translated text. *)
Definition apply_glossary (g : glossary) (text translated_text : str) : str :=
  foldl (fun translated_text (item : str * str) =>
           let '(term, translation) := item in
           if Py.contains (Py.lower term) (Py.lower text)
           then sub_ignorecase term translation translated_text
           else translated_text)
        translated_text (glossary_items g).

(** The place-holders the source uses for the two remote calls. *)
Definition deepseek_stub : provider := fun text source_lang target_lang =>
  Ok (Py.s "[" ++ source_lang ++ Py.s " -> " ++ target_lang ++ Py.s "] " ++ text).

Definition mistral_stub : provider := fun text source_lang target_lang =>
  Ok (Py.s "[Mistral: " ++ source_lang ++ Py.s " -> " ++ target_lang
        ++ Py.s "] " ++ text).

Section WithProviders.

(** The remote calls of the two engines and the configured API key. *)
Variable deepseek_api mistral_api : provider.
Variable DEEPSEEK_API_KEY : option str.

Definition _translate_with_deepseek (text source_lang target_lang : str)
    (g : glossary) : result str :=
  translated_text ← deepseek_api text source_lang target_lang;
  Ok (apply_glossary g text translated_text).

Definition _translate_with_mistral (text source_lang target_lang : str)
    (g : glossary) : result str :=
  translated_text ← mistral_api text source_lang target_lang;
  Ok (apply_glossary g text translated_text).

(** [if engine == "deepseek" and settings.DEEPSEEK_API_KEY: ... elif
    engine == "mistral": ... else: ...] *)
Definition dispatch (engine_name text source_lang target_lang : str)
    (g : glossary) : result str :=
  if bool_decide (engine_name = Py.s "deepseek")
     && Py.truthy (default [] DEEPSEEK_API_KEY)
  then _translate_with_deepseek text source_lang target_lang g
  else if bool_decide (engine_name = Py.s "mistral")
  then _translate_with_mistral text source_lang target_lang g
  else _translate_with_deepseek text source_lang target_lang g.

(** The matches recorded for one block, in glossary order. *)
Definition matches_of (g : glossary) (sid text : str) : list glossary_match :=
  omap (fun item : str * str =>
          let '(t, tr) := item in
          if Py.contains (Py.lower t) (Py.lower text)
          then Some {| subtitle_id := sid; term := t; translation := tr |}
          else None)
       (glossary_items g).

(** [for block in subtitle_blocks]: the accumulators [translated_blocks]
    and [glossary_matches], and the texts handed to a provider so far
    ([calls], kept also when a provider raises). *)
Fixpoint translate_blocks (source_lang target_lang : str) (g : glossary)
    (engine_name : str) (subtitle_blocks translated_blocks : list block)
    (matches : list glossary_match) (calls : list str)
    : list str * result (list block * list glossary_match) :=
  match subtitle_blocks with
  | [] => (calls, Ok (translated_blocks, matches))
  | blk :: rest =>
      if (length (lines blk) <? 3)%nat then
        translate_blocks source_lang target_lang g engine_name rest
          (translated_blocks ++ [blk]) matches calls
      else
        let sid := nth 0 (lines blk) [] in
        let time_line := nth 1 (lines blk) [] in
        let text_lines := drop 2 (lines blk) in
        let text := Py.join [Py.LF] text_lines in
        let matches := matches ++ matches_of g sid text in
        match dispatch engine_name text source_lang target_lang g with
        | Raise e => (calls ++ [text], Raise e)
        | Ok translated_text =>
            let translated_block :=
              {| id := id blk;
                 content := sid ++ [Py.LF] ++ time_line ++ [Py.LF]
                              ++ translated_text;
                 lines := [sid; time_line] ++ Py.splitlines translated_text |} in
            translate_blocks source_lang target_lang g engine_name rest
              (translated_blocks ++ [translated_block]) matches
              (calls ++ [text])
        end
  end.

(** [translate_chunk] with the texts it sent to a provider. *)
Definition translate_chunk_calls (chunk_content source_lang target_lang : str)
    (g : glossary) (engine_name : str)
    : list str * result translation_result :=
  let subtitle_blocks := parse_blocks chunk_content in
  let '(calls, r) :=
    translate_blocks source_lang target_lang g engine_name
      subtitle_blocks [] [] [] in
  (calls,
   '(translated_blocks, matches) ← r;
   Ok {| translated_content :=
           Py.join [Py.LF; Py.LF] (map content translated_blocks);
         engine := engine_name;
         glossary_matches := matches;
         error := None |}).

Definition translate_chunk (chunk_content source_lang target_lang : str)
    (g : glossary) (engine_name : str) : result translation_result :=
  snd (translate_chunk_calls chunk_content source_lang target_lang g
         engine_name).

(** [TranslatorAgent.translate]: the default engine, and every exception
    turned into a result with an ["error"] entry. *)
Definition TranslatorAgent_translate (AGNO_DEFAULT_ENGINE : str)
    (chunk_content source_lang target_lang : str) (g : glossary)
    (engine_name : option str) : translation_result :=
  let engine_name := default AGNO_DEFAULT_ENGINE engine_name in
  match translate_chunk chunk_content source_lang target_lang g engine_name with
  | Ok r => r
  | Raise e =>
      {| translated_content := [];
         engine := engine_name;
         glossary_matches := [];
         error := Some (Py.s "翻译过程中发生错误: " ++ exn_str e) |}
  end.

End WithProviders.

(** The text of a block handed to a provider, and the blocks that have
    one: at least a timing line and a text line after the identifier. *)
Definition text_of (b : block) : str := Py.join [Py.LF] (drop 2 (lines b)).

Definition translatable (b : block) : bool := negb (length (lines b) <? 3)%nat.

(** The block [translate_chunk] builds from a block and the translated
    text of its text lines. *)
Definition translated_block (b : block) (translated_text : str) : block :=
  let sid := nth 0 (lines b) [] in
  let time_line := nth 1 (lines b) [] in
  {| id := id b;
     content := sid ++ [Py.LF] ++ time_line ++ [Py.LF] ++ translated_text;
     lines := [sid; time_line] ++ Py.splitlines translated_text |}.

(** The glossary matches [translate_chunk] records for one block. *)
Definition block_matches (g : glossary) (b : block) : list glossary_match :=
  if translatable b
  then matches_of g (nth 0 (lines b) []) (text_of b)
  else [].

(** The example of the specification: one subtitle, two glossary terms, a
    provider that tags the text it is given. *)
Definition hello_doc : str := Py.s "1
00:00:01,000 --> 00:00:04,000
Hello world
".

Definition hello_glossary : glossary :=
  Some [(Py.s "Hello", Py.s "你好"); (Py.s "world", Py.s "世界")].

Definition tagging_provider : provider := fun text source_lang target_lang =>
  Ok (Py.s "[" ++ source_lang ++ Py.s "->" ++ target_lang ++ Py.s "] " ++ text).

(** A chunk with a block of one line, a block of two lines and a block
    with text. *)
Definition short_doc : str := Py.s "1
2
00:00:05,000 --> 00:00:09,000
3
00:00:10,000 --> 00:00:14,000
third".

End Translator.

(** ** Regular expressions ([re]) *)

Module Re.

(** *** Compilation: the character sets of a pattern

    [re.compile] parses the pattern before anything is matched.  The part
    of [re/_parser.py] that reads a character set [[...]] is modelled: an
    item is a literal or a class escape such as [\d] or [\s]; an item
    followed by [-] and another item is a range, and both ends of a range
    must be literals.  Other syntax errors are not modelled. *)

Inductive set_item : Type :=
| SetLiteral (c : ascii)
| SetCategory (c : ascii).

(** One item of a set with its source text and what follows it. *)
Definition set_atom (p : str) : option (set_item * str * str) :=
  match p with
  | [] => None
  | c :: r =>
      if Py.ascii_eqb c "\"%char then
        match r with
        | [] => None
        | e :: r' =>
            if bool_decide (e ∈ Py.s "dDsSwW")
            then Some (SetCategory e, [c; e], r')
            else Some (SetLiteral e, [c; e], r')
        end
      else Some (SetLiteral c, [c], r)
  end.

Definition at_position (msg : str) (pos : nat) : exn :=
  re_error (msg ++ Py.s " at position " ++ Py.of_nat pos).

(** The items of a set up to its closing bracket; [pos] is the offset of
    [p] in the pattern.  Returns what follows the set and its offset. *)
Fixpoint parse_set (fuel : nat) (p : str) (pos : nat) : result (str * nat) :=
  match fuel with
  | O => Raise (re_error (Py.s "unterminated character set"))
  | S fuel =>
      match p with
      | "]"%char :: r => Ok (r, S pos)
      | _ =>
          match set_atom p with
          | None => Raise (re_error (Py.s "unterminated character set"))
          | Some (code1, this, r) =>
              let pos1 := (pos + length this)%nat in
              match r with
              | "-"%char :: r1 =>
                  match r1 with
                  | [] => Raise (re_error (Py.s "unterminated character set"))
                  | "]"%char :: r2 => Ok (r2, (pos1 + 2)%nat)
                  | _ =>
                      match set_atom r1 with
                      | None =>
                          Raise (re_error (Py.s "unterminated character set"))
                      | Some (code2, that, r2) =>
                          match code1, code2 with
                          | SetLiteral lo, SetLiteral hi =>
                              if (Py.code hi <? Py.code lo)%nat then
                                Raise (at_position
                                         (Py.s "bad character range " ++ this
                                            ++ Py.s "-" ++ that) pos)
                              else
                                parse_set fuel r2 (pos1 + 1 + length that)%nat
                          | _, _ =>
                              Raise (at_position
                                       (Py.s "bad character range " ++ this
                                          ++ Py.s "-" ++ that) pos)
                          end
                      end
                  end
              | _ => parse_set fuel r pos1
              end
          end
      end
  end.

(** The pattern outside sets: an escape is two characters, [[] opens a set
    (a leading [^] and a leading []] belong to the set). *)
Fixpoint scan (fuel : nat) (p : str) (pos : nat) : result unit :=
  match fuel with
  | O => Ok ()
  | S fuel =>
      match p with
      | [] => Ok ()
      | c :: r =>
          if Py.ascii_eqb c "\"%char then scan fuel (drop 1 r) (pos + 2)%nat
          else if Py.ascii_eqb c "["%char then
            let '(r, pos) :=
              match r with
              | "^"%char :: r' => (r', (pos + 2)%nat)
              | _ => (r, S pos)
              end in
            let first :=
              match r with
              | "]"%char :: r' => Ok (r', S pos)
              | _ => Ok (r, pos)
              end in
            '(r, pos) ← first;
            '(r, pos) ← parse_set (length r) r pos;
            scan fuel r pos
          else scan fuel r (S pos)
      end
  end.

(** A compiled pattern is represented by its source. *)
Definition compile (pattern : str) : result str :=
  _ ← scan (length pattern) pattern 0%nat;
  Ok pattern.

(** *** Matching: regular expressions and their derivatives *)

Inductive regex : Type :=
| Void
| Eps
| Chr (p : ascii → bool)
| Cat (r1 r2 : regex)
| Alt (r1 r2 : regex)
| Star (r : regex).

Fixpoint nullable (r : regex) : bool :=
  match r with
  | Void | Chr _ => false
  | Eps | Star _ => true
  | Cat r1 r2 => nullable r1 && nullable r2
  | Alt r1 r2 => nullable r1 || nullable r2
  end.

Fixpoint deriv (c : ascii) (r : regex) : regex :=
  match r with
  | Void | Eps => Void
  | Chr p => if p c then Eps else Void
  | Cat r1 r2 =>
      if nullable r1 then Alt (Cat (deriv c r1) r2) (deriv c r2)
      else Cat (deriv c r1) r2
  | Alt r1 r2 => Alt (deriv c r1) (deriv c r2)
  | Star r1 => Cat (deriv c r1) (Star r1)
  end.

(** [re.match(r, x)] is not [None]: some prefix of [x] matches [r]. *)
Fixpoint match_ (r : regex) (x : str) : bool :=
  nullable r ||
  match x with
  | [] => false
  | c :: x' => match_ (deriv c r) x'
  end.

(** [re.fullmatch(r, x)] is not [None]; used to state the exact pattern. *)
Fixpoint fullmatch (r : regex) (x : str) : bool :=
  match x with
  | [] => nullable r
  | c :: x' => fullmatch (deriv c r) x'
  end.

Definition cats (rs : list regex) : regex := foldr Cat Eps rs.
Definition lit (c : ascii) : regex := Chr (Py.ascii_eqb c).
Definition digit : regex := Chr Py.is_digit.       (* \d *)
Definition space : regex := Chr Py.is_space.       (* \s *)

End Re.

(** ** Splitter ([srt_splitter.py]) *)

Module Splitter.

(** A subtitle block: the dict [{"id", "content"}]. *)
Record block : Type := {
  id : Z;
  content : str;
}.

Record subtitle_range : Type := {
  range_start : Z;
  range_end : Z;
}.

(** A chunk: the dict [{"id", "content", "subtitle_range"}]. *)
Record chunk : Type := {
  chunk_id : nat;
  chunk_content : str;
  chunk_range : subtitle_range;
}.

Record split_result : Type := {
  chunks : list chunk;
  total_subtitles : nat;
  error : option str;
}.

(** The pattern of [split_srt], as the raw string of the source. *)
Definition pattern : str :=
  Py.s "(\d+)\s*\n([\d:,\s->]+)\s*\n([\s\S]*?)(?=\n\s*\n\s*\d+\s*\n|$)".

(** The fallback parser (the "traditional" method of the source). *)
Fixpoint parse_loop (lines : list str) (subtitle_blocks : list block)
    (current_block : list str) (current_subtitle_id : option Z)
    : list block * list str * option Z :=
  match lines with
  | [] => (subtitle_blocks, current_block, current_subtitle_id)
  | raw :: lines' =>
      let line := Py.strip raw in
      if negb (Py.truthy line) then
        parse_loop lines' subtitle_blocks current_block current_subtitle_id
      else
        match Py.int line with
        | Some subtitle_id =>
            let subtitle_blocks :=
              match current_block, current_subtitle_id with
              | _ :: _, Some cid =>
                  subtitle_blocks ++
                    [{| id := cid; content := Py.join [Py.LF] current_block |}]
              | _, _ => subtitle_blocks
              end in
            parse_loop lines' subtitle_blocks [line] (Some subtitle_id)
        | None =>
            match current_block with
            | _ :: _ =>
                parse_loop lines' subtitle_blocks (current_block ++ [line])
                  current_subtitle_id
            | [] =>
                parse_loop lines' subtitle_blocks current_block
                  current_subtitle_id
            end
        end
  end.

Definition parse_fallback (doc : str) : list block :=
  let '(subtitle_blocks, current_block, current_subtitle_id) :=
    parse_loop (Py.splitlines doc) [] [] None in
  match current_block, current_subtitle_id with
  | _ :: _, Some cid =>
      subtitle_blocks ++
        [{| id := cid; content := Py.join [Py.LF] current_block |}]
  | _, _ => subtitle_blocks
  end.

(** [range(0, total, step)] for a positive [step]. *)
Definition range_from_0 (total step : nat) : list nat :=
  map (fun j => (j * step)%nat) (seq 0 ((total + step - 1) / step)).

(** [subtitle_blocks[i:end_idx]] *)
Definition slice {A} (xs : list A) (i end_idx : nat) : list A :=
  take (end_idx - i) (drop i xs).

(** The groups of blocks the [for i in range(0, total_blocks, chunk_size)]
    loop cuts: one [chunk_blocks] per iteration. *)
Definition chunk_groups (subtitle_blocks : list block) (chunk_size : nat)
    : list (list block) :=
  let total_blocks := length subtitle_blocks in
  map (fun i => slice subtitle_blocks i (Nat.min (i + chunk_size) total_blocks))
      (range_from_0 total_blocks chunk_size).

(** The body of the loop; [n] is [len(chunks)] when it runs. *)
Definition make_chunk (n : nat) (chunk_blocks : list block) : result chunk :=
  match chunk_blocks, last chunk_blocks with
  | first :: _, Some final =>
      Ok {| chunk_id := (n + 1)%nat;
            chunk_content := Py.join [Py.LF; Py.LF] (map content chunk_blocks);
            chunk_range := {| range_start := id first; range_end := id final |} |}
  | _, _ => Raise IndexError
  end.

Fixpoint make_chunks (n : nat) (groups : list (list block)) : result (list chunk) :=
  match groups with
  | [] => Ok []
  | chunk_blocks :: groups' =>
      c ← make_chunk n chunk_blocks;
      cs ← make_chunks (S n) groups';
      Ok (c :: cs)
  end.

(** The chunking part of [split_srt], from [chunks = []] on. *)
Definition chunk_up (subtitle_blocks : list block) (chunk_size : Z)
    : result split_result :=
  if chunk_size =? 0 then
    Raise (ValueError (Py.s "range() arg 3 must not be zero"))
  else
    let groups :=
      if chunk_size <? 0 then []
      else chunk_groups subtitle_blocks (Z.to_nat chunk_size) in
    cs ← make_chunks 0 groups;
    Ok {| chunks := cs; total_subtitles := length subtitle_blocks;
          error := None |}.

Section WithEngine.

(** The matching engine of [re]: for a compiled pattern and a text, the
    groups 1, 2 and 3 of every match of [finditer], in order. *)
Variable finditer : str → str → list (str * str * str).

Definition block_of_match (m : str * str * str) : result block :=
  let '(g1, timing, g3) := m in
  match Py.int g1 with
  | Some subtitle_id =>
      Ok {| id := subtitle_id;
            content := Py.of_Z subtitle_id ++ [Py.LF] ++ timing ++ [Py.LF]
                         ++ Py.strip g3 |}
  | None => Raise (ValueError (Py.s "invalid literal for int()"))
  end.

Definition split_srt (doc : str) (chunk_size : Z) : result split_result :=
  compiled ← Re.compile pattern;
  subtitle_blocks ← mapM block_of_match (finditer compiled doc);
  let subtitle_blocks :=
    match subtitle_blocks with
    | [] => parse_fallback doc
    | _ :: _ => subtitle_blocks
    end in
  chunk_up subtitle_blocks chunk_size.

(** [SRTSplitterAgent.split] *)
Definition SRTSplitterAgent_split (doc : str) (chunk_size : Z) : split_result :=
  match split_srt doc chunk_size with
  | Ok r => r
  | Raise e =>
      {| chunks := []; total_subtitles := 0;
         error := Some (Py.s "分块过程中发生错误: " ++ exn_str e) |}
  end.

End WithEngine.

(** The document of the Splitter's tests ([TEST_SRT]). *)
Definition TEST_SRT : str := Py.s "1
00:00:01,000 --> 00:00:04,000
这是第一条字幕

2
00:00:05,000 --> 00:00:09,000
这是第二条字幕

3
00:00:10,000 --> 00:00:14,000
这是第三条字幕
多行文本

4
00:00:15,000 --> 00:00:19,000
这是第四条字幕

5
00:00:20,000 --> 00:00:24,000
这是第五条字幕
".

(** The message of the exception [re.compile] raises on [pattern]. *)
Definition pattern_error : exn :=
  re_error (Py.s "bad character range \s-> at position 16").

End Splitter.

(** ** Validator ([srt_validator.py]) *)

Module Validator.

Inductive message : Type :=
| EmptyFile                      (* "SRT 文件为空" *)
| InvalidNumber (line : str)     (* "无效的字幕序号: '...'" *)
| MissingTiming                  (* "缺少时间轴" *)
| InvalidTiming (time_line : str) (* "无效的时间轴格式: '...'" *)
| MissingText                    (* "缺少字幕文本" *)
| EmptyText.                     (* "字幕文本为空" *)

(** One entry of [errors]: the dict [{"line", "error"}]. *)
Record validation_error : Type := {
  line : nat;
  error : message;
}.

Record validation_result : Type := {
  valid : bool;
  errors : list validation_error;
}.

Definition message_str (m : message) : str :=
  match m with
  | EmptyFile => Py.s "SRT 文件为空"
  | InvalidNumber l => Py.s "无效的字幕序号: '" ++ l ++ Py.s "'"
  | MissingTiming => Py.s "缺少时间轴"
  | InvalidTiming l => Py.s "无效的时间轴格式: '" ++ l ++ Py.s "'"
  | MissingText => Py.s "缺少字幕文本"
  | EmptyText => Py.s "字幕文本为空"
  end.

(** [\d{2}:\d{2}:\d{2},\d{3}] *)
Definition timestamp : Re.regex :=
  Re.cats [Re.digit; Re.digit; Re.lit ":"; Re.digit; Re.digit; Re.lit ":";
           Re.digit; Re.digit; Re.lit ","; Re.digit; Re.digit; Re.digit].

(** [(\d{2}:\d{2}:\d{2},\d{3})\s*-->\s*(\d{2}:\d{2}:\d{2},\d{3})] *)
Definition time_pattern : Re.regex :=
  Re.cats [timestamp; Re.Star Re.space; Re.lit "-"; Re.lit "-"; Re.lit ">";
           Re.Star Re.space; timestamp].

(** [while i < len(lines) and lines[i].strip(): has_text = True; i += 1],
    on [rest = lines[i:]]. *)
Fixpoint skip_text (rest : list str) (i : nat) (has_text : bool)
    : list str * nat * bool :=
  match rest with
  | l :: rest' =>
      if Py.truthy (Py.strip l) then skip_text rest' (S i) true
      else (rest, i, has_text)
  | [] => (rest, i, has_text)
  end.

(** [while i < len(lines) and not lines[i].strip(): i += 1] *)
Fixpoint skip_blank (rest : list str) (i : nat) : list str * nat :=
  match rest with
  | l :: rest' =>
      if negb (Py.truthy (Py.strip l)) then skip_blank rest' (S i)
      else (rest, i)
  | [] => (rest, i)
  end.

(** The main loop on [rest = lines[i:]].  [ids] collects, for the proofs,
    the indices [i] at which a subtitle number was read; it has no
    counterpart in the source.  [None]: the fuel ran out. *)
Fixpoint validate_loop (fuel : nat) (rest : list str) (i : nat)
    (errors : list validation_error) (ids : list nat)
    : option (list validation_error * list nat) :=
  match fuel with
  | O => None
  | S fuel =>
      match rest with
      | [] => Some (errors, ids)
      | l :: rest1 =>
          if negb (Py.truthy (Py.strip l)) then
            validate_loop fuel rest1 (S i) errors ids
          else
            match Py.int (Py.strip l) with
            | None =>
                let errors :=
                  errors ++ [{| line := i + 1; error := InvalidNumber l |}] in
                let '(rest', i', _) := skip_text rest i false in
                validate_loop fuel rest' i' errors ids
            | Some subtitle_number =>
                let ids := ids ++ [i] in
                let i := S i in
                match rest1 with
                | [] =>
                    Some (errors ++ [{| line := i; error := MissingTiming |}],
                          ids)
                | time_line :: rest2 =>
                    let errors :=
                      if Re.match_ time_pattern time_line then errors
                      else errors ++
                             [{| line := i + 1;
                                 error := InvalidTiming time_line |}] in
                    let i := S i in
                    match rest2 with
                    | [] =>
                        Some (errors ++
                                [{| line := i; error := MissingText |}], ids)
                    | _ :: _ =>
                        let '(rest3, i, has_text) := skip_text rest2 i false in
                        let errors :=
                          if has_text then errors
                          else errors ++ [{| line := i; error := EmptyText |}] in
                        let '(rest4, i) := skip_blank rest3 i in
                        validate_loop fuel rest4 i errors ids
                    end
                end
            end
      end
  end.

(** [validate_srt] with the indices of the subtitle numbers it read. *)
Definition validate_srt_ids (doc : str)
    : option (validation_result * list nat) :=
  let lines := Py.splitlines doc in
  if negb (Py.truthy (Py.strip doc)) then
    Some ({| valid := false;
             errors := [{| line := 0; error := EmptyFile |}] |}, [])
  else
    '(errors, ids) ← validate_loop (S (length lines)) lines 0%nat [] [];
    Some ({| valid := bool_decide (length errors = 0%nat);
             errors := errors |}, ids).

Definition validate_srt (doc : str) : option validation_result :=
  fst <$> validate_srt_ids doc.

(** The exact timing line of the specification: the two time stamps
    separated by [" --> "], and nothing else. *)
Definition exact_time_pattern : Re.regex :=
  Re.cats [timestamp; Re.lit " "; Re.lit "-"; Re.lit "-"; Re.lit ">";
           Re.lit " "; timestamp].

(** A timing line that [validate_srt] reports, for the subtitle number at
    index [j]: the next line, as line [n] of the document. *)
Definition bad_timing (lines : list str) (j n : nat) (tl : str) : Prop :=
  n = (j + 2)%nat ∧ lines !! (j + 1)%nat = Some tl ∧
  Re.match_ time_pattern tl = false.

Definition timing_error (n : nat) (tl : str) : validation_error :=
  {| line := n; error := InvalidTiming tl |}.

(** A document whose timing line has more than the two time stamps. *)
Definition extra_doc : str := Py.s "1
00:00:01,000 --> 00:00:04,000 X-Position: 40%
hello
".

Definition extra_line : str :=
  Py.s "00:00:01,000 --> 00:00:04,000 X-Position: 40%".

(** A document with a malformed arrow in the first subtitle and no text
    in the second. *)
Definition arrow_doc : str := Py.s "1
00:00:01,000 -> 00:00:04,000
hello

2
00:00:05,000 --> 00:00:09,000

3
00:00:10,000 --> 00:00:14,000
bye
".

End Validator.

(** ** Persistence ([save_srt_file] of [srt_reassembler.py]) *)

Module Persistence.

(** The files of the results area: path to content. *)
Abbreviation files := (gmap str str).

(** [os.path.join(a, b)] *)
Definition path_join (a b : str) : str :=
  if Py.startswith b (Py.s "/") then b
  else if negb (Py.truthy a) || Py.endswith a (Py.s "/") then a ++ b
  else a ++ Py.s "/" ++ b.

Definition file_path_of (task_id output_dir : str) : str :=
  path_join output_dir (task_id ++ Py.s ".srt").

Definition tmp_path_of (task_id output_dir : str) : str :=
  file_path_of task_id output_dir ++ Py.s ".tmp".

(** What the operating system does during one call: nothing goes wrong, or
    one operation of the call fails.  A failed write (or the flush at
    close) leaves the first [written] characters in the file. *)
Inductive fault : Type :=
| NoFault
| FailMakedirs
| FailOpen
| FailWrite (written : nat)
| FailRename
| FailGetsize.

Record save_result : Type := {
  file_path : str;
  file_size : nat;
  error : option str;
}.

(** The body of the [try]: the result and every state of the files, the
    last one first. *)
Definition try_body (f : fault) (doc file tmp : str) (fs0 : files)
    : result save_result * list files :=
  match f with
  | FailOpen => (Raise (OSError (Py.s "open")), [fs0])
  | _ =>
      (* aiofiles.open(tmp_path, "w") *)
      let fs1 := <[tmp := []]> fs0 in
      match f with
      | FailWrite written =>
          let fs2 := <[tmp := take written doc]> fs1 in
          (Raise (OSError (Py.s "write")), [fs2; fs1; fs0])
      | _ =>
          (* await f.write(content), and the close *)
          let fs2 := <[tmp := doc]> fs1 in
          match f with
          | FailRename => (Raise (OSError (Py.s "rename")), [fs2; fs1; fs0])
          | _ =>
              (* os.rename(tmp_path, file_path) *)
              let fs3 := <[file := doc]> (delete tmp fs2) in
              match f with
              | FailGetsize =>
                  (Raise (OSError (Py.s "getsize")), [fs3; fs2; fs1; fs0])
              | _ =>
                  (Ok {| file_path := file; file_size := Py.size doc;
                         error := None |},
                   [fs3; fs2; fs1; fs0])
              end
          end
      end
  end.

(** [save_srt_file]: the result and the trace of file states, last first. *)
Definition save_srt_file_trace (f : fault) (doc task_id output_dir : str)
    (fs0 : files) : result save_result * list files :=
  match f with
  | FailMakedirs => (Raise (OSError (Py.s "makedirs")), [fs0])
  | _ =>
      let file := file_path_of task_id output_dir in
      let tmp := tmp_path_of task_id output_dir in
      match try_body f doc file tmp fs0 with
      | (Ok r, trace) => (Ok r, trace)
      | (Raise e, trace) =>
          (* except Exception: remove the temporary file, raise again *)
          match trace with
          | fs :: _ =>
              match fs !! tmp with
              | Some _ => (Raise e, delete tmp fs :: trace)
              | None => (Raise e, trace)
              end
          | [] => (Raise e, trace)
          end
      end
  end.

Definition save_srt_file (f : fault) (doc task_id output_dir : str)
    (fs0 : files) : result save_result * files :=
  let '(r, trace) := save_srt_file_trace f doc task_id output_dir fs0 in
  (r, default fs0 (head trace)).

(** [SRTReassemblerAgent.save_file], with the default [output_dir]. *)
Definition SRTReassemblerAgent_save_file (f : fault) (doc task_id : str)
    (fs0 : files) : save_result * files :=
  match save_srt_file f doc task_id (Py.s "data/results") fs0 with
  | (Ok r, fs) => (r, fs)
  | (Raise e, fs) =>
      ({| file_path := []; file_size := 0;
          error := Some (Py.s "保存文件过程中发生错误: " ++ exn_str e) |}, fs)
  end.

(** A results area with an older artifact of the same task. *)
Definition old_files : files :=
  {[ Py.s "data/results/job7.srt" := Py.s "old content" ]}.

End Persistence.

(** ** Notification ([notification.py]) *)

Module Notification.

Record url_result : Type := {
  download_url : str;
  expiry_time : str;
  error : option str;
}.

(** One call of [send_status_notification]. *)
Record notification : Type := {
  task_id : str;
  status : str;
  sent_download_url : option str;
  error_message : option str;
}.

Section WithClock.

(** The expiry time the clock gives ([datetime...isoformat()]) and the
    configured base URL. *)
Variable expiry : str.
Variable DOWNLOAD_BASE_URL : option str.

Definition generate_download_url (file_path task_id : str)
    (fs : Persistence.files) : url_result :=
  match fs !! file_path with
  | None =>
      {| download_url := []; expiry_time := [];
         error := Some (Py.s "文件不存在") |}
  | Some _ =>
      let base_url :=
        match DOWNLOAD_BASE_URL with
        | Some (c :: u) => c :: u
        | _ => Py.s "https://cdn.example.com/files"
        end in
      {| download_url := base_url ++ Py.s "/" ++ task_id ++ Py.s ".srt";
         expiry_time := expiry;
         error := None |}
  end.

End WithClock.

End Notification.

(** ** Workflow ([workflow.py]) *)

Module Workflow.

(** The result of [SRTReassemblerAgent.reassemble]. *)
Record reassembly_result : Type := {
  content : str;
  subtitle_count : nat;
  reassembly_error : option str;
}.

(** [SRTReassemblerAgent.reassemble] *)
Definition SRTReassemblerAgent_reassemble
    (chunks : list Reassembler.translated_chunk) (normalize_ids : bool)
    : reassembly_result :=
  let r := Reassembler.reassemble_srt chunks normalize_ids in
  {| content := Reassembler.content r;
     subtitle_count := Reassembler.subtitle_count r;
     reassembly_error := None |}.

(** The agents a workflow holds ([self.validator], [self.splitter], ...),
    by the methods [process] calls on them.  A method may raise. *)
Record TranslationWorkflow : Type := {
  validate : str → result Validator.validation_result;
  split : str → Z → result Splitter.split_result;
  translate : str → str → str → Translator.glossary → str
              → result Translator.translation_result;
  reassemble : list Reassembler.translated_chunk → result reassembly_result;
  save_file : str → str → Persistence.files
              → result Persistence.save_result * Persistence.files;
  generate_url : str → str → Persistence.files
                 → result Notification.url_result;
}.

(** What a run acts on: the files, the records [process] writes with
    [logger.error] and the notifications it sends, both in order. *)
Record world : Type := {
  files : Persistence.files;
  log : list str;
  sent : list Notification.notification;
}.

Inductive details : Type :=
| ValidationDetails (r : Validator.validation_result)
| SplittingDetails (r : Splitter.split_result)
| TranslationDetails (rs : list Translator.translation_result)
| ReassemblyDetails (r : reassembly_result)
| SaveDetails (r : Persistence.save_result)
| UrlDetails (r : Notification.url_result).

(** The dict [process] returns; an absent key is [None]. *)
Record process_result : Type := {
  task_id : str;
  status : str;
  download_url : option str;
  result_subtitle_count : option nat;
  file_size : option nat;
  expiry_time : option str;
  error : option str;
  error_details : option details;
}.

Definition logger_error (msg : str) (w : world) : world :=
  {| files := files w; log := log w ++ [msg]; sent := sent w |}.

Definition send_notification (n : Notification.notification) (w : world)
    : world :=
  {| files := files w; log := log w; sent := sent w ++ [n] |}.

Definition set_files (fs : Persistence.files) (w : world) : world :=
  {| files := fs; log := log w; sent := sent w |}.

(** A failure return of [process]: the log record (without the values the
    source formats into it after the message), the notification and the
    dict with ["error"] and ["details"]. *)
Definition fail (tid log_msg msg : str) (d : details) (w : world)
    : process_result * world :=
  let w := logger_error log_msg w in
  let w :=
    send_notification
      {| Notification.task_id := tid; Notification.status := Py.s "failed";
         Notification.sent_download_url := None;
         Notification.error_message := Some msg |} w in
  ({| task_id := tid; status := Py.s "failed"; download_url := None;
      result_subtitle_count := None; file_size := None; expiry_time := None;
      error := Some msg; error_details := Some d |}, w).

(** The [except Exception as e] of [process]. *)
Definition fail_exception (tid : str) (e : exn) (w : world)
    : process_result * world :=
  let w :=
    logger_error (Py.s "翻译任务处理过程中发生错误: " ++ exn_str e) w in
  let w :=
    send_notification
      {| Notification.task_id := tid; Notification.status := Py.s "failed";
         Notification.sent_download_url := None;
         Notification.error_message := Some (exn_str e) |} w in
  ({| task_id := tid; status := Py.s "failed"; download_url := None;
      result_subtitle_count := None; file_size := None; expiry_time := None;
      error := Some (Py.s "处理过程中发生错误: " ++ exn_str e);
      error_details := None |}, w).

(** [for i, result in enumerate(translation_results)]: the failed chunks
    are logged and left out. *)
Fixpoint collect (i : nat) (chunks : list Splitter.chunk)
    (results : list Translator.translation_result)
    (translated_chunks : list Reassembler.translated_chunk) (w : world)
    : list Reassembler.translated_chunk * world :=
  match results, chunks with
  | r :: results', c :: chunks' =>
      match Translator.error r with
      | Some err =>
          let w :=
            logger_error (Py.s "块 " ++ Py.of_nat (i + 1) ++ Py.s " 翻译失败: "
                            ++ err) w in
          collect (S i) chunks' results' translated_chunks w
      | None =>
          collect (S i) chunks' results'
            (translated_chunks ++
               [{| Reassembler.chunk_id :=
                     Some (Z.of_nat (Splitter.chunk_id c));
                   Reassembler.translated_content :=
                     Some (Translator.translated_content r) |}]) w
      end
  | _, _ => (translated_chunks, w)
  end.

(** The chunks [collect] keeps and the records it logs, for the chunks
    from position [i] on. *)
Fixpoint succeeded (chunks : list Splitter.chunk)
    (results : list Translator.translation_result)
    : list Reassembler.translated_chunk :=
  match results, chunks with
  | r :: results', c :: chunks' =>
      match Translator.error r with
      | Some _ => succeeded chunks' results'
      | None =>
          {| Reassembler.chunk_id := Some (Z.of_nat (Splitter.chunk_id c));
             Reassembler.translated_content :=
               Some (Translator.translated_content r) |}
          :: succeeded chunks' results'
      end
  | _, _ => []
  end.

Fixpoint failure_records (i : nat)
    (results : list Translator.translation_result) : list str :=
  match results with
  | r :: results' =>
      match Translator.error r with
      | Some err =>
          (Py.s "块 " ++ Py.of_nat (i + 1) ++ Py.s " 翻译失败: " ++ err)
          :: failure_records (S i) results'
      | None => failure_records (S i) results'
      end
  | [] => []
  end.

Section Process.

Variable self : TranslationWorkflow.
(** [settings.AGNO_DEFAULT_ENGINE], [settings.AGNO_CHUNK_SIZE] and the
    identifier [uuid.uuid4()] gives. *)
Variable AGNO_DEFAULT_ENGINE : str.
Variable AGNO_CHUNK_SIZE : Z.
Variable uuid4 : str.

(** Steps 4 to 8 of [process]. *)
Definition finish (tid : str)
    (translated_chunks : list Reassembler.translated_chunk) (w : world)
    : process_result * world :=
  match reassemble self translated_chunks with
  | Raise e => fail_exception tid e w
  | Ok reassembly_result =>
      match reassembly_error reassembly_result with
      | Some err =>
          fail tid (Py.s "SRT 文件重组失败: " ++ err)
            (Py.s "SRT 文件重组失败") (ReassemblyDetails reassembly_result) w
      | None =>
          match save_file self (content reassembly_result) tid (files w) with
          | (Raise e, fs) => fail_exception tid e (set_files fs w)
          | (Ok save_result, fs) =>
              let w := set_files fs w in
              match Persistence.error save_result with
              | Some err =>
                  fail tid (Py.s "SRT 文件保存失败: " ++ err)
                    (Py.s "SRT 文件保存失败") (SaveDetails save_result) w
              | None =>
                  match generate_url self (Persistence.file_path save_result)
                          tid (files w) with
                  | Raise e => fail_exception tid e w
                  | Ok url_result =>
                      match Notification.error url_result with
                      | Some err =>
                          fail tid (Py.s "下载 URL 生成失败: " ++ err)
                            (Py.s "下载 URL 生成失败") (UrlDetails url_result) w
                      | None =>
                          let url := Notification.download_url url_result in
                          let w :=
                            send_notification
                              {| Notification.task_id := tid;
                                 Notification.status := Py.s "completed";
                                 Notification.sent_download_url := Some url;
                                 Notification.error_message := None |} w in
                          ({| task_id := tid; status := Py.s "completed";
                              download_url := Some url;
                              result_subtitle_count :=
                                Some (subtitle_count reassembly_result);
                              file_size :=
                                Some (Persistence.file_size save_result);
                              expiry_time :=
                                Some (Notification.expiry_time url_result);
                              error := None; error_details := None |}, w)
                      end
                  end
              end
          end
      end
  end.

Definition process (doc source_lang target_lang : str) (tid : option str)
    (g : Translator.glossary) (engine_name : option str)
    (chunk_size : option Z) (w : world) : process_result * world :=
  let tid := default uuid4 tid in
  let engine_name := default AGNO_DEFAULT_ENGINE engine_name in
  let chunk_size := default AGNO_CHUNK_SIZE chunk_size in
  (* 1. validation *)
  match validate self doc with
  | Raise e => fail_exception tid e w
  | Ok validation_result =>
      if negb (Validator.valid validation_result) then
        fail tid (Py.s "SRT 文件格式验证失败") (Py.s "SRT 文件格式验证失败")
          (ValidationDetails validation_result) w
      else
        (* 2. splitting *)
        match split self doc chunk_size with
        | Raise e => fail_exception tid e w
        | Ok splitting_result =>
            match Splitter.error splitting_result with
            | Some err =>
                fail tid (Py.s "SRT 文件分块失败: " ++ err)
                  (Py.s "SRT 文件分块失败") (SplittingDetails splitting_result) w
            | None =>
                (* 3. translation of every chunk *)
                let chunks := Splitter.chunks splitting_result in
                let w :=
                  send_notification
                    {| Notification.task_id := tid;
                       Notification.status := Py.s "processing";
                       Notification.sent_download_url := None;
                       Notification.error_message := None |} w in
                match mapM (fun c =>
                              translate self (Splitter.chunk_content c)
                                source_lang target_lang g engine_name)
                           chunks with
                | Raise e => fail_exception tid e w
                | Ok translation_results =>
                    let '(translated_chunks, w) :=
                      collect 0 chunks translation_results [] w in
                    match translated_chunks with
                    | [] =>
                        fail tid (Py.s "所有块翻译失败") (Py.s "所有块翻译失败")
                          (TranslationDetails translation_results) w
                    | _ :: _ => finish tid translated_chunks w
                    end
                end
            end
        end
  end.

End Process.

(** What a return of [process] leaves behind, from the world [w] it
    started in: the dict is for the task [tid], completed without error or
    failed with one; the log only grew; one notification was sent, with
    the status and the download URL of the dict, and with an error message
    when the run failed. *)
Definition reported (tid : str) (w : world)
    (out : process_result * world) : Prop :=
  task_id out.1 = tid ∧
  (status out.1 = Py.s "completed" ∧ error out.1 = None ∨
   status out.1 = Py.s "failed" ∧ is_Some (error out.1)) ∧
  log w `prefix_of` log out.2 ∧
  ∃ last, sent out.2 = sent w ++ [last] ∧
    Notification.task_id last = tid ∧
    Notification.status last = status out.1 ∧
    Notification.sent_download_url last = download_url out.1 ∧
    (status out.1 = Py.s "failed" → is_Some (Notification.error_message last)).

End Workflow.

(** ** The agents put together *)

Module Pipeline.

(** A provider that returns its input text unchanged. *)
Definition identity_provider : Translator.provider :=
  fun text _ _ => Ok text.

(** A workflow with the Reassembler, the file writer and the URL generator
    of the source, whatever its Validator, Splitter and Translator are. *)
Definition workflow_with
    (validate : str → result Validator.validation_result)
    (split : str → Z → result Splitter.split_result)
    (translate : str → str → str → Translator.glossary → str
                 → result Translator.translation_result)
    (f : Persistence.fault) (expiry : str) (DOWNLOAD_BASE_URL : option str)
    : Workflow.TranslationWorkflow :=
  {| Workflow.validate := validate;
     Workflow.split := split;
     Workflow.translate := translate;
     Workflow.reassemble := fun chunks =>
       Ok (Workflow.SRTReassemblerAgent_reassemble chunks true);
     Workflow.save_file := fun doc tid fs =>
       let '(r, fs') := Persistence.SRTReassemblerAgent_save_file f doc tid fs in
       (Ok r, fs');
     Workflow.generate_url := fun path tid fs =>
       Ok (Notification.generate_download_url expiry DOWNLOAD_BASE_URL
             path tid fs) |}.

(** [SRTValidatorAgent.validate] *)
Definition SRTValidatorAgent_validate (doc : str) : Validator.validation_result :=
  default {| Validator.valid := false; Validator.errors := [] |}
          (Validator.validate_srt doc).

(** The workflow of the source: every agent is the source's own. *)
Definition translation_workflow
    (finditer : str → str → list (str * str * str))
    (deepseek_api mistral_api : Translator.provider)
    (DEEPSEEK_API_KEY : option str) (AGNO_DEFAULT_ENGINE : str)
    (f : Persistence.fault) (expiry : str)
    (DOWNLOAD_BASE_URL : option str) : Workflow.TranslationWorkflow :=
  workflow_with
    (fun doc => Ok (SRTValidatorAgent_validate doc))
    (fun doc chunk_size =>
       Ok (Splitter.SRTSplitterAgent_split finditer doc chunk_size))
    (fun chunk_content source_lang target_lang g engine_name =>
       Ok (Translator.TranslatorAgent_translate deepseek_api mistral_api
             DEEPSEEK_API_KEY AGNO_DEFAULT_ENGINE chunk_content source_lang
             target_lang g (Some engine_name)))
    f expiry DOWNLOAD_BASE_URL.

(** Translating one chunk of the Splitter into a chunk for the
    Reassembler, as [process] pairs them. *)
Definition translate_one (api : Translator.provider) (g : Translator.glossary)
    (chunk_id : Z) (chunk_content : str) : result Reassembler.translated_chunk :=
  r ← Translator.translate_chunk api api None chunk_content
        (Py.s "en") (Py.s "zh") g (Py.s "mistral");
  Ok {| Reassembler.chunk_id := Some chunk_id;
        Reassembler.translated_content :=
          Some (Translator.translated_content r) |}.

(** [reassemble(translate(split(D, k)))] with [normalize_ids = False]. *)
Definition round_trip (finditer : str → str → list (str * str * str))
    (api : Translator.provider) (doc : str) (chunk_size : Z)
    : result Reassembler.reassembled :=
  splitting_result ← Splitter.split_srt finditer doc chunk_size;
  translated_chunks ←
    mapM (fun c => translate_one api None (Z.of_nat (Splitter.chunk_id c))
                     (Splitter.chunk_content c))
         (Splitter.chunks splitting_result);
  Ok (Reassembler.reassemble_srt translated_chunks false).

(** *** Two runs

    A splitter that hands out given chunks, as the mocks of the workflow
    tests do, and a provider that raises on the text [boom]. *)
Definition fixed_split (chunks : list Splitter.chunk)
    : str → Z → result Splitter.split_result :=
  fun _ _ =>
    Ok {| Splitter.chunks := chunks;
          Splitter.total_subtitles := length chunks;
          Splitter.error := None |}.

Definition flaky_provider : Translator.provider := fun text _ _ =>
  if bool_decide (text = Py.s "boom")
  then Raise (ProviderError (Py.s "service unavailable"))
  else Ok text.

Definition chunk_alpha : Splitter.chunk :=
  {| Splitter.chunk_id := 1;
     Splitter.chunk_content := Py.s "1
00:00:01,000 --> 00:00:02,000
alpha";
     Splitter.chunk_range := {| Splitter.range_start := 1; Splitter.range_end := 1 |} |}.

Definition chunk_boom : Splitter.chunk :=
  {| Splitter.chunk_id := 2;
     Splitter.chunk_content := Py.s "2
00:00:03,000 --> 00:00:04,000
boom";
     Splitter.chunk_range := {| Splitter.range_start := 2; Splitter.range_end := 2 |} |}.

Definition chunk_gamma (n : nat) : Splitter.chunk :=
  {| Splitter.chunk_id := n;
     Splitter.chunk_content := Py.of_nat n ++ Py.s "
00:00:05,000 --> 00:00:06,000
gamma";
     Splitter.chunk_range :=
       {| Splitter.range_start := Z.of_nat n; Splitter.range_end := Z.of_nat n |} |}.

Definition three_doc : str := Py.s "1
00:00:01,000 --> 00:00:02,000
alpha

2
00:00:03,000 --> 00:00:04,000
boom

3
00:00:05,000 --> 00:00:06,000
gamma
".

Definition two_doc : str := Py.s "1
00:00:01,000 --> 00:00:02,000
alpha

2
00:00:05,000 --> 00:00:06,000
gamma
".

(** The workflow of a run over given chunks: the Validator, the
    Translator, the Reassembler, the writer and the URL generator of the
    source, the chunks fixed. *)
Definition workflow_over (chunks : list Splitter.chunk)
    : Workflow.TranslationWorkflow :=
  workflow_with
    (fun doc => Ok (SRTValidatorAgent_validate doc))
    (fixed_split chunks)
    (fun chunk_content source_lang target_lang g engine_name =>
       Ok (Translator.TranslatorAgent_translate flaky_provider flaky_provider
             None (Py.s "mistral") chunk_content source_lang target_lang g
             (Some engine_name)))
    Persistence.NoFault (Py.s "2026-01-01T00:00:00") None.

Definition empty_world : Workflow.world :=
  {| Workflow.files := ∅; Workflow.log := []; Workflow.sent := [] |}.

Definition run_over (chunks : list Splitter.chunk) (doc : str)
    : Workflow.process_result * Workflow.world :=
  Workflow.process (workflow_over chunks) (Py.s "mistral") 100
    (Py.s "generated-id") doc (Py.s "en") (Py.s "zh") (Some (Py.s "job7"))
    None None None empty_world.

(** *** SRT documents, in the words of the specification

    A document is a sequence of blocks separated by blank lines; a block is
    its lines: the identifier, the timing line, the text lines. *)

Fixpoint srt_blocks_loop (lines : list str) (current : list str)
    : list (list str) :=
  match lines with
  | [] => match current with [] => [] | _ :: _ => [current] end
  | l :: lines' =>
      if Py.truthy (Py.strip l) then srt_blocks_loop lines' (current ++ [l])
      else
        match current with
        | [] => srt_blocks_loop lines' []
        | _ :: _ => current :: srt_blocks_loop lines' []
        end
  end.

Definition srt_blocks (doc : str) : list (list str) :=
  srt_blocks_loop (Py.splitlines doc) [].

(** A subtitle record. *)
Record record : Type := {
  rec_id : str;
  timing : str;
  text_lines : list str;
}.

Definition record_lines (r : record) : list str :=
  rec_id r :: timing r :: text_lines r.

(** A record as SRT text, and records separated by a blank line. *)
Definition render_record (r : record) : str :=
  Py.join [Py.LF] (record_lines r).

Definition render_records (rs : list record) : str :=
  Py.join [Py.LF; Py.LF] (map render_record rs).

(** A line as the parsers keep it: not empty, no line boundary inside, no
    white space at either end. *)
Definition clean_line (l : str) : bool :=
  match l, rev l with
  | c :: _, d :: _ =>
      negb (Py.is_space c) && negb (Py.is_space d)
      && forallb (fun a => negb (Py.is_linebreak a)) l
  | _, _ => false
  end.

Definition is_int (l : str) : bool :=
  match Py.int l with Some _ => true | None => false end.

(** A record the pipeline keeps apart: its identifier reads as an integer,
    its timing and text lines do not, and it has text. *)
Definition wf_record (r : record) : bool :=
  clean_line (rec_id r) && is_int (rec_id r)
  && clean_line (timing r) && negb (is_int (timing r))
  && forallb (fun l => clean_line l && negb (is_int l)) (text_lines r)
  && match text_lines r with [] => false | _ :: _ => true end.

(** The lines of a document made of blocks: an empty line between two
    blocks. *)
Fixpoint sep_blocks (blocks : list (list str)) : list str :=
  match blocks with
  | [] => []
  | [b] => b
  | b :: blocks' => b ++ [] :: sep_blocks blocks'
  end.

Definition no_break (l : str) : Prop :=
  forallb (fun a => negb (Py.is_linebreak a)) l = true.

(** The lines of a well-formed record, as a block. *)
Definition good_block (b : list str) : Prop :=
  ∃ h t x xs, b = h :: t :: x :: xs ∧
    Py.trimmed h ∧ no_break h ∧ is_int h = true ∧
    Forall (fun l => Py.trimmed l ∧ no_break l ∧ Py.int l = None)
           (t :: x :: xs).

(** The block the Translator parses from the lines of a good block. *)
Definition parsed_block (b : list str) : Translator.block :=
  {| Translator.id := default 0 (Py.int (default [] (head b)));
     Translator.content := Py.join [Py.LF] b;
     Translator.lines := b |}.

(** What the parsing loops do when a new block begins: the current
    block, if there is one, joins the blocks already read. *)
Definition flush (acc : list (list str)) (cur : list str) : list (list str) :=
  match cur with
  | [] => acc
  | _ :: _ => acc ++ [cur]
  end.

Definition flush_block (acc : list Translator.block) (cur : list str)
    (cid : option Z) : list Translator.block :=
  match cur, cid with
  | _ :: _, Some c =>
      acc ++ [{| Translator.id := c;
                 Translator.content := Py.join [Py.LF] cur;
                 Translator.lines := cur |}]
  | _, _ => acc
  end.

(** The round trip without the Splitter: groups of records, each with the
    identifier of its chunk, are rendered as chunks, translated by the
    identity provider without glossary and reassembled with
    [normalize_ids = False]. *)
Definition translate_group (key : option str)
    (engine_name source_lang target_lang : str) (group : Z * list record)
    : result Reassembler.translated_chunk :=
  r ← Translator.translate_chunk identity_provider identity_provider key
        (render_records (snd group)) source_lang target_lang None engine_name;
  Ok {| Reassembler.chunk_id := Some (fst group);
        Reassembler.translated_content :=
          Some (Translator.translated_content r) |}.

Definition reassemble_groups (key : option str)
    (engine_name source_lang target_lang : str)
    (groups : list (Z * list record)) : result Reassembler.reassembled :=
  translated_chunks ←
    mapM (translate_group key engine_name source_lang target_lang) groups;
  Ok (Reassembler.reassemble_srt translated_chunks false).

(** The translated chunk of a group of records that come back unchanged. *)
Definition chunk_of_group (g : Z * list record) : Reassembler.translated_chunk :=
  {| Reassembler.chunk_id := Some (fst g);
     Reassembler.translated_content := Some (render_records (snd g)) |}.

(** Three records in two chunks, the second chunk first. *)
Definition record_a : record :=
  {| rec_id := Py.s "1"; timing := Py.s "00:00:01,000 --> 00:00:04,000";
     text_lines := [Py.s "Hello world"] |}.

Definition record_b : record :=
  {| rec_id := Py.s "2"; timing := Py.s "00:00:05,000 --> 00:00:09,000";
     text_lines := [Py.s "This is"; Py.s "a test"] |}.

Definition record_c : record :=
  {| rec_id := Py.s "7"; timing := Py.s "00:00:10,000 --> 00:00:14,000";
     text_lines := [Py.s "- the end"] |}.

Definition example_groups : list (Z * list record) :=
  [(2, [record_c]); (1, [record_a; record_b])].

(** A valid document with a line of digits in the text of its subtitle. *)
Definition digits_doc : str := Py.s "1
00:00:01,000 --> 00:00:04,000
42
hello
".

(** The round trip law for one document and one chunk size, as the
    specification words it. *)
Definition round_trip_law (doc : str) (chunk_size : Z) : Prop :=
  ∀ finditer, ∃ out,
    round_trip finditer identity_provider doc chunk_size = Ok out ∧
    srt_blocks (Reassembler.content out) = srt_blocks doc.

(** A block as the parsers of the Translator and of the Reassembler read
    it back: a first line that reads as an integer, then lines that do
    not; every line as the parsers keep it. *)
Definition headed_block (b : list str) : Prop :=
  ∃ h tl, b = h :: tl ∧
    Py.trimmed h ∧ no_break h ∧ is_int h = true ∧
    Forall (fun l => Py.trimmed l ∧ no_break l ∧ Py.int l = None) tl.

(** A block of lines the Validator finds no fault with: a number, a
    timing line that [re.match] accepts, and at least one more line. *)
Definition block_valid (b : list str) : bool :=
  match b with
  | number :: time_line :: _ :: _ =>
      is_int (Py.strip number) && Re.match_ Validator.time_pattern time_line
  | _ => false
  end.

(** A record that renders to a block the Validator accepts. *)
Definition valid_record (r : record) : bool :=
  clean_line (rec_id r) && is_int (rec_id r)
  && clean_line (timing r) && Re.match_ Validator.time_pattern (timing r)
  && forallb clean_line (text_lines r)
  && match text_lines r with [] => false | _ :: _ => true end.

End Pipeline.

(** * Properties *)

(** ** Python strings *)

Section PyFacts.
Import Py.

Lemma lstrip_starts (x : str) : lstrip x = [] ∨ starts_clean (lstrip x) = true.
Proof.
  induction x as [|c x IH]; simpl; [by left|].
  destruct (is_space c) eqn:Hc; [done|]. right. simpl. by rewrite Hc.
Qed.

Lemma lstrip_clean (x : str) : starts_clean x = true → lstrip x = x.
Proof.
  destruct x as [|c x]; simpl; [done|].
  by destruct (is_space c).
Qed.

Lemma lstrip_app_nonspace (a b : str) (c : ascii) :
  is_space c = false → lstrip (a ++ c :: b) = lstrip a ++ c :: b.
Proof.
  intros Hc. induction a as [|d a IH]; simpl.
  - by rewrite Hc.
  - by destruct (is_space d).
Qed.

Lemma starts_clean_app (x y : str) :
  starts_clean x = true → starts_clean (x ++ y) = true.
Proof. by destruct x. Qed.

Lemma ends_clean_app (x y : str) :
  ends_clean y = true → ends_clean (x ++ y) = true.
Proof.
  unfold ends_clean. rewrite rev_app_distr. apply starts_clean_app.
Qed.

Lemma starts_clean_nonempty (x : str) : starts_clean x = true → x ≠ [].
Proof. by destruct x. Qed.

Lemma ends_clean_nonempty (x : str) : ends_clean x = true → x ≠ [].
Proof. unfold ends_clean. by destruct x. Qed.

Lemma rstrip_ends (x : str) : rstrip x = [] ∨ ends_clean (rstrip x) = true.
Proof.
  unfold rstrip, ends_clean. rewrite rev_involutive.
  destruct (lstrip_starts (rev x)) as [->|H]; [by left|by right].
Qed.

Lemma rstrip_clean (x : str) : ends_clean x = true → rstrip x = x.
Proof.
  unfold rstrip, ends_clean. intros H.
  rewrite lstrip_clean by done. apply rev_involutive.
Qed.

Lemma rstrip_starts (x : str) :
  starts_clean x = true → starts_clean (rstrip x) = true.
Proof.
  destruct x as [|c x]; [done|]. simpl. intros Hc.
  apply negb_true_iff in Hc. unfold rstrip. simpl.
  change (rev x ++ [c]) with (rev x ++ c :: []).
  rewrite lstrip_app_nonspace by done.
  rewrite rev_app_distr. simpl. by rewrite Hc.
Qed.

(** What [strip] returns is empty or trimmed. *)
Lemma strip_spec (x : str) : strip x = [] ∨ trimmed (strip x).
Proof.
  unfold strip, trimmed.
  destruct (lstrip_starts x) as [->|Hs]; [by left|].
  destruct (rstrip_ends (lstrip x)) as [->|He]; [by left|].
  right. split; [by apply rstrip_starts|done].
Qed.

Lemma strip_trimmed (x : str) : trimmed x → strip x = x.
Proof.
  intros [Hs He]. unfold strip. rewrite lstrip_clean by done.
  by apply rstrip_clean.
Qed.

Lemma strip_truthy (x : str) : truthy (strip x) = true → trimmed (strip x).
Proof. destruct (strip_spec x) as [->|H]; [done|by intros _]. Qed.

Lemma trimmed_truthy (x : str) : trimmed x → truthy x = true.
Proof. intros [Hs _]. by destruct x. Qed.

(** White space after a trimmed string is stripped. *)
Lemma strip_app_space (x w : str) :
  trimmed x → forallb is_space w = true → strip (x ++ w) = x.
Proof.
  intros [Hs He] Hw. unfold strip.
  rewrite lstrip_clean by by apply starts_clean_app.
  unfold rstrip. rewrite rev_app_distr.
  assert (Hl : ∀ v : str, forallb is_space v = true →
                 lstrip (rev v ++ rev x) = rev x).
  { intros v Hv. rewrite <- (rev_involutive v) in Hv.
    induction (rev v) as [|c u IH]; simpl.
    - by apply lstrip_clean.
    - simpl in Hv. rewrite forallb_app in Hv.
      apply andb_true_iff in Hv as [Hu Hc]. simpl in Hc.
      apply andb_true_iff in Hc as [Hc _]. rewrite Hc. by apply IH. }
  rewrite Hl by done. apply rev_involutive.
Qed.

Lemma join_cons (sep x : str) (xs : list str) :
  xs ≠ [] → join sep (x :: xs) = x ++ sep ++ join sep xs.
Proof. by destruct xs. Qed.

Lemma join_app (sep : str) (xs ys : list str) :
  xs ≠ [] → ys ≠ [] → join sep (xs ++ ys) = join sep xs ++ sep ++ join sep ys.
Proof.
  intros Hx Hy. induction xs as [|x xs IH]; [done|].
  destruct xs as [|x' xs].
  - simpl. by destruct ys.
  - change ((x :: x' :: xs) ++ ys) with (x :: (x' :: xs) ++ ys).
    rewrite join_cons by done. rewrite IH by done.
    rewrite (join_cons sep x (x' :: xs)) by done.
    by rewrite <- !app_assoc.
Qed.

Lemma join_starts (sep : str) (xs : list str) :
  (∃ x xs', xs = x :: xs' ∧ starts_clean x = true) →
  starts_clean (join sep xs) = true.
Proof.
  intros (x & xs' & -> & Hx). destruct xs' as [|y ys]; [done|].
  rewrite join_cons by done. by apply starts_clean_app.
Qed.

Lemma join_ends (sep : str) (xs : list str) :
  (∃ xs' x, xs = xs' ++ [x] ∧ ends_clean x = true) →
  ends_clean (join sep xs) = true.
Proof.
  intros (xs' & x & -> & Hx). destruct xs' as [|y ys]; [done|].
  rewrite join_app by done. simpl join at 2.
  rewrite app_assoc. by apply ends_clean_app.
Qed.

End PyFacts.

(** ** The Reassembler *)

Section ReassemblerFacts.
Import Reassembler.

Context {A : Type} (key : A → Z).

Lemma insert_by_perm (x : A) (xs : list A) : insert_by key x xs ≡ₚ x :: xs.
Proof.
  induction xs as [|y xs IH]; simpl; [done|].
  destruct (key x <=? key y); [done|].
  rewrite IH. apply Permutation_swap.
Qed.

Lemma sorted_perm (xs : list A) : sorted xs key ≡ₚ xs.
Proof.
  induction xs as [|x xs IH]; simpl; [done|].
  unfold sorted in *. simpl. rewrite insert_by_perm. by rewrite IH.
Qed.

#[local] Instance key_le_trans : Transitive (key_le key).
Proof. unfold key_le. intros x y z. lia. Qed.

Lemma insert_by_sorted (x : A) (xs : list A) :
  Sorted (key_le key) xs → Sorted (key_le key) (insert_by key x xs).
Proof.
  induction 1 as [|y xs Hs IH Hhd]; simpl.
  - repeat constructor.
  - destruct (Z.leb_spec (key x) (key y)) as [Hle|Hgt].
    + constructor; [by constructor|]. by constructor.
    + constructor; [done|].
      destruct Hhd as [|z xs Hyz]; simpl.
      * constructor. unfold key_le. lia.
      * destruct (Z.leb_spec (key x) (key z)); constructor;
          unfold key_le in *; lia.
Qed.

Lemma sorted_Sorted (xs : list A) : Sorted (key_le key) (sorted xs key).
Proof.
  induction xs as [|x xs IH]; [constructor|].
  apply insert_by_sorted, IH.
Qed.

(** With pairwise distinct keys the sorted list is the same for every
    arrangement of the input. *)
Lemma sorted_unique (xs ys : list A) :
  xs ≡ₚ ys → NoDup (map key xs) → sorted xs key = sorted ys key.
Proof.
  intros Hp Hnd.
  apply (Sorted_unique_strong (key_le key)); try apply sorted_Sorted.
  - intros x1 x2 H1 H2 Hle1 Hle2.
    assert (Hk : key x1 = key x2) by (unfold key_le in *; lia).
    rewrite sorted_perm in H1. rewrite sorted_perm, <- Hp in H2.
    clear Hle1 Hle2 Hp. induction xs as [|a xs IH]; [by inversion H1|].
    apply NoDup_cons in Hnd as [Hna Hnd].
    apply elem_of_cons in H1 as [->|H1]; apply elem_of_cons in H2 as [->|H2];
      try done.
    + exfalso. apply Hna. rewrite Hk. by apply list_elem_of_fmap_2.
    + exfalso. apply Hna. rewrite <- Hk. by apply list_elem_of_fmap_2.
    + by apply IH.
  - by rewrite !sorted_perm.
Qed.

End ReassemblerFacts.

Section ReassemblerParsing.
Import Reassembler.

Lemma parse_loop_concat lines : ∀ acc cur,
  let '(sb, cur') := parse_loop lines acc cur in
  concat sb ++ cur' =
  concat acc ++ cur ++ List.filter Py.truthy (map Py.strip lines).
Proof.
  induction lines as [|raw lines IH]; intros acc cur; simpl.
  - by rewrite app_nil_r.
  - destruct (Py.truthy (Py.strip raw)) eqn:Ht; simpl.
    + destruct (Py.int (Py.strip raw)) eqn:Hi.
      * specialize (IH (match cur with [] => acc | _ :: _ => acc ++ [cur] end)
                       [Py.strip raw]).
        destruct (parse_loop lines _ _) as [sb cur']. rewrite IH.
        destruct cur; simpl; [done|].
        rewrite concat_app. simpl. by rewrite app_nil_r, <- !app_assoc.
      * specialize (IH acc (cur ++ [Py.strip raw])).
        destruct (parse_loop lines _ _) as [sb cur']. rewrite IH.
        by rewrite <- !app_assoc.
    + apply IH.
Qed.

Lemma parse_loop_ok lines : ∀ acc cur,
  Forall block_ok acc → (cur = [] ∨ block_ok cur) →
  let '(sb, cur') := parse_loop lines acc cur in
  Forall block_ok sb ∧ (cur' = [] ∨ block_ok cur').
Proof.
  induction lines as [|raw lines IH]; intros acc cur Hacc Hcur; simpl.
  - done.
  - destruct (Py.truthy (Py.strip raw)) eqn:Ht; simpl; [|by apply IH].
    destruct (Py.int (Py.strip raw)) eqn:Hi.
    + apply IH.
      * destruct cur; [done|]. apply Forall_app. split; [done|].
        constructor; [|done]. by destruct Hcur.
      * right. split; [done|]. by constructor.
    + apply IH; [done|]. right. split.
      * by destruct cur.
      * destruct Hcur as [->|[Hne Htl]]; simpl; [by constructor|].
        destruct cur as [|h tl]; [done|]. simpl in *.
        apply Forall_app. split; [done|]. by repeat constructor.
Qed.

Lemma parse_chunk_concat (chunk : translated_chunk) :
  concat (parse_chunk chunk) = kept_lines (get_translated_content chunk).
Proof.
  unfold parse_chunk, kept_lines.
  pose proof (parse_loop_concat
                (Py.splitlines (get_translated_content chunk)) [] []) as H.
  destruct (parse_loop _ _ _) as [sb cur]. simpl in H. rewrite <- H.
  destruct cur; [by rewrite app_nil_r|].
  rewrite concat_app. simpl. by rewrite app_nil_r.
Qed.

Lemma parse_chunk_ok (chunk : translated_chunk) :
  Forall block_ok (parse_chunk chunk).
Proof.
  unfold parse_chunk.
  pose proof (parse_loop_ok
                (Py.splitlines (get_translated_content chunk)) [] []
                (Forall_nil_2 _) (or_introl eq_refl)) as H.
  destruct (parse_loop _ _ _) as [sb cur]. destruct H as [Hsb Hcur].
  destruct cur; [done|]. apply Forall_app. split; [done|].
  constructor; [|done]. by destruct Hcur.
Qed.

Lemma normalize_length (bs : list (list str)) :
  length (normalize bs) = length bs.
Proof. unfold normalize. by rewrite length_imap. Qed.

Lemma normalize_heads_from (bs : list (list str)) : ∀ j : nat,
  Forall (fun b => b ≠ []) bs →
  map head
    (imap (fun i subtitle =>
             match subtitle with
             | [] => []
             | _ :: ls => Py.of_nat (j + i + 1) :: ls
             end) bs) =
  map (fun i => Some (Py.of_nat i)) (seq (j + 1) (length bs)).
Proof.
  induction bs as [|b bs IH]; intros j Hne; [done|].
  apply Forall_cons in Hne as [Hb Hne].
  rewrite imap_cons. cbn [map length seq].
  destruct b as [|h tl]; [done|]. cbn [head]. f_equal.
  - by rewrite Nat.add_0_r.
  - change (S (j + 1)) with (S j + 1)%nat. rewrite <- (IH (S j) Hne).
    f_equal. apply imap_ext. intros i x _. cbn.
    by replace (j + S i + 1)%nat with (S (j + i + 1)) by lia.
Qed.

Lemma normalize_heads (bs : list (list str)) :
  Forall (fun b => b ≠ []) bs →
  map head (normalize bs) =
  map (fun i => Some (Py.of_nat i)) (seq 1 (length bs)).
Proof. intros Hne. apply (normalize_heads_from bs 0 Hne). Qed.

Lemma concat_parse_length (chunks : list translated_chunk) :
  length (concat (map parse_chunk chunks)) = total_records chunks.
Proof.
  unfold total_records. induction chunks as [|c chunks IH]; [done|].
  cbn. rewrite length_app, IH. done.
Qed.

Lemma total_records_perm (xs ys : list translated_chunk) :
  xs ≡ₚ ys → total_records xs = total_records ys.
Proof.
  unfold total_records. intros Hp. by rewrite Hp.
Qed.

Lemma all_subtitles_length chunks normalize_ids :
  length (all_subtitles_of chunks normalize_ids) = total_records chunks.
Proof.
  unfold all_subtitles_of.
  destruct normalize_ids; [rewrite normalize_length|];
    rewrite concat_parse_length; apply total_records_perm, sorted_perm.
Qed.

Lemma render_from (bs : list (list str)) : ∀ acc : str,
  Forall (fun b => b ≠ []) bs →
  foldl (fun content subtitle =>
           match subtitle with
           | [] => content
           | _ :: _ => content ++ Py.join [Py.LF] subtitle ++ [Py.LF; Py.LF]
           end) acc bs =
  acc ++ concat (map (fun b => Py.join [Py.LF] b ++ [Py.LF; Py.LF]) bs).
Proof.
  induction bs as [|b bs IH]; intros acc Hne; simpl.
  - by rewrite app_nil_r.
  - apply Forall_cons in Hne as [Hb Hne]. rewrite IH by done.
    destruct b; [done|]. by rewrite <- !app_assoc.
Qed.

Lemma concat_blocks_document (bs : list (list str)) :
  bs ≠ [] →
  concat (map (fun b => Py.join [Py.LF] b ++ [Py.LF; Py.LF]) bs) =
  document bs ++ [Py.LF; Py.LF].
Proof.
  unfold document. induction bs as [|b bs IH]; [done|]. intros _.
  destruct bs as [|b' bs]; [simpl; by rewrite app_nil_r|].
  cbn [map concat]. cbn [map concat] in IH. rewrite IH by done.
  rewrite (join_cons _ (Py.join [Py.LF] b)) by done.
  by rewrite <- !app_assoc.
Qed.

Lemma block_trimmed_join (b : list str) :
  block_trimmed b → Py.trimmed (Py.join [Py.LF] b).
Proof.
  intros [Hne Hall]. split.
  - apply join_starts. destruct b as [|x xs]; [done|].
    exists x, xs. split; [done|]. apply Forall_cons in Hall as [[Hx _] _]. done.
  - apply join_ends. destruct (exists_last Hne) as (xs & x & ->).
    exists xs, x. split; [done|].
    apply Forall_app in Hall as [_ Hx]. apply Forall_cons in Hx as [[_ Hx] _].
    done.
Qed.

Lemma document_trimmed (bs : list (list str)) :
  bs ≠ [] → Forall block_trimmed bs → Py.trimmed (document bs).
Proof.
  intros Hne Hall. unfold document. split.
  - apply join_starts. destruct bs as [|b bs']; [done|].
    exists (Py.join [Py.LF] b), (map (Py.join [Py.LF]) bs'). split; [done|].
    apply Forall_cons in Hall as [Hb _]. by apply block_trimmed_join.
  - apply join_ends. destruct (exists_last Hne) as (bs' & b & ->).
    exists (map (Py.join [Py.LF]) bs'), (Py.join [Py.LF] b).
    split; [by rewrite map_app|].
    apply Forall_app in Hall as [_ Hb]. apply Forall_cons in Hb as [Hb _].
    by apply block_trimmed_join.
Qed.

(** The content [reassemble_srt] returns for blocks of trimmed lines. *)
Lemma strip_render (bs : list (list str)) :
  Forall block_trimmed bs → Py.strip (render bs) = document bs.
Proof.
  intros Hall. unfold render. rewrite render_from.
  2:{ eapply Forall_impl; [exact Hall|]. by intros b [Hb _]. }
  destruct bs as [|b bs']; [reflexivity|].
  rewrite app_nil_l, concat_blocks_document by discriminate.
  apply strip_app_space; [|reflexivity].
  by apply document_trimmed.
Qed.

Lemma kept_lines_trimmed (doc : str) : Forall Py.trimmed (kept_lines doc).
Proof.
  unfold kept_lines. induction (Py.splitlines doc) as [|l ls IH]; simpl.
  - constructor.
  - destruct (Py.truthy (Py.strip l)) eqn:Ht; [|done].
    constructor; [by apply strip_truthy|done].
Qed.

Lemma parse_chunk_trimmed (chunk : translated_chunk) :
  Forall block_trimmed (parse_chunk chunk).
Proof.
  pose proof (kept_lines_trimmed (get_translated_content chunk)) as Hk.
  rewrite <- parse_chunk_concat in Hk.
  pose proof (parse_chunk_ok chunk) as Hok.
  induction (parse_chunk chunk) as [|b bs IH]; [constructor|].
  simpl in Hk. apply Forall_app in Hk as [Hb Hbs].
  apply Forall_cons in Hok as [[Hne _] Hok].
  constructor; [by split|by apply IH].
Qed.

Lemma digit_not_space (c : ascii) : Py.is_digit c = true → Py.is_space c = false.
Proof.
  unfold Py.is_digit, Py.is_space. intros H.
  apply andb_true_iff in H as [H1 H2].
  apply Nat.leb_le in H1. apply Nat.leb_le in H2.
  apply orb_false_iff. split; apply andb_false_iff.
  - right. apply Nat.leb_gt. lia.
  - right. apply Nat.leb_gt. lia.
Qed.

Lemma digits_trimmed (x : str) :
  x ≠ [] → Forall (fun c => Py.is_digit c = true) x → Py.trimmed x.
Proof.
  intros Hne Hall. split.
  - destruct x as [|c x]; [done|]. simpl.
    apply Forall_cons in Hall as [Hc _]. by rewrite digit_not_space.
  - unfold Py.ends_clean. destruct (exists_last Hne) as (y & c & ->).
    rewrite rev_app_distr. simpl.
    apply Forall_app in Hall as [_ Hc]. apply Forall_cons in Hc as [Hc _].
    by rewrite digit_not_space.
Qed.

Lemma string_of_uint_digits (d : Decimal.uint) :
  Forall (fun c => Py.is_digit c = true) (Py.s (NilEmpty.string_of_uint d)).
Proof. induction d; simpl; constructor; done. Qed.

Lemma of_nat_digits (n : nat) :
  Py.of_nat n ≠ [] ∧ Forall (fun c => Py.is_digit c = true) (Py.of_nat n).
Proof.
  unfold Py.of_nat, NilZero.string_of_uint.
  destruct (Nat.to_uint n) eqn:E;
    try (split; [done|]; rewrite <- E at 1; apply string_of_uint_digits).
  split; [done|]. by repeat constructor.
Qed.

Lemma of_nat_trimmed (n : nat) : Py.trimmed (Py.of_nat n).
Proof. apply digits_trimmed; apply of_nat_digits. Qed.

Lemma normalize_trimmed (bs : list (list str)) :
  Forall block_trimmed bs → Forall block_trimmed (normalize bs).
Proof.
  unfold normalize. intros Hall. apply Forall_lookup. intros i b Hb.
  rewrite list_lookup_imap in Hb.
  destruct (bs !! i) as [b0|] eqn:E; [|done]. simpl in Hb.
  pose proof (Forall_lookup_1 _ _ _ _ Hall E) as [Hne Hls].
  destruct b0 as [|h tl]; [done|]. injection Hb as <-.
  split; [done|]. apply Forall_cons in Hls as [_ Htl].
  constructor; [apply of_nat_trimmed|done].
Qed.

Lemma all_subtitles_trimmed chunks normalize_ids :
  Forall block_trimmed (all_subtitles_of chunks normalize_ids).
Proof.
  unfold all_subtitles_of.
  assert (H : Forall block_trimmed
                (concat (map parse_chunk (sorted chunks get_id)))).
  { apply Forall_concat, Forall_map, Forall_forall. intros c _.
    apply parse_chunk_trimmed. }
  destruct normalize_ids; [by apply normalize_trimmed|done].
Qed.

End ReassemblerParsing.


Section ReassemblerClaims.
Import Reassembler.

Lemma int_digits_uint (d : Decimal.uint) : ∀ (acc : nat) (b : bool),
  d ≠ Decimal.Nil ∨ b = true →
  Py.int_digits (Z.of_nat acc) b (Py.s (NilEmpty.string_of_uint d)) =
  Some (Z.of_nat (Nat.of_uint_acc d acc)).
Proof.
  induction d; intros acc b Hb; simpl;
    try (rewrite <- (IHd _ true) by (by right); f_equal;
         rewrite Nat.tail_mul_spec; unfold Py.digit_value; simpl; lia).
  destruct Hb as [?| ->]; done.
Qed.

(** [int(str(n)) == n] *)
Lemma int_of_nat (n : nat) : Py.int (Py.of_nat n) = Some (Z.of_nat n).
Proof.
  unfold Py.int. rewrite strip_trimmed by apply of_nat_trimmed.
  destruct (of_nat_digits n) as [Hne Hd].
  assert (Hint : Py.int_digits 0 false (Py.of_nat n) = Some (Z.of_nat n)).
  { unfold Py.of_nat, NilZero.string_of_uint.
    pose proof (DecimalNat.Unsigned.of_to n) as Hn. unfold Nat.of_uint in Hn.
    destruct (Nat.to_uint n) eqn:E;
      try (rewrite <- Hn; apply (int_digits_uint _ 0%nat false); by left).
    simpl in Hn. by subst n. }
  destruct (Py.of_nat n) as [|c r] eqn:E; [done|].
  apply Forall_cons in Hd as [Hc _].
  assert (Hp : Py.ascii_eqb c "+"%char = false).
  { unfold Py.ascii_eqb. apply Ascii.eqb_neq. by intros ->. }
  assert (Hm : Py.ascii_eqb c "-"%char = false).
  { unfold Py.ascii_eqb. apply Ascii.eqb_neq. by intros ->. }
  by rewrite Hp, Hm.
Qed.



Lemma block_ok_ints (b : list str) :
  block_ok b → (length (List.filter Pipeline.is_int b) ≤ 1)%nat.
Proof.
  intros [Hne Htl]. destruct b as [|h tl]; [done|]. simpl in *.
  assert (Hz : List.filter Pipeline.is_int tl = []).
  { induction tl as [|x tl IH]; [done|].
    apply Forall_cons in Htl as [Hx Htl]. simpl.
    unfold Pipeline.is_int at 1. rewrite Hx. by apply IH. }
  destruct (Pipeline.is_int h); simpl; rewrite Hz; simpl; lia.
Qed.

Lemma blocks_ints (bs : list (list str)) :
  Forall block_ok bs →
  (length (List.filter Pipeline.is_int (concat bs)) ≤ length bs)%nat.
Proof.
  induction 1 as [|b bs Hb Hbs IH]; [done|]. simpl.
  rewrite List.filter_app, length_app.
  pose proof (block_ok_ints b Hb). lia.
Qed.


End ReassemblerClaims.



(** ** The Translator *)

Section TranslatorClaims.
Import Translator.

Variable deepseek_api mistral_api : provider.
Variable DEEPSEEK_API_KEY : option str.
Variable source_lang target_lang : str.
Variable g : glossary.
Variable engine_name : str.

Abbreviation run := (translate_blocks deepseek_api mistral_api DEEPSEEK_API_KEY
                   source_lang target_lang g engine_name).

Lemma translate_blocks_spec (blocks : list block) :
  ∀ (tbs0 : list block) (ms0 : list glossary_match) (calls0 : list str),
    let '(calls, r) := run blocks tbs0 ms0 calls0 in
    (∃ extra, calls = calls0 ++ extra ∧
       extra `prefix_of` map text_of (List.filter translatable blocks) ∧
       (∀ out, r = Ok out →
          extra = map text_of (List.filter translatable blocks))) ∧
    (∀ tbs ms, r = Ok (tbs, ms) →
       ∃ out, tbs = tbs0 ++ out ∧ length out = length blocks ∧
         ∀ i b, blocks !! i = Some b → translatable b = false →
                out !! i = Some b).
Proof.
  induction blocks as [|b blocks IH]; intros tbs0 ms0 calls0.
  - simpl. split.
    + exists []. rewrite app_nil_r. split; [done|]. split; [apply prefix_nil|done].
    + intros tbs ms [= <- <-]. exists []. by rewrite app_nil_r.
  - cbn [translate_blocks]. unfold translatable at 1 2. cbn [List.filter].
    destruct (length (lines b) <? 3)%nat eqn:Hlen; cbn [negb].
    + specialize (IH (tbs0 ++ [b]) ms0 calls0).
      destruct (run blocks _ _ _) as [calls r]. destruct IH as [Hc Hr].
      split; [done|]. intros tbs ms Hok.
      destruct (Hr tbs ms Hok) as (out & -> & Hl & Hout).
      exists (b :: out). rewrite <- app_assoc.
      split; [done|]. split; [simpl; lia|].
      intros [|i] b' Hb' Hs; simpl in *; [congruence|by apply Hout].
    + destruct (dispatch _ _ _ _ _ _ _ _) as [translated_text|e].
      * match goal with
        | |- context [run blocks (tbs0 ++ [?tb]) ?ms ?cs] =>
            specialize (IH (tbs0 ++ [tb]) ms cs);
            destruct (run blocks (tbs0 ++ [tb]) ms cs) as [calls r];
            set (tblock := tb) in *
        end.
        destruct IH as [(extra & -> & Hp & Hfull) Hr]. split.
        -- exists (text_of b :: extra). rewrite <- app_assoc.
           split; [done|]. cbn [map]. split.
           ++ by apply prefix_cons.
           ++ intros out Hok. f_equal. by apply (Hfull out).
        -- intros tbs ms Hok.
           destruct (Hr tbs ms Hok) as (out & -> & Hl & Hout).
           exists (tblock :: out). rewrite <- app_assoc.
           split; [done|]. split; [simpl; lia|].
           intros [|i] b' Hb' Hs; simpl in *.
           ++ injection Hb' as <-. unfold translatable in Hs.
              rewrite Hlen in Hs. done.
           ++ by apply Hout.
      * split; [|done]. exists [text_of b]. split; [done|]. cbn [map]. split.
        -- apply prefix_cons, prefix_nil.
        -- done.
Qed.


End TranslatorClaims.


Section TranslatorExample.
Import Translator.

Lemma dispatch_same (api : provider) (key : option str)
    (e text src tgt : str) (gl : glossary) :
  dispatch api api key e text src tgt gl =
  (translated_text ← api text src tgt; Ok (apply_glossary gl text translated_text)).
Proof.
  unfold dispatch, _translate_with_deepseek, _translate_with_mistral.
  by repeat case_match.
Qed.

(** C8.  For the document with the one subtitle [Hello world], the
    glossary [Hello -> 你好, world -> 世界] and a provider that returns
    ["[en->zh] "] followed by its input, whatever the engine and the
    configured key, the translated text is [[en->zh] 你好 世界]: it
    contains both translations, each term replaced without regard to
    case, and there is exactly one match entry per term.  The same holds
    with the place-holder of the source, whose tag is ["[en -> zh] "]. *)
Theorem hello_world_glossary :
  (∀ (key : option str) (e : str),
     ∃ res,
       translate_chunk tagging_provider tagging_provider key hello_doc
         (Py.s "en") (Py.s "zh") hello_glossary e = Ok res ∧
       translated_content res = Py.s "1
00:00:01,000 --> 00:00:04,000
[en->zh] 你好 世界" ∧
       Py.contains (Py.s "你好") (translated_content res) = true ∧
       Py.contains (Py.s "世界") (translated_content res) = true ∧
       glossary_matches res =
         [ {| subtitle_id := Py.s "1"; term := Py.s "Hello";
              translation := Py.s "你好" |};
           {| subtitle_id := Py.s "1"; term := Py.s "world";
              translation := Py.s "世界" |} ]) ∧
  (∃ res,
     translate_chunk deepseek_stub mistral_stub (Some (Py.s "key")) hello_doc
       (Py.s "en") (Py.s "zh") hello_glossary (Py.s "deepseek") = Ok res ∧
     translated_content res = Py.s "1
00:00:01,000 --> 00:00:04,000
[en -> zh] 你好 世界" ∧
     length (glossary_matches res) = 2%nat).
Proof.
  split.
  - intros key e. unfold translate_chunk, translate_chunk_calls.
    replace (parse_blocks hello_doc) with
      [ {| id := 1;
           content := Py.s "1
00:00:01,000 --> 00:00:04,000
Hello world";
           lines := [Py.s "1"; Py.s "00:00:01,000 --> 00:00:04,000";
                     Py.s "Hello world"] |} ]
      by (vm_compute; reflexivity).
    cbn [translate_blocks lines length Nat.ltb Nat.leb].
    rewrite dispatch_same.
    eexists. split; [vm_compute; reflexivity|].
    cbn [translated_content glossary_matches].
    repeat split; vm_compute; reflexivity.
  - eexists. split; [vm_compute; reflexivity|].
    split; vm_compute; reflexivity.
Qed.

End TranslatorExample.

(** ** The Validator *)

Section RegexFacts.
Import Re.

Lemma match_app (x : str) : ∀ (r : regex) (y : str),
  match_ r x = true → match_ r (x ++ y) = true.
Proof.
  induction x as [|c x IH]; intros r y H; simpl in *.
  - rewrite orb_false_r in H. destruct y; simpl; by rewrite H.
  - destruct (nullable r); [done|]. simpl in *. by apply IH.
Qed.

Lemma fullmatch_match (x : str) : ∀ r : regex,
  fullmatch r x = true → match_ r x = true.
Proof.
  induction x as [|c x IH]; intros r H; simpl in *.
  - by rewrite H.
  - rewrite IH by done. apply orb_true_r.
Qed.

(** [re.match] finds a match exactly when a prefix matches in full. *)
Lemma match_prefix (x : str) : ∀ r : regex,
  match_ r x = true ↔ ∃ p q, x = p ++ q ∧ fullmatch r p = true.
Proof.
  induction x as [|c x IH]; intros r; simpl.
  - rewrite orb_false_r. split.
    + intros H. by exists [], [].
    + intros (p & q & Hpq & H). symmetry in Hpq.
      apply app_eq_nil in Hpq as [-> ->]. done.
  - split.
    + intros H. apply orb_true_iff in H as [H|H].
      * by exists [], (c :: x).
      * apply IH in H as (p & q & -> & H). by exists (c :: p), q.
    + intros (p & q & Hpq & H). destruct p as [|c' p]; simpl in *.
      * by rewrite H.
      * injection Hpq as <- ->. apply orb_true_iff. right.
        apply IH. by exists p, q.
Qed.

End RegexFacts.

Section ValidatorFacts.
Import Validator.

Lemma drop_cons_inv {A} (l : list A) (i : nat) (x : A) (r : list A) :
  drop i l = x :: r → l !! i = Some x ∧ drop (S i) l = r.
Proof.
  revert i. induction l as [|y l IH]; intros i H.
  - by rewrite drop_nil in H.
  - destruct i as [|i]; simpl in *; [by injection H as -> ->|by apply IH].
Qed.

Variable lines : list str.

Lemma skip_text_spec (rest : list str) : ∀ (i : nat) (b : bool) rest' i' b',
  drop i lines = rest → skip_text rest i b = (rest', i', b') →
  drop i' lines = rest' ∧ (i ≤ i')%nat ∧ (length rest' ≤ length rest)%nat.
Proof.
  induction rest as [|l rest IH]; intros i b rest' i' b' Hd H; simpl in H.
  - by injection H as <- <- <-.
  - destruct (Py.truthy (Py.strip l)).
    + apply drop_cons_inv in Hd as [_ Hd].
      destruct (IH _ _ _ _ _ Hd H) as (? & ? & ?). simpl.
      split; [done|]. split; lia.
    + by injection H as <- <- <-.
Qed.

Lemma skip_blank_spec (rest : list str) : ∀ (i : nat) rest' i',
  drop i lines = rest → skip_blank rest i = (rest', i') →
  drop i' lines = rest' ∧ (i ≤ i')%nat ∧ (length rest' ≤ length rest)%nat.
Proof.
  induction rest as [|l rest IH]; intros i rest' i' Hd H; simpl in H.
  - by injection H as <- <-.
  - destruct (negb (Py.truthy (Py.strip l))).
    + apply drop_cons_inv in Hd as [_ Hd].
      destruct (IH _ _ _ Hd H) as (? & ? & ?). simpl.
      split; [done|]. split; lia.
    + by injection H as <- <-.
Qed.

End ValidatorFacts.

Section ValidatorLoop.
Import Validator.

Lemma skip_text_length (rest : list str) : ∀ (i : nat) (b : bool) rest' i' b',
  skip_text rest i b = (rest', i', b') → (length rest' ≤ length rest)%nat.
Proof.
  induction rest as [|l rest IH]; intros i b rest' i' b' H; simpl in H.
  - by injection H as <- <- <-.
  - destruct (Py.truthy (Py.strip l)).
    + apply IH in H. simpl. lia.
    + by injection H as <- <- <-.
Qed.

Lemma skip_blank_length (rest : list str) : ∀ (i : nat) rest' i',
  skip_blank rest i = (rest', i') → (length rest' ≤ length rest)%nat.
Proof.
  induction rest as [|l rest IH]; intros i rest' i' H; simpl in H.
  - by injection H as <- <-.
  - destruct (negb (Py.truthy (Py.strip l))).
    + apply IH in H. simpl. lia.
    + by injection H as <- <-.
Qed.

(** The loop ends: a fuel above the number of lines left is enough. *)
Lemma validate_loop_total (fuel : nat) : ∀ rest i errors ids,
  (length rest < fuel)%nat → is_Some (validate_loop fuel rest i errors ids).
Proof.
  induction fuel as [|fuel IH]; intros rest i errors ids Hf; [lia|].
  cbn [validate_loop]. destruct rest as [|l rest1]; [done|]. simpl in Hf.
  destruct (Py.truthy (Py.strip l)) eqn:Ht; cbn [negb].
  2:{ apply IH. lia. }
  destruct (Py.int (Py.strip l)).
  - destruct rest1 as [|time_line rest2]; [done|].
    destruct rest2 as [|t rest2']; [done|].
    destruct (skip_text (t :: rest2') (S (S i)) false) as [[rest3 i3] ht] eqn:Hst.
    destruct (skip_blank rest3 i3) as [rest4 i4] eqn:Hsb.
    apply IH. apply skip_text_length in Hst. apply skip_blank_length in Hsb.
    simpl in *. lia.
  - cbn [skip_text]. rewrite Ht.
    destruct (skip_text rest1 (S i) true) as [[rest' i'] b] eqn:Hst.
    apply IH. apply skip_text_length in Hst. lia.
Qed.

Lemma validate_srt_ids_total (doc : str) : is_Some (validate_srt_ids doc).
Proof.
  unfold validate_srt_ids. destruct (negb (Py.truthy (Py.strip doc))); [done|].
  destruct (validate_loop_total (S (length (Py.splitlines doc)))
              (Py.splitlines doc) 0%nat [] []) as [[errors ids] ->]; [lia|].
  done.
Qed.

Variable lines : list str.

Lemma validate_loop_spec (fuel : nat) : ∀ rest i errors ids errors' ids',
  drop i lines = rest →
  validate_loop fuel rest i errors ids = Some (errors', ids') →
  ∃ new_errors new_ids,
    errors' = errors ++ new_errors ∧ ids' = ids ++ new_ids ∧
    (∀ j, j ∈ new_ids →
       (i ≤ j)%nat ∧
       ∃ l, lines !! j = Some l ∧ Pipeline.is_int (Py.strip l) = true) ∧
    (∀ n tl, timing_error n tl ∈ new_errors ↔
             ∃ j, j ∈ new_ids ∧ bad_timing lines j n tl).
Proof.
  induction fuel as [|fuel IH]; intros rest i errors ids errors' ids' Hd H;
    [done|].
  cbn [validate_loop] in H. destruct rest as [|l rest1].
  { injection H as <- <-. exists [], []. rewrite !app_nil_r.
    split; [done|]. split; [done|]. split.
    - intros j Hj. by apply elem_of_nil in Hj.
    - intros n tl. split.
      + intros Hx. by apply elem_of_nil in Hx.
      + intros (j & Hj & _). by apply elem_of_nil in Hj. }
  apply drop_cons_inv in Hd as [Hl Hd1].
  destruct (Py.truthy (Py.strip l)) eqn:Ht; cbn [negb] in H.
  2:{ destruct (IH _ _ _ _ _ _ Hd1 H) as (ne & ni & -> & -> & Hids & Herr).
      exists ne, ni. split; [done|]. split; [done|]. split; [|done].
      intros j Hj. destruct (Hids j Hj) as [Hle Hint]. split; [lia|done]. }
  destruct (Py.int (Py.strip l)) as [num|] eqn:Hint.
  - (* a subtitle number at index i *)
    assert (Hi : ∃ l0, lines !! i = Some l0 ∧
                       Pipeline.is_int (Py.strip l0) = true).
    { exists l. split; [done|]. unfold Pipeline.is_int. by rewrite Hint. }
    destruct rest1 as [|time_line rest2].
    { injection H as <- <-.
      exists [{| line := S i; error := MissingTiming |}], [i].
      split; [done|]. split; [done|]. split.
      - intros j Hj. apply list_elem_of_singleton in Hj as ->. done.
      - intros n tl. split.
        + intros Hx. apply list_elem_of_singleton in Hx. done.
        + intros (j & Hj & _ & Hlk & _).
          apply list_elem_of_singleton in Hj as ->.
          replace (i + 1)%nat with (S i) in Hlk by lia.
          apply lookup_lt_Some in Hlk.
          assert (length (drop (S i) lines) = 0%nat) by by rewrite Hd1.
          rewrite length_drop in *. lia. }
    apply drop_cons_inv in Hd1 as [Htl Hd2].
    set (errors1 :=
           if Re.match_ time_pattern time_line then errors
           else errors ++ [{| line := S i + 1;
                              error := InvalidTiming time_line |}]) in *.
    assert (He1 : ∃ e1, errors1 = errors ++ e1 ∧
              ∀ n tl, timing_error n tl ∈ e1 ↔ bad_timing lines i n tl).
    { unfold errors1, bad_timing.
      replace (i + 1)%nat with (S i) by lia. rewrite Htl.
      destruct (Re.match_ time_pattern time_line) eqn:Hm.
      - exists []. rewrite app_nil_r. split; [done|]. intros n tl. split.
        + intros Hx. by apply elem_of_nil in Hx.
        + intros (_ & [= <-] & Hf). congruence.
      - eexists. split; [done|]. intros n tl.
        rewrite list_elem_of_singleton. unfold timing_error. split.
        + intros [= -> ->]. split; [lia|done].
        + intros (-> & [= <-] & _). f_equal. lia. }
    destruct He1 as (e1 & He1 & Htim). clearbody errors1. subst errors1.
    destruct rest2 as [|t rest2'].
    { injection H as <- <-.
      exists (e1 ++ [{| line := S (S i); error := MissingText |}]), [i].
      rewrite <- app_assoc. split; [done|]. split; [done|]. split.
      - intros j Hj. apply list_elem_of_singleton in Hj as ->. done.
      - intros n tl. rewrite elem_of_app, list_elem_of_singleton, Htim.
        split.
        + intros [Hb|Hx]; [|done]. exists i. split; [|done].
          by apply list_elem_of_singleton.
        + intros (j & Hj & Hb). apply list_elem_of_singleton in Hj as ->.
          by left. }
    destruct (skip_text (t :: rest2') (S (S i)) false)
      as [[rest3 i3] has_text] eqn:Hst.
    destruct (skip_blank rest3 i3) as [rest4 i4] eqn:Hsb.
    destruct (skip_text_spec lines _ _ _ _ _ _ Hd2 Hst) as (Hd3 & Hi3 & _).
    destruct (skip_blank_spec lines _ _ _ _ Hd3 Hsb) as (Hd4 & Hi4 & _).
    set (e2 := if has_text then []
               else [{| line := i3; error := EmptyText |}]).
    assert (He2 : (if has_text then errors ++ e1
                   else (errors ++ e1) ++
                          [{| line := i3; error := EmptyText |}]) =
                  errors ++ e1 ++ e2).
    { unfold e2. destruct has_text; [by rewrite app_nil_r|].
      by rewrite <- app_assoc. }
    rewrite He2 in H.
    destruct (IH _ _ _ _ _ _ Hd4 H) as (ne & ni & -> & -> & Hids & Herr).
    exists (e1 ++ e2 ++ ne), (i :: ni). rewrite <- !app_assoc.
    split; [done|]. split; [done|]. split.
    + intros j Hj. apply elem_of_cons in Hj as [->|Hj]; [done|].
      destruct (Hids j Hj) as [Hle Hx]. split; [lia|done].
    + intros n tl. rewrite !elem_of_app, Htim, Herr. split.
      * intros [Hb|[Hx|(j & Hj & Hb)]].
        -- exists i. split; [apply elem_of_cons; by left|done].
        -- unfold e2 in Hx. destruct has_text.
           ++ by apply elem_of_nil in Hx.
           ++ by apply list_elem_of_singleton in Hx.
        -- exists j. split; [apply elem_of_cons; by right|done].
      * intros (j & Hj & Hb). apply elem_of_cons in Hj as [->|Hj].
        -- by left.
        -- right. right. by exists j.
  - (* not a number: resynchronise at the next blank line *)
    destruct (skip_text (l :: rest1) i false) as [[rest' i'] b] eqn:Hst.
    assert (Hd0 : drop i lines = l :: rest1).
    { rewrite <- Hd1. by apply drop_S. }
    destruct (skip_text_spec lines _ _ _ _ _ _ Hd0 Hst) as (Hd' & Hi' & _).
    destruct (IH _ _ _ _ _ _ Hd' H) as (ne & ni & -> & -> & Hids & Herr).
    exists ({| line := i + 1; error := InvalidNumber l |} :: ne), ni.
    rewrite <- app_assoc. split; [done|]. split; [done|]. split.
    + intros j Hj. destruct (Hids j Hj) as [Hle Hx]. split; [lia|done].
    + intros n tl. rewrite elem_of_cons, Herr. split.
      * intros [Hx|Hx]; [done|done].
      * intros Hx. by right.
Qed.

End ValidatorLoop.

Section ValidatorClaims.
Import Validator.



End ValidatorClaims.

(** ** Persistence *)

Section PersistenceClaims.
Import Persistence.

Lemma tmp_path_ne (task_id output_dir : str) :
  tmp_path_of task_id output_dir ≠ file_path_of task_id output_dir.
Proof.
  unfold tmp_path_of. intros H.
  apply (f_equal length) in H. rewrite length_app in H. simpl in H. lia.
Qed.

Lemma startswith_nil (x : str) : Py.startswith x [] = true.
Proof. by destruct x. Qed.

Lemma path_join_plain (a b : str) :
  Py.truthy a = true → Py.endswith a (Py.s "/") = false →
  Py.startswith b (Py.s "/") = false →
  path_join a b = a ++ Py.s "/" ++ b.
Proof. unfold path_join. by intros -> -> ->. Qed.

Ltac lookups :=
  repeat (rewrite lookup_insert_eq || rewrite lookup_delete_eq ||
          (rewrite lookup_insert_ne by done) ||
          (rewrite lookup_delete_ne by done)).

(** C9.  [save_srt_file] writes the content to the temporary path, the
    artifact path followed by [.tmp], and then renames it to the artifact
    path [os.path.join(output_dir, task_id + ".srt")], which is
    [output_dir/task_id.srt] for a directory without a final slash and a
    task identifier without a leading one.  When an operation inside the
    [try] fails, the error is raised again after the temporary file has
    been removed.  In every state the run goes through, the artifact path
    holds what it held before the call or the complete content. *)
Theorem save_is_atomic (f : fault) (doc task_id output_dir : str) (fs0 : files) :
  let file := file_path_of task_id output_dir in
  let tmp := tmp_path_of task_id output_dir in
  let rt := save_srt_file_trace f doc task_id output_dir fs0 in
  tmp = file ++ Py.s ".tmp" ∧
  (Py.truthy output_dir = true →
   Py.endswith output_dir (Py.s "/") = false →
   Py.startswith task_id (Py.s "/") = false →
   file = output_dir ++ Py.s "/" ++ task_id ++ Py.s ".srt") ∧
  (∀ fs, fs ∈ snd rt → fs !! file = fs0 !! file ∨ fs !! file = Some doc) ∧
  (f = NoFault →
   fst rt = Ok {| file_path := file; file_size := Py.size doc; error := None |} ∧
   ∃ fs1 fs2 fs3,
     snd rt = [fs3; fs2; fs1; fs0] ∧
     fs2 !! tmp = Some doc ∧ fs2 !! file = fs0 !! file ∧
     fs3 = <[file := doc]> (delete tmp fs2) ∧
     fs3 !! file = Some doc ∧ fs3 !! tmp = None) ∧
  (f ≠ NoFault →
   ∃ e, fst rt = Raise e ∧
     (f ≠ FailMakedirs →
      ∃ fs trace, snd rt = fs :: trace ∧ fs !! tmp = None)).
Proof.
  cbn zeta. pose proof (tmp_path_ne task_id output_dir) as Hne.
  assert (Hne' : file_path_of task_id output_dir ≠
                 tmp_path_of task_id output_dir) by done.
  split; [done|]. split.
  { intros Ha Hb Hc. unfold file_path_of. rewrite path_join_plain; try done.
    destruct task_id as [|c t]; [reflexivity|].
    change (Py.s "/") with ["/"%char] in *. cbn [app Py.startswith] in *.
    by rewrite startswith_nil in *. }
  unfold save_srt_file_trace, try_body.
  destruct f; cbn [fst snd]; lookups;
    try destruct (fs0 !! tmp_path_of task_id output_dir) eqn:E;
    cbn [fst snd].
  all: split;
    [ intros fs Hfs;
      repeat (apply elem_of_cons in Hfs as [->|Hfs]); lookups;
      try (by apply elem_of_nil in Hfs); auto
    | split; [intros Hf|intros Hf]; try done ].
  all: try (eexists; split; [done|]; intros Hm;
            first [ exfalso; by apply Hm
                  | eexists _, _; split; [done|]; by lookups ]).
  all: split; [done|]; eexists _, _, _; split; [done|]; by lookups.
Qed.

End PersistenceClaims.

Lemma save_is_atomic_witness :
  let rt :=
    Persistence.save_srt_file_trace (Persistence.FailWrite 3)
      (Py.s "1
00:00:01,000 --> 00:00:04,000
hello") (Py.s "job7") (Py.s "data/results") Persistence.old_files in
  Persistence.file_path_of (Py.s "job7") (Py.s "data/results") =
    Py.s "data/results/job7.srt" ∧
  (∃ e, fst rt = Raise e ∧
     ∃ fs trace, snd rt = fs :: trace ∧
       fs !! Persistence.tmp_path_of (Py.s "job7") (Py.s "data/results") = None) ∧
  Forall (fun fs => fs !! Py.s "data/results/job7.srt" = Some (Py.s "old content"))
    (snd rt).
Proof.
  cbn zeta.
  destruct (save_is_atomic (Persistence.FailWrite 3) (Py.s "1
00:00:01,000 --> 00:00:04,000
hello") (Py.s "job7") (Py.s "data/results") Persistence.old_files)
    as (_ & Hpath & _ & _ & Hfail).
  split; [apply Hpath; reflexivity|]. split.
  - destruct (Hfail ltac:(discriminate)) as (e & He & Htmp).
    exists e. split; [exact He|]. apply Htmp. discriminate.
  - repeat constructor.
Defined.

(** ** The Workflow *)

Section WorkflowFacts.
Import Workflow.

Lemma mapM_result_length {A B} (f : A → result B) (l : list A) :
  ∀ rs, mapM f l = Ok rs → length rs = length l.
Proof.
  induction l as [|x l IH]; intros rs H; simpl in H.
  - by injection H as <-.
  - destruct (f x) as [y|e]; [|done]. simpl in H.
    destruct (mapM f l) as [ys|e]; [|done]. simpl in H.
    injection H as <-. simpl. f_equal. by apply IH.
Qed.

Lemma collect_spec (rs : list Translator.translation_result) :
  ∀ (chunks : list Splitter.chunk) (i : nat)
    (acc : list Reassembler.translated_chunk) (w : world),
    length chunks = length rs →
    collect i chunks rs acc w =
    (acc ++ succeeded chunks rs,
     {| files := files w; log := log w ++ failure_records i rs;
        sent := sent w |}).
Proof.
  induction rs as [|r rs IH]; intros chunks i acc w Hl.
  - destruct chunks; simpl; rewrite !app_nil_r; by destruct w.
  - destruct chunks as [|c chunks]; [done|]. injection Hl as Hl.
    cbn [collect succeeded failure_records].
    destruct (Translator.error r) as [err|].
    + rewrite IH by done. unfold logger_error. cbn [files log sent].
      by rewrite <- app_assoc.
    + rewrite IH by done. by rewrite <- app_assoc.
Qed.

Lemma failure_records_elem (rs : list Translator.translation_result) :
  ∀ (i j : nat) r err,
    rs !! j = Some r → Translator.error r = Some err →
    (Py.s "块 " ++ Py.of_nat (i + j + 1) ++ Py.s " 翻译失败: " ++ err)
      ∈ failure_records i rs.
Proof.
  induction rs as [|r0 rs IH]; intros i j r err Hj He; [done|].
  destruct j as [|j]; simpl in Hj.
  - injection Hj as ->. cbn [failure_records]. rewrite He.
    rewrite Nat.add_0_r. apply elem_of_cons. by left.
  - cbn [failure_records].
    replace (i + S j + 1)%nat with (S i + j + 1)%nat by lia.
    destruct (Translator.error r0); [apply elem_of_cons; right|];
      by apply (IH (S i) j r err).
Qed.

(** Steps 4 to 8 with the Reassembler, the writer and the URL generator of
    the source, when no operation on the files fails. *)
Lemma finish_completes validate split translate expiry base tid
    (tcs : list Reassembler.translated_chunk) (w : world) :
  let self :=
    Pipeline.workflow_with validate split translate Persistence.NoFault
      expiry base in
  let out := finish self tid tcs w in
  status (fst out) = Py.s "completed" ∧
  result_subtitle_count (fst out) = Some (Reassembler.total_records tcs) ∧
  error (fst out) = None ∧ error_details (fst out) = None ∧
  log (snd out) = log w ∧
  (∃ n, sent (snd out) = sent w ++ [n] ∧
        Notification.status n = Py.s "completed") ∧
  files (snd out) !! Persistence.file_path_of tid (Py.s "data/results") =
    Some (Reassembler.content (Reassembler.reassemble_srt tcs true)).
Proof.
  cbn zeta. unfold finish, Pipeline.workflow_with.
  cbn [reassemble save_file generate_url SRTReassemblerAgent_reassemble
       reassembly_error content subtitle_count].
  unfold Persistence.SRTReassemblerAgent_save_file, Persistence.save_srt_file,
    Persistence.save_srt_file_trace, Persistence.try_body.
  cbn [head default from_option id Persistence.error Persistence.file_path
       Persistence.file_size set_files files fst snd].
  unfold Notification.generate_download_url. rewrite lookup_insert_eq.
  cbn [Notification.error Notification.download_url Notification.expiry_time
       fst snd status result_subtitle_count error error_details
       send_notification log sent files].
  split; [done|]. split.
  { f_equal. unfold Reassembler.reassemble_srt.
    cbn [Reassembler.subtitle_count]. apply all_subtitles_length. }
  split; [done|]. split; [done|]. split; [done|]. split.
  - eexists. split; [done|]. done.
  - unfold set_files. cbn [files]. apply lookup_insert_eq.
Qed.

End WorkflowFacts.

Section WorkflowClaims.
Import Workflow.


End WorkflowClaims.



(** ** The Splitter *)

Section SplitterFacts.
Import Splitter.

Lemma pattern_rejected : Re.compile pattern = Raise pattern_error.
Proof. vm_compute. reflexivity. Qed.

(** [re.compile] rejects the pattern of [split_srt]: the class escape [\s]
    cannot begin a range.  The call raises before the document is read. *)
Lemma split_srt_raises finditer (doc : str) (chunk_size : Z) :
  split_srt finditer doc chunk_size = Raise pattern_error.
Proof. unfold split_srt. by rewrite pattern_rejected. Qed.

Lemma concat_slices {A} (l : list A) (k : nat) (j : nat) :
  concat (map (fun i => slice l i (Nat.min (i + k) (length l)))
              (map (fun j => (j * k)%nat) (seq 0 j))) =
  take (j * k) l.
Proof.
  induction j as [|j IH]; [done|].
  rewrite seq_S, !map_app, concat_app, IH. cbn [map concat Nat.add].
  rewrite app_nil_r. unfold slice. rewrite take_take_drop.
  destruct (Nat.le_gt_cases (j * k + k) (length l)) as [Hle|Hgt].
  - rewrite Nat.min_l by done. f_equal. lia.
  - rewrite Nat.min_r by lia. rewrite !take_ge; [done|lia|lia].
Qed.

Lemma range_covers (n k : nat) :
  (0 < k)%nat → (n ≤ (n + k - 1) / k * k)%nat.
Proof.
  intros Hk. pose proof (Nat.div_mod_eq (n + k - 1) k) as Hd.
  pose proof (Nat.mod_upper_bound (n + k - 1) k ltac:(lia)). nia.
Qed.

Lemma range_inside (n k j : nat) :
  (0 < k)%nat → (j < (n + k - 1) / k)%nat → (j * k < n)%nat.
Proof.
  intros Hk Hj. pose proof (Nat.div_mod_eq (n + k - 1) k) as Hd. nia.
Qed.

(** The chunking loop cuts the blocks in consecutive groups: nothing is
    lost, nothing is repeated, no group is empty. *)
Lemma chunk_groups_concat (blocks : list block) (k : nat) :
  (0 < k)%nat → concat (chunk_groups blocks k) = blocks.
Proof.
  intros Hk. unfold chunk_groups, range_from_0. rewrite concat_slices.
  apply take_ge, range_covers, Hk.
Qed.

Lemma chunk_groups_nonempty (blocks : list block) (k : nat) :
  (0 < k)%nat → Forall (fun g => g ≠ []) (chunk_groups blocks k).
Proof.
  intros Hk. unfold chunk_groups, range_from_0.
  apply Forall_map, Forall_map, Forall_forall. intros j Hj.
  apply elem_of_seq in Hj as [_ Hj]. simpl in Hj.
  pose proof (range_inside (length blocks) k j Hk Hj) as Hin.
  unfold slice. intros Hnil. apply (f_equal length) in Hnil.
  rewrite length_take, length_drop in Hnil. simpl in Hnil. lia.
Qed.

Lemma chunk_groups_size (blocks : list block) (k : nat) :
  Forall (fun g => (length g ≤ k)%nat) (chunk_groups blocks k).
Proof.
  unfold chunk_groups. apply Forall_map, Forall_forall. intros i _.
  unfold slice. rewrite length_take. lia.
Qed.

Lemma make_chunks_ok (groups : list (list block)) : ∀ n : nat,
  Forall (fun g => g ≠ []) groups →
  ∃ cs, make_chunks n groups = Ok cs ∧ length cs = length groups.
Proof.
  induction groups as [|gr groups IH]; intros n Hne.
  - by exists [].
  - apply Forall_cons in Hne as [Hg Hne].
    destruct (IH (S n) Hne) as (cs & Hcs & Hl).
    cbn [make_chunks]. unfold make_chunk.
    destruct gr as [|b gr]; [done|].
    destruct (last (b :: gr)) as [final|] eqn:El.
    + cbn. rewrite Hcs. cbn. eexists. split; [done|]. simpl. by rewrite Hl.
    + by apply last_None in El.
Qed.

(** What the chunking part of [split_srt] does with the blocks it is
    given: for a positive chunk size it returns, the count it reports is
    the number of blocks, and the groups behind the chunks hold every
    block once, at most [chunk_size] each. *)
Lemma chunk_up_counts (blocks : list block) (chunk_size : Z) :
  0 < chunk_size →
  ∃ r, chunk_up blocks chunk_size = Ok r ∧
    total_subtitles r = length blocks ∧
    error r = None ∧
    length (chunks r) = length (chunk_groups blocks (Z.to_nat chunk_size)) ∧
    concat (chunk_groups blocks (Z.to_nat chunk_size)) = blocks ∧
    sum_list (map length (chunk_groups blocks (Z.to_nat chunk_size))) =
      length blocks.
Proof.
  intros Hk. unfold chunk_up.
  destruct (Z.eqb_spec chunk_size 0) as [->|_]; [lia|].
  destruct (Z.ltb_spec chunk_size 0) as [?|_]; [lia|].
  assert (Hk' : (0 < Z.to_nat chunk_size)%nat) by lia.
  destruct (make_chunks_ok (chunk_groups blocks (Z.to_nat chunk_size)) 0
              (chunk_groups_nonempty _ _ Hk')) as (cs & -> & Hl).
  cbn. eexists. split; [done|]. cbn.
  split; [done|]. split; [done|]. split; [done|].
  split; [by apply chunk_groups_concat|].
  rewrite <- (chunk_groups_concat blocks (Z.to_nat chunk_size)) at 2 by done.
  by rewrite length_concat.
Qed.

(** C4, on the code.  [split_srt] raises [re.error] for the document of
    its own tests with [chunk_size = 2], as for every document, and the
    agent answers with no chunk, a count of zero and an error; the tests
    expect three chunks and a count of five, which is what the chunking
    part gives on the blocks of the fallback parser. *)
Theorem split_srt_rejects_test_srt :
  (∀ finditer,
     split_srt finditer TEST_SRT 2 = Raise pattern_error ∧
     SRTSplitterAgent_split finditer TEST_SRT 2 =
       {| chunks := []; total_subtitles := 0;
          error := Some (Py.s "分块过程中发生错误: bad character range \s-> at position 16") |}) ∧
  ∃ r, chunk_up (parse_fallback TEST_SRT) 2 = Ok r ∧
       total_subtitles r = 5%nat ∧
       map chunk_range (chunks r) =
         [ {| range_start := 1; range_end := 2 |};
           {| range_start := 3; range_end := 4 |};
           {| range_start := 5; range_end := 5 |} ].
Proof.
  split.
  - intros finditer. unfold SRTSplitterAgent_split.
    rewrite split_srt_raises. split; [done|]. vm_compute. reflexivity.
  - eexists. split; [vm_compute; reflexivity|]. split; reflexivity.
Qed.

End SplitterFacts.

Section SourceWorkflow.
Import Workflow.

(** With the agents of the source a valid document gets no further than
    the Splitter: the run fails and writes no file. *)
Lemma source_workflow_fails_at_split finditer deepseek_api mistral_api key
    default_engine f expiry base default_size uuid
    (doc source_lang target_lang : str) (tid : option str)
    (g : Translator.glossary) (engine_name : option str)
    (chunk_size : option Z) (w : world) (r : Validator.validation_result) :
  let self :=
    Pipeline.translation_workflow finditer deepseek_api mistral_api key
      default_engine f expiry base in
  let out :=
    process self default_engine default_size uuid doc source_lang
      target_lang tid g engine_name chunk_size w in
  Validator.validate_srt doc = Some r → Validator.valid r = true →
  status (fst out) = Py.s "failed" ∧
  error (fst out) = Some (Py.s "SRT 文件分块失败") ∧
  files (snd out) = files w.
Proof.
  cbn zeta. intros Hv Hvalid. unfold process.
  cbn [Workflow.validate Workflow.split Pipeline.translation_workflow
       Pipeline.workflow_with].
  unfold Pipeline.SRTValidatorAgent_validate. rewrite Hv.
  cbn [default from_option id]. rewrite Hvalid. cbn [negb].
  unfold Splitter.SRTSplitterAgent_split. rewrite split_srt_raises.
  cbn [Splitter.error]. done.
Qed.

End SourceWorkflow.

(** ** The round trip *)

Section RoundTripFacts.
Import Pipeline.

Lemma splitlines_line (l : str) : ∀ rest : str,
  no_break l →
  Py.splitlines (l ++ Py.LF :: rest) = l :: Py.splitlines rest.
Proof.
  induction l as [|c l IH]; intros rest Hl.
  - simpl. by destruct rest.
  - unfold no_break in Hl. simpl in Hl.
    apply andb_true_iff in Hl as [Hc Hl]. apply negb_true_iff in Hc.
    cbn [app Py.splitlines]. rewrite Hc. by rewrite IH.
Qed.

Lemma splitlines_single (l : str) :
  no_break l → l ≠ [] → Py.splitlines l = [l].
Proof.
  induction l as [|c l IH]; intros Hl Hne; [done|].
  unfold no_break in Hl. simpl in Hl.
  apply andb_true_iff in Hl as [Hc Hl]. apply negb_true_iff in Hc.
  cbn [Py.splitlines]. rewrite Hc.
  destruct l as [|d l]; [done|]. by rewrite IH.
Qed.

(** [splitlines] undoes [join] on lines without a boundary inside, when
    the last line is not empty. *)
Lemma splitlines_join (ls : list str) :
  Forall no_break ls → (∀ l, last ls = Some l → l ≠ []) →
  Py.splitlines (Py.join [Py.LF] ls) = ls.
Proof.
  induction ls as [|x ls IH]; intros Hall Hlast; [done|].
  apply Forall_cons in Hall as [Hx Hall].
  destruct ls as [|y ls].
  - simpl. apply splitlines_single; [done|]. by apply Hlast.
  - rewrite join_cons by done. cbn [app].
    rewrite splitlines_line by done. f_equal. apply IH; [done|].
    intros l Hl. apply Hlast. by rewrite last_cons, Hl.
Qed.

Lemma sep_blocks_cons (b : list str) (bs : list (list str)) :
  bs ≠ [] → sep_blocks (b :: bs) = b ++ [] :: sep_blocks bs.
Proof. by destruct bs. Qed.

Lemma sep_blocks_nonempty (bs : list (list str)) :
  bs ≠ [] → Forall (fun b => b ≠ []) bs → sep_blocks bs ≠ [].
Proof.
  destruct bs as [|b bs]; [done|]. intros _ Hne.
  apply Forall_cons in Hne as [Hb _].
  destruct bs; simpl; [done|]. by destruct b.
Qed.

(** A document of blocks is its lines joined by line feeds. *)
Lemma document_lines (bs : list (list str)) :
  Forall (fun b => b ≠ []) bs →
  Reassembler.document bs = Py.join [Py.LF] (sep_blocks bs).
Proof.
  unfold Reassembler.document. induction bs as [|b bs IH]; intros Hne; [done|].
  apply Forall_cons in Hne as [Hb Hne].
  destruct bs as [|b' bs]; [done|].
  rewrite sep_blocks_cons by done.
  change (map (Py.join [Py.LF]) (b :: b' :: bs)) with
    (Py.join [Py.LF] b :: map (Py.join [Py.LF]) (b' :: bs)).
  rewrite join_cons by (intros H; discriminate H). rewrite (IH Hne).
  rewrite join_app; [|done|done].
  rewrite (join_cons _ []).
  2:{ apply sep_blocks_nonempty; [done|done]. }
  reflexivity.
Qed.

Lemma good_block_nonempty (b : list str) : good_block b → b ≠ [].
Proof. by intros (h & t & x & xs & -> & _). Qed.

Lemma good_block_lines (b : list str) :
  good_block b → Forall (fun l => Py.trimmed l ∧ no_break l) b.
Proof.
  intros (h & t & x & xs & -> & Hh & Hb & _ & Hall).
  constructor; [done|]. eapply Forall_impl; [exact Hall|].
  by intros l (? & ? & _).
Qed.

Lemma good_block_trimmed (b : list str) :
  good_block b → Reassembler.block_trimmed b.
Proof.
  intros Hg. split; [by apply good_block_nonempty|].
  eapply Forall_impl; [by apply good_block_lines|]. by intros l [? _].
Qed.

Lemma sep_blocks_no_break (bs : list (list str)) :
  Forall good_block bs → Forall no_break (sep_blocks bs).
Proof.
  induction bs as [|b bs IH]; intros Hall; [constructor|].
  apply Forall_cons in Hall as [Hb Hall].
  assert (Hbl : Forall no_break b).
  { eapply Forall_impl; [by apply good_block_lines|]. by intros l [_ ?]. }
  destruct bs as [|b' bs]; [done|].
  rewrite sep_blocks_cons by done. apply Forall_app. split; [done|].
  constructor; [done|]. by apply IH.
Qed.

Lemma sep_blocks_last (bs : list (list str)) :
  Forall good_block bs → ∀ l, last (sep_blocks bs) = Some l → l ≠ [].
Proof.
  induction bs as [|b bs IH]; intros Hall l Hl; [done|].
  apply Forall_cons in Hall as [Hb Hall].
  destruct bs as [|b' bs].
  - simpl in Hl. pose proof (good_block_lines b Hb) as Hls.
    destruct (exists_last (good_block_nonempty b Hb)) as (b0 & x & ->).
    rewrite last_snoc in Hl. injection Hl as <-.
    apply Forall_app in Hls as [_ Hx]. apply Forall_cons in Hx as [[Hx _] _].
    destruct Hx as [Hs _]. by destruct x.
  - rewrite sep_blocks_cons in Hl by done.
    rewrite last_app in Hl.
    assert (Hne : sep_blocks (b' :: bs) ≠ []).
    { apply sep_blocks_nonempty; [done|].
      eapply Forall_impl; [exact Hall|]. apply good_block_nonempty. }
    destruct (last ([] :: sep_blocks (b' :: bs))) as [l'|] eqn:El.
    + injection Hl as <-. rewrite last_cons in El.
      destruct (last (sep_blocks (b' :: bs))) as [l''|] eqn:El2.
      * injection El as <-. by apply (IH Hall).
      * by apply last_None in El2.
    + by apply last_None in El.
Qed.

(** The lines [splitlines] gives for a document of good blocks. *)
Lemma splitlines_document (bs : list (list str)) :
  Forall good_block bs →
  Py.splitlines (Reassembler.document bs) = sep_blocks bs.
Proof.
  intros Hall. rewrite document_lines.
  - apply splitlines_join; [by apply sep_blocks_no_break|].
    by apply sep_blocks_last.
  - eapply Forall_impl; [exact Hall|]. apply good_block_nonempty.
Qed.

End RoundTripFacts.

Section RoundTripParsing.
Import Pipeline.

Lemma trimmed_line (l : str) :
  Py.trimmed l → Py.strip l = l ∧ Py.truthy l = true.
Proof. intros H. split; [by apply strip_trimmed|by apply trimmed_truthy]. Qed.

Lemma is_int_Some (l : str) : is_int l = true → ∃ z, Py.int l = Some z.
Proof. unfold is_int. destruct (Py.int l) as [z|]; [by exists z|done]. Qed.

(** *** The Reassembler on a document of good blocks *)

Lemma reassembler_loop_app (l1 l2 : list str) : ∀ acc cur,
  Reassembler.parse_loop (l1 ++ l2) acc cur =
  Reassembler.parse_loop l2 (Reassembler.parse_loop l1 acc cur).1
    (Reassembler.parse_loop l1 acc cur).2.
Proof.
  induction l1 as [|raw l1 IH]; intros acc cur; [done|].
  cbn [app Reassembler.parse_loop].
  destruct (negb (Py.truthy (Py.strip raw))); [apply IH|].
  destruct (Py.int (Py.strip raw)); apply IH.
Qed.

Lemma reassembler_loop_tail (tl : list str) : ∀ acc cur,
  Forall (fun l => Py.trimmed l ∧ no_break l ∧ Py.int l = None) tl →
  Reassembler.parse_loop tl acc cur = (acc, cur ++ tl).
Proof.
  induction tl as [|l tl IH]; intros acc cur Hall.
  - by rewrite app_nil_r.
  - apply Forall_cons in Hall as [(Ht & _ & Hi) Hall].
    destruct (trimmed_line l Ht) as [Hs Htr].
    cbn [Reassembler.parse_loop]. rewrite Hs, Htr, Hi. cbn [negb].
    rewrite IH by done. by rewrite <- app_assoc.
Qed.

Lemma reassembler_loop_block (b : list str) (acc : list (list str))
    (cur : list str) :
  good_block b → Reassembler.parse_loop b acc cur = (flush acc cur, b).
Proof.
  intros (h & t & x & xs & -> & Hh & _ & Hi & Hall).
  destruct (trimmed_line h Hh) as [Hs Htr].
  destruct (is_int_Some h Hi) as [z Hz].
  generalize dependent (t :: x :: xs). intros tl Hall.
  cbn [Reassembler.parse_loop]. rewrite Hs, Htr, Hz. cbn [negb].
  rewrite reassembler_loop_tail by done. by destruct cur.
Qed.

Lemma reassembler_loop_blocks (bs0 : list (list str)) :
  ∀ (b : list str) (acc : list (list str)) (cur : list str),
    Forall good_block (bs0 ++ [b]) →
    Reassembler.parse_loop (sep_blocks (bs0 ++ [b])) acc cur =
    (flush acc cur ++ bs0, b).
Proof.
  induction bs0 as [|b0 bs0 IH]; intros b acc cur Hall.
  - cbn [app sep_blocks]. rewrite app_nil_r.
    apply reassembler_loop_block. by apply Forall_cons in Hall as [? _].
  - cbn [app] in *. apply Forall_cons in Hall as [Hb0 Hall].
    rewrite sep_blocks_cons by by destruct bs0.
    rewrite reassembler_loop_app, (reassembler_loop_block b0) by done.
    cbn [fst snd Reassembler.parse_loop].
    change (Py.strip []) with (@nil ascii). cbn [Py.truthy negb].
    rewrite IH by done. unfold flush at 1.
    destruct b0 as [|l0 b0]; [by apply good_block_nonempty in Hb0|].
    by rewrite <- app_assoc.
Qed.

Lemma reassembler_parse_document (cid : option Z) (bs : list (list str)) :
  Forall good_block bs →
  Reassembler.parse_chunk
    {| Reassembler.chunk_id := cid;
       Reassembler.translated_content := Some (Reassembler.document bs) |} =
  bs.
Proof.
  intros Hall. unfold Reassembler.parse_chunk,
    Reassembler.get_translated_content.
  cbn [Reassembler.translated_content default from_option id].
  rewrite splitlines_document by done.
  destruct bs as [|b bs] using rev_ind; [done|].
  rewrite reassembler_loop_blocks by done. cbn [flush app].
  apply Forall_app in Hall as [_ Hb]. apply Forall_cons in Hb as [Hb _].
  destruct b; [by apply good_block_nonempty in Hb|done].
Qed.

(** *** The Translator on a document of good blocks *)

Lemma translator_loop_app (l1 l2 : list str) : ∀ acc cur cid,
  Translator.parse_loop (l1 ++ l2) acc cur cid =
  Translator.parse_loop l2
    (Translator.parse_loop l1 acc cur cid).1.1
    (Translator.parse_loop l1 acc cur cid).1.2
    (Translator.parse_loop l1 acc cur cid).2.
Proof.
  induction l1 as [|raw l1 IH]; intros acc cur cid; [done|].
  cbn [app Translator.parse_loop].
  destruct (negb (Py.truthy (Py.strip raw))); [apply IH|].
  destruct (Py.int (Py.strip raw)); [apply IH|].
  destruct cur; apply IH.
Qed.

Lemma translator_loop_tail (tl : list str) : ∀ acc c cur cid,
  Forall (fun l => Py.trimmed l ∧ no_break l ∧ Py.int l = None) tl →
  Translator.parse_loop tl acc (c :: cur) cid = (acc, (c :: cur) ++ tl, cid).
Proof.
  induction tl as [|l tl IH]; intros acc c cur cid Hall.
  - by rewrite app_nil_r.
  - apply Forall_cons in Hall as [(Ht & _ & Hi) Hall].
    destruct (trimmed_line l Ht) as [Hs Htr].
    cbn [Translator.parse_loop]. rewrite Hs, Htr, Hi. cbn [negb app].
    rewrite IH by done. cbn [app]. by rewrite <- app_assoc.
Qed.

Lemma translator_loop_block (b : list str) (acc : list Translator.block)
    (cur : list str) (cid : option Z) :
  good_block b →
  Translator.parse_loop b acc cur cid =
  (flush_block acc cur cid, b, Some (Translator.id (parsed_block b))).
Proof.
  intros (h & t & x & xs & -> & Hh & _ & Hi & Hall).
  destruct (trimmed_line h Hh) as [Hs Htr].
  destruct (is_int_Some h Hi) as [z Hz].
  generalize dependent (t :: x :: xs). intros tl Hall.
  cbn [Translator.parse_loop]. rewrite Hs, Htr, Hz. cbn [negb].
  rewrite translator_loop_tail by done.
  unfold parsed_block. cbn [head default from_option id Translator.id].
  rewrite Hz. cbn [default from_option id]. by destruct cur, cid.
Qed.

Lemma translator_loop_blocks (bs0 : list (list str)) :
  ∀ (b : list str) (acc : list Translator.block) (cur : list str)
    (cid : option Z),
    Forall good_block (bs0 ++ [b]) →
    Translator.parse_loop (sep_blocks (bs0 ++ [b])) acc cur cid =
    (flush_block acc cur cid ++ map parsed_block bs0, b,
     Some (Translator.id (parsed_block b))).
Proof.
  induction bs0 as [|b0 bs0 IH]; intros b acc cur cid Hall.
  - cbn [app sep_blocks map]. rewrite app_nil_r.
    apply translator_loop_block. by apply Forall_cons in Hall as [? _].
  - cbn [app] in *. apply Forall_cons in Hall as [Hb0 Hall].
    rewrite sep_blocks_cons by by destruct bs0.
    rewrite translator_loop_app, (translator_loop_block b0) by done.
    cbn [fst snd Translator.parse_loop].
    change (Py.strip []) with (@nil ascii). cbn [Py.truthy negb].
    rewrite IH by done. unfold flush_block at 1.
    destruct b0 as [|l0 b0]; [by apply good_block_nonempty in Hb0|].
    cbn [map]. by rewrite <- app_assoc.
Qed.

Lemma translator_parse_document (bs : list (list str)) :
  Forall good_block bs →
  Translator.parse_blocks (Reassembler.document bs) = map parsed_block bs.
Proof.
  intros Hall. unfold Translator.parse_blocks.
  rewrite splitlines_document by done.
  destruct bs as [|b bs] using rev_ind; [done|].
  rewrite translator_loop_blocks by done. cbn [flush_block app].
  apply Forall_app in Hall as [_ Hb]. apply Forall_cons in Hb as [Hb _].
  rewrite map_app. cbn [map].
  destruct b; [by apply good_block_nonempty in Hb|done].
Qed.

End RoundTripParsing.

Section RoundTripClaims.
Import Pipeline.

Variable key : option str.
Variable engine_name source_lang target_lang : str.

(** The identity provider without glossary hands every block back. *)
Lemma translate_identity_blocks (bs : list (list str)) :
  Forall good_block bs →
  ∀ tbs0 ms0 calls0, ∃ tbs calls,
    Translator.translate_blocks identity_provider identity_provider key
      source_lang target_lang None engine_name (map parsed_block bs)
      tbs0 ms0 calls0 = (calls, Ok (tbs0 ++ tbs, ms0)) ∧
    map Translator.content tbs = map (Py.join [Py.LF]) bs.
Proof.
  induction bs as [|b bs IH]; intros Hall tbs0 ms0 calls0.
  - exists [], calls0. by rewrite app_nil_r.
  - apply Forall_cons in Hall as [Hb Hall].
    destruct Hb as (h & t & x & xs & -> & _).
    cbn [map Translator.translate_blocks parsed_block Translator.lines
         length Nat.ltb Nat.leb nth drop].
    rewrite dispatch_same. unfold identity_provider at 1.
    cbn [mbind result_bind Translator.apply_glossary
         Translator.glossary_items default from_option foldl
         Translator.matches_of omap list_omap].
    rewrite app_nil_r.
    match goal with
    | |- context [Translator.translate_blocks _ _ _ _ _ _ _ _
                    (tbs0 ++ [?tb]) ?ms ?cs] =>
        destruct (IH Hall (tbs0 ++ [tb]) ms cs) as (tbs & calls & -> & Hc);
        exists (tb :: tbs), calls
    end.
    rewrite <- app_assoc. split; [done|].
    cbn [map Translator.content]. rewrite Hc. f_equal.
Qed.

Lemma translate_identity_document (bs : list (list str)) :
  Forall good_block bs →
  ∃ r, Translator.translate_chunk identity_provider identity_provider key
         (Reassembler.document bs) source_lang target_lang None engine_name
       = Ok r ∧
       Translator.translated_content r = Reassembler.document bs.
Proof.
  intros Hall. unfold Translator.translate_chunk,
    Translator.translate_chunk_calls.
  rewrite translator_parse_document by done.
  destruct (translate_identity_blocks bs Hall [] [] [])
    as (tbs & calls & -> & Hc).
  cbn. eexists. split; [done|]. cbn. by rewrite Hc.
Qed.

Lemma clean_line_spec (l : str) :
  clean_line l = true → Py.trimmed l ∧ no_break l.
Proof.
  unfold clean_line, Py.trimmed, Py.ends_clean, no_break.
  destruct l as [|c l]; [done|]. destruct (rev (c :: l)) as [|d r]; [done|].
  cbn [Py.starts_clean]. intros H.
  apply andb_true_iff in H as [H Hb]. apply andb_true_iff in H as [Hc Hd].
  done.
Qed.

Lemma wf_record_good (r : record) :
  wf_record r = true → good_block (record_lines r).
Proof.
  unfold wf_record, record_lines. rewrite !andb_true_iff.
  intros [[[[[Ha Hb] Hc] Hd] He] Hf].
  destruct (text_lines r) as [|x xs] eqn:Et; [done|].
  destruct (clean_line_spec _ Ha) as [Hh Hhb].
  destruct (clean_line_spec _ Hc) as [Ht Htb].
  exists (rec_id r), (timing r), x, xs. split; [done|].
  split; [done|]. split; [done|]. split; [done|].
  constructor.
  - split; [done|]. split; [done|].
    apply negb_true_iff in Hd. unfold is_int in Hd.
    by destruct (Py.int (timing r)).
  - apply Forall_forall. intros l Hl.
    rewrite forallb_forall in He.
    specialize (He l ltac:(by apply list_elem_of_In)).
    apply andb_true_iff in He as [Hcl Hni].
    destruct (clean_line_spec _ Hcl) as [? ?]. split; [done|]. split; [done|].
    apply negb_true_iff in Hni. unfold is_int in Hni.
    by destruct (Py.int l).
Qed.

Lemma render_records_document (rs : list record) :
  render_records rs = Reassembler.document (map record_lines rs).
Proof.
  unfold render_records, Reassembler.document, render_record.
  by rewrite map_map.
Qed.

Lemma records_good (rs : list record) :
  Forall (fun r => wf_record r = true) rs →
  Forall good_block (map record_lines rs).
Proof.
  intros H. apply Forall_map. eapply Forall_impl; [exact H|].
  apply wf_record_good.
Qed.

Lemma translate_group_ok (g : Z * list record) :
  Forall (fun r => wf_record r = true) (snd g) →
  translate_group key engine_name source_lang target_lang g =
  Ok (chunk_of_group g).
Proof.
  intros Hg. unfold translate_group. rewrite render_records_document.
  destruct (translate_identity_document _ (records_good _ Hg))
    as (r & -> & Hr).
  cbn [mbind result_bind]. rewrite Hr.
  unfold chunk_of_group. by rewrite render_records_document.
Qed.

Lemma translate_groups (groups : list (Z * list record)) :
  Forall (fun g => Forall (fun r => wf_record r = true) (snd g)) groups →
  mapM (translate_group key engine_name source_lang target_lang) groups =
  Ok (map chunk_of_group groups).
Proof.
  induction groups as [|g groups IH]; intros Hall; [done|].
  apply Forall_cons in Hall as [Hg Hall].
  cbn [mapM]. rewrite (translate_group_ok g Hg), (IH Hall). done.
Qed.

Lemma insert_by_map {A B} (f : A → B) (k : B → Z) (x : A) (l : list A) :
  Reassembler.insert_by k (f x) (map f l) =
  map f (Reassembler.insert_by (fun a => k (f a)) x l).
Proof.
  induction l as [|y l IH]; [done|]. cbn [map Reassembler.insert_by].
  destruct (k (f x) <=? k (f y)); [done|]. cbn [map]. by rewrite IH.
Qed.

Lemma sorted_map {A B} (f : A → B) (k : B → Z) (l : list A) :
  Reassembler.sorted (map f l) k =
  map f (Reassembler.sorted l (fun a => k (f a))).
Proof.
  unfold Reassembler.sorted. induction l as [|x l IH]; [done|].
  cbn [map foldr]. by rewrite IH, insert_by_map.
Qed.

Lemma parse_groups (groups : list (Z * list record)) :
  Forall (fun g => Forall (fun r => wf_record r = true) (snd g)) groups →
  concat (map Reassembler.parse_chunk (map chunk_of_group groups)) =
  map record_lines (concat (map snd groups)).
Proof.
  induction groups as [|g groups IH]; intros Hall; [done|].
  apply Forall_cons in Hall as [Hg Hall].
  cbn [map concat]. rewrite map_app, (IH Hall). f_equal.
  unfold chunk_of_group. rewrite render_records_document.
  apply reassembler_parse_document. by apply records_good.
Qed.

End RoundTripClaims.

Section RoundTripTheorem.
Import Pipeline.

Lemma concat_snd_length (xs ys : list (Z * list record)) :
  xs ≡ₚ ys →
  length (concat (map snd xs)) = length (concat (map snd ys)).
Proof.
  intros Hp. induction Hp as [|x xs ys Hp IH|x y xs|xs ys zs _ IH1 _ IH2];
    cbn [map concat]; rewrite ?length_app; lia.
Qed.


End RoundTripTheorem.



(** ** More on the files *)

Section PersistenceExtras.
Import Persistence.

Ltac map_lookups :=
  repeat (rewrite lookup_insert_eq || rewrite lookup_delete_eq ||
          (rewrite lookup_insert_ne by done) ||
          (rewrite lookup_delete_ne by done)).

(** The result and the files [save_srt_file] ends with, fault by fault. *)
Lemma save_srt_file_cases (f : fault) (doc task_id output_dir : str)
    (fs0 : files) :
  let file := file_path_of task_id output_dir in
  let tmp := tmp_path_of task_id output_dir in
  save_srt_file f doc task_id output_dir fs0 =
  match f with
  | NoFault =>
      (Ok {| file_path := file; file_size := Py.size doc; error := None |},
       <[file := doc]> (delete tmp fs0))
  | FailMakedirs => (Raise (OSError (Py.s "makedirs")), fs0)
  | FailOpen => (Raise (OSError (Py.s "open")), delete tmp fs0)
  | FailWrite _ => (Raise (OSError (Py.s "write")), delete tmp fs0)
  | FailRename => (Raise (OSError (Py.s "rename")), delete tmp fs0)
  | FailGetsize =>
      (Raise (OSError (Py.s "getsize")), <[file := doc]> (delete tmp fs0))
  end.
Proof.
  cbn zeta. pose proof (tmp_path_ne task_id output_dir) as Hne.
  assert (Hne' : file_path_of task_id output_dir ≠
                 tmp_path_of task_id output_dir) by done.
  unfold save_srt_file, save_srt_file_trace.
  destruct f; cbn [try_body].
  - cbn. by rewrite !delete_insert_eq.
  - done.
  - destruct (fs0 !! tmp_path_of task_id output_dir) eqn:E; cbn; [done|].
    by rewrite delete_id.
  - rewrite lookup_insert_eq. cbn. by rewrite !delete_insert_eq.
  - rewrite lookup_insert_eq. cbn. by rewrite !delete_insert_eq.
  - rewrite lookup_insert_ne, lookup_delete_eq by done. cbn.
    by rewrite !delete_insert_eq.
Qed.

(** X15.  [save_srt_file] leaves every other file alone: in every state the
    call goes through, whatever fails, a path that is neither the
    artifact path nor the temporary path of the task holds what it held
    before. *)
Theorem save_touches_two_paths (f : fault) (doc task_id output_dir : str)
    (fs0 fs : files) (p : str) :
  fs ∈ snd (save_srt_file_trace f doc task_id output_dir fs0) →
  p ≠ file_path_of task_id output_dir →
  p ≠ tmp_path_of task_id output_dir →
  fs !! p = fs0 !! p.
Proof.
  intros Hfs Hp Ht.
  assert (Hp' : file_path_of task_id output_dir ≠ p) by done.
  assert (Ht' : tmp_path_of task_id output_dir ≠ p) by done.
  pose proof (tmp_path_ne task_id output_dir) as Hne.
  assert (Hne' : file_path_of task_id output_dir ≠
                 tmp_path_of task_id output_dir) by done.
  revert Hfs. unfold save_srt_file_trace, try_body.
  destruct f; cbn [fst snd]; map_lookups;
    try destruct (fs0 !! tmp_path_of task_id output_dir) eqn:E;
    cbn [fst snd]; intros Hfs;
    repeat (apply elem_of_cons in Hfs as [->|Hfs]); map_lookups;
    try (by apply elem_of_nil in Hfs); done.
Qed.

(** X16.  What [SRTReassemblerAgent.save_file] reports, in the default
    directory.  It never raises.  Its result has no error exactly when no
    operation failed; then it names the artifact path and the size of the
    content, the artifact holds the content and no temporary file is
    left.  After a failure the result has an empty path, size 0 and an
    error message built from the exception.  When only [os.path.getsize]
    failed, the artifact holds the new content all the same; after any
    other failure the artifact path holds what it held before, and when
    the directory could not be made nothing changed at all. *)
Theorem save_file_reports (f : fault) (doc task_id : str) (fs0 : files) :
  let file := file_path_of task_id (Py.s "data/results") in
  let tmp := tmp_path_of task_id (Py.s "data/results") in
  let out := SRTReassemblerAgent_save_file f doc task_id fs0 in
  (error out.1 = None ↔ f = NoFault) ∧
  (f = NoFault →
   out.1 = {| file_path := file; file_size := Py.size doc; error := None |} ∧
   out.2 !! file = Some doc ∧ out.2 !! tmp = None) ∧
  (f ≠ NoFault →
   file_path out.1 = [] ∧ file_size out.1 = 0%nat ∧
   ∃ e, error out.1 = Some (Py.s "保存文件过程中发生错误: " ++ exn_str e)) ∧
  (f = FailGetsize → out.2 !! file = Some doc ∧ out.2 !! tmp = None) ∧
  (f ≠ NoFault → f ≠ FailGetsize → out.2 !! file = fs0 !! file) ∧
  (f = FailMakedirs → out.2 = fs0).
Proof.
  cbn zeta. pose proof (tmp_path_ne task_id (Py.s "data/results")) as Hne.
  assert (Hne' : file_path_of task_id (Py.s "data/results") ≠
                 tmp_path_of task_id (Py.s "data/results")) by done.
  unfold SRTReassemblerAgent_save_file.
  pose proof (save_srt_file_cases f doc task_id (Py.s "data/results") fs0)
    as Hc. cbn zeta in Hc. rewrite Hc. clear Hc.
  set (file := file_path_of task_id (Py.s "data/results")) in *.
  set (tmp := tmp_path_of task_id (Py.s "data/results")) in *.
  destruct f; cbn [fst snd error file_path file_size].
  all: split; [split; intros H; first [done|discriminate H]|].
  all: split;
    [intros H; first [discriminate H|split; [done|]; by map_lookups]|].
  all: split;
    [intros H; first [by destruct H|split; [done|]; split; [done|]; by eexists]|].
  all: split; [intros H; first [discriminate H|by map_lookups]|].
  all: split;
    [intros H1 H2; first [by destruct H1|by destruct H2|by map_lookups]|].
  all: intros H; first [discriminate H|done].
Qed.

End PersistenceExtras.

Section PersistenceExtras2.
Import Persistence.

Ltac map_lookups :=
  repeat (rewrite lookup_insert_eq || rewrite lookup_delete_eq ||
          (rewrite lookup_insert_ne by done) ||
          (rewrite lookup_delete_ne by done)).

(** X17.  A save that succeeds wipes out what earlier saves of the same
    task left behind: after any first call, failed or not, with any
    content, a successful [save_srt_file] returns the same result and
    leaves the same files as it would have without the first call. *)
Theorem save_replaces_earlier_attempts (f : fault)
    (doc doc' task_id output_dir : str) (fs0 : files) :
  let first := save_srt_file f doc' task_id output_dir fs0 in
  save_srt_file NoFault doc task_id output_dir first.2 =
  save_srt_file NoFault doc task_id output_dir fs0.
Proof.
  cbn zeta. pose proof (tmp_path_ne task_id output_dir) as Hne.
  assert (Hne' : file_path_of task_id output_dir ≠
                 tmp_path_of task_id output_dir) by done.
  set (mid := (save_srt_file f doc' task_id output_dir fs0).2).
  unfold save_srt_file, save_srt_file_trace.
  cbn [try_body head default]. unfold id. f_equal.
  apply map_eq. intros p.
  destruct (decide (p = file_path_of task_id output_dir)) as [->|Hp];
    [by map_lookups|].
  destruct (decide (p = tmp_path_of task_id output_dir)) as [->|Ht];
    [by map_lookups|].
  assert (Hp' : file_path_of task_id output_dir ≠ p) by done.
  assert (Ht' : tmp_path_of task_id output_dir ≠ p) by done.
  map_lookups. subst mid.
  unfold save_srt_file, save_srt_file_trace, try_body.
  destruct f; cbn [fst snd]; map_lookups;
    try destruct (fs0 !! tmp_path_of task_id output_dir) eqn:E;
    cbn [fst snd head default]; unfold id; by map_lookups.
Qed.

End PersistenceExtras2.

Lemma save_touches_two_paths_witness :
  Forall (fun fs => fs !! Py.s "data/results/job8.srt" = None)
    (snd (Persistence.save_srt_file_trace Persistence.FailRename
            (Py.s "new content") (Py.s "job7") (Py.s "data/results")
            Persistence.old_files)).
Proof.
  apply Forall_forall. intros fs Hfs.
  rewrite (save_touches_two_paths _ _ _ _ _ _ (Py.s "data/results/job8.srt") Hfs).
  - reflexivity.
  - apply (bool_decide_unpack _). by vm_compute.
  - apply (bool_decide_unpack _). by vm_compute.
Defined.

(** ** More on the Workflow *)

Section WorkflowExtras.
Import Workflow.

Lemma fail_reported (tid log_msg msg : str) (d : details) (w : world) :
  reported tid w (fail tid log_msg msg d w).
Proof.
  unfold reported, fail. cbn. split; [done|]. split; [by right|].
  split; [by apply prefix_app_r|]. eexists. split; [done|]. done.
Qed.

Lemma fail_exception_reported (tid : str) (e : exn) (w : world) :
  reported tid w (fail_exception tid e w).
Proof.
  unfold reported, fail_exception. cbn. split; [done|]. split; [by right|].
  split; [by apply prefix_app_r|]. eexists. split; [done|]. done.
Qed.

Lemma reported_set_files tid fs w out :
  reported tid (set_files fs w) out → reported tid w out.
Proof. done. Qed.

Lemma finish_reported (self : TranslationWorkflow) (tid : str)
    (tcs : list Reassembler.translated_chunk) (w : world) :
  reported tid w (finish self tid tcs w).
Proof.
  unfold finish.
  destruct (reassemble self tcs) as [rr|e]; [|apply fail_exception_reported].
  destruct (reassembly_error rr); [apply fail_reported|].
  destruct (save_file self _ _ _) as [[sr|e] fs].
  2:{ apply (reported_set_files _ fs), fail_exception_reported. }
  destruct (Persistence.error sr).
  { apply (reported_set_files _ fs), fail_reported. }
  destruct (generate_url self _ _ _) as [ur|e].
  2:{ apply (reported_set_files _ fs), fail_exception_reported. }
  destruct (Notification.error ur).
  { apply (reported_set_files _ fs), fail_reported. }
  unfold reported. cbn. split; [done|]. split; [by left|]. split; [done|].
  eexists. split; [done|]. done.
Qed.

End WorkflowExtras.

Section WorkflowExtras2.
Import Workflow.

(** X18.  Every run of [process] ends with one report, whatever its
    agents return or raise.  The dict it returns carries the task
    identifier it was given, or the generated one, and is either
    completed without an error or failed with one.  The log only grows.
    The run sends at most one [processing] notification and then exactly
    one last notification, for the same task, with the status and the
    download URL of the returned dict, and with an error message when the
    run failed. *)
Theorem process_reports_once (self : TranslationWorkflow)
    (default_engine : str) (default_size : Z) (uuid : str)
    (doc source_lang target_lang : str) (tid : option str)
    (g : Translator.glossary) (engine_name : option str)
    (chunk_size : option Z) (w : world) :
  let t := default uuid tid in
  let out :=
    process self default_engine default_size uuid doc source_lang
      target_lang tid g engine_name chunk_size w in
  task_id out.1 = t ∧
  (status out.1 = Py.s "completed" ∧ error out.1 = None ∨
   status out.1 = Py.s "failed" ∧ is_Some (error out.1)) ∧
  log w `prefix_of` log out.2 ∧
  ∃ pre last,
    sent out.2 = sent w ++ pre ++ [last] ∧
    (pre = [] ∨
     pre = [ {| Notification.task_id := t;
                Notification.status := Py.s "processing";
                Notification.sent_download_url := None;
                Notification.error_message := None |} ]) ∧
    Notification.task_id last = t ∧
    Notification.status last = status out.1 ∧
    Notification.sent_download_url last = download_url out.1 ∧
    (status out.1 = Py.s "failed" → is_Some (Notification.error_message last)).
Proof.
  intros t out.
  assert (Hearly : ∀ o, reported t w o →
    task_id o.1 = t ∧
    (status o.1 = Py.s "completed" ∧ error o.1 = None ∨
     status o.1 = Py.s "failed" ∧ is_Some (error o.1)) ∧
    log w `prefix_of` log o.2 ∧
    ∃ pre last,
      sent o.2 = sent w ++ pre ++ [last] ∧
      (pre = [] ∨
       pre = [ {| Notification.task_id := t;
                  Notification.status := Py.s "processing";
                  Notification.sent_download_url := None;
                  Notification.error_message := None |} ]) ∧
      Notification.task_id last = t ∧
      Notification.status last = status o.1 ∧
      Notification.sent_download_url last = download_url o.1 ∧
      (status o.1 = Py.s "failed" → is_Some (Notification.error_message last))).
  { intros o (H1 & H2 & H3 & last & H4 & H5).
    split; [done|]. split; [done|]. split; [done|].
    exists [], last. split; [done|]. split; [by left|done]. }
  assert (Hlate : ∀ w' o, files w' = files w → log w `prefix_of` log w' →
    sent w' = sent w ++
      [ {| Notification.task_id := t;
           Notification.status := Py.s "processing";
           Notification.sent_download_url := None;
           Notification.error_message := None |} ] →
    reported t w' o →
    task_id o.1 = t ∧
    (status o.1 = Py.s "completed" ∧ error o.1 = None ∨
     status o.1 = Py.s "failed" ∧ is_Some (error o.1)) ∧
    log w `prefix_of` log o.2 ∧
    ∃ pre last,
      sent o.2 = sent w ++ pre ++ [last] ∧
      (pre = [] ∨
       pre = [ {| Notification.task_id := t;
                  Notification.status := Py.s "processing";
                  Notification.sent_download_url := None;
                  Notification.error_message := None |} ]) ∧
      Notification.task_id last = t ∧
      Notification.status last = status o.1 ∧
      Notification.sent_download_url last = download_url o.1 ∧
      (status o.1 = Py.s "failed" → is_Some (Notification.error_message last))).
  { intros w' o _ Hlog Hsent (H1 & H2 & H3 & last & H4 & H5).
    split; [done|]. split; [done|]. split; [by etrans|].
    eexists _, last. split; [by rewrite H4, Hsent, <- app_assoc|].
    split; [by right|done]. }
  subst out. unfold process. fold t.
  destruct (validate self doc) as [v|e];
    [|apply Hearly, fail_exception_reported].
  destruct (negb (Validator.valid v)); [apply Hearly, fail_reported|].
  destruct (split self doc _) as [sr|e];
    [|apply Hearly, fail_exception_reported].
  destruct (Splitter.error sr); [apply Hearly, fail_reported|].
  destruct (mapM _ (Splitter.chunks sr)) as [rs|e] eqn:Hm.
  2:{ eapply Hlate; [| | |apply fail_exception_reported]; done. }
  rewrite collect_spec by (symmetry; by eapply mapM_result_length).
  cbn [app].
  destruct (succeeded (Splitter.chunks sr) rs) as [|c cs].
  - eapply Hlate; [| | |apply fail_reported]; cbn; [done| |done].
    by apply prefix_app_r.
  - eapply Hlate; [| | |apply finish_reported]; cbn; [done| |done].
    by apply prefix_app_r.
Qed.

End WorkflowExtras2.

Section WorkflowFiles.
Import Workflow.

Variable validate : str → result Validator.validation_result.
Variable split : str → Z → result Splitter.split_result.
Variable translate : str → str → str → Translator.glossary → str
                     → result Translator.translation_result.
Variable f : Persistence.fault.
Variable expiry : str.
Variable base : option str.

Ltac map_lookups :=
  repeat (rewrite lookup_insert_eq || rewrite lookup_delete_eq ||
          (rewrite lookup_insert_ne by done) ||
          (rewrite lookup_delete_ne by done)).

Lemma finish_files (t : str) (tcs : list Reassembler.translated_chunk)
    (w : world) :
  let self := Pipeline.workflow_with validate split translate f expiry base in
  let out := finish self t tcs w in
  let file := Persistence.file_path_of t (Py.s "data/results") in
  let tmp := Persistence.tmp_path_of t (Py.s "data/results") in
  (∀ p, p ≠ file → p ≠ tmp → files out.2 !! p = files w !! p) ∧
  (status out.1 = Py.s "completed" →
   f = Persistence.NoFault ∧
   ∃ doc', files out.2 !! file = Some doc' ∧ files out.2 !! tmp = None ∧
     file_size out.1 = Some (Py.size doc') ∧
     download_url out.1 =
       Some (match base with
             | Some (c :: u) => c :: u
             | _ => Py.s "https://cdn.example.com/files"
             end ++ Py.s "/" ++ t ++ Py.s ".srt")) ∧
  (status out.1 = Py.s "failed" → f ≠ Persistence.FailGetsize →
   files out.2 !! file = files w !! file).
Proof.
  cbn zeta. unfold finish. cbn [Pipeline.workflow_with reassemble save_file
    generate_url SRTReassemblerAgent_reassemble reassembly_error content].
  set (doc' := Reassembler.content _).
  pose proof (tmp_path_ne t (Py.s "data/results")) as Hne.
  assert (Hne' : Persistence.file_path_of t (Py.s "data/results") ≠
                 Persistence.tmp_path_of t (Py.s "data/results")) by done.
  unfold Persistence.SRTReassemblerAgent_save_file.
  pose proof (save_srt_file_cases f doc' t (Py.s "data/results") (files w))
    as Hc. cbn zeta in Hc. rewrite Hc. clear Hc.
  set (file := Persistence.file_path_of t (Py.s "data/results")) in *.
  set (tmp := Persistence.tmp_path_of t (Py.s "data/results")) in *.
  destruct f;
    cbn [fst snd Persistence.error Persistence.file_path
         Persistence.file_size set_files files fail];
    unfold Notification.generate_download_url; cbn [files]; map_lookups;
    cbn [Notification.error Notification.download_url fst snd status files
         file_size download_url send_notification logger_error].
  all: unfold set_files; cbn [files].
  all: split;
    [ intros p Hp Ht; assert (file ≠ p) by done; assert (tmp ≠ p) by done;
      by map_lookups |].
  all: split;
    [ intros H;
      first [ split; [reflexivity|]; exists doc'; by map_lookups
            | exfalso; vm_compute in H; discriminate H ]
    | intros H1 H2;
      first [ by map_lookups | by destruct H2
            | exfalso; vm_compute in H1; discriminate H1 ] ].
Qed.

(** X19.  The files of a run, with the Reassembler, the file writer and the
    URL generator of the source and any Validator, Splitter and
    Translator.  A run changes no path but the artifact path and the
    temporary path of its task.  When it returns completed, nothing
    failed while saving, the artifact is there, no temporary file is
    left, the reported size is the size of the artifact and the download
    URL is the base URL, the configured one or the default one when none
    is set or it is empty, followed by the task identifier and [.srt].
    When it returns failed, the artifact path holds what it held before,
    unless the failure was that of [os.path.getsize]. *)
Theorem run_touches_only_its_artifact (default_engine : str)
    (default_size : Z) (uuid : str) (doc source_lang target_lang : str)
    (tid : option str) (g : Translator.glossary) (engine_name : option str)
    (chunk_size : option Z) (w : world) :
  let self := Pipeline.workflow_with validate split translate f expiry base in
  let out :=
    process self default_engine default_size uuid doc source_lang
      target_lang tid g engine_name chunk_size w in
  let t := default uuid tid in
  let file := Persistence.file_path_of t (Py.s "data/results") in
  let tmp := Persistence.tmp_path_of t (Py.s "data/results") in
  (∀ p, p ≠ file → p ≠ tmp → files out.2 !! p = files w !! p) ∧
  (status out.1 = Py.s "completed" →
   f = Persistence.NoFault ∧
   ∃ doc', files out.2 !! file = Some doc' ∧ files out.2 !! tmp = None ∧
     file_size out.1 = Some (Py.size doc') ∧
     download_url out.1 =
       Some (match base with
             | Some (c :: u) => c :: u
             | _ => Py.s "https://cdn.example.com/files"
             end ++ Py.s "/" ++ t ++ Py.s ".srt")) ∧
  (status out.1 = Py.s "failed" → f ≠ Persistence.FailGetsize →
   files out.2 !! file = files w !! file).
Proof.
  cbn zeta. set (t := default uuid tid).
  assert (Hearly : ∀ o : process_result * world,
    files o.2 = files w → status o.1 = Py.s "failed" →
    (∀ p, p ≠ Persistence.file_path_of t (Py.s "data/results") →
          p ≠ Persistence.tmp_path_of t (Py.s "data/results") →
          files o.2 !! p = files w !! p) ∧
    (status o.1 = Py.s "completed" →
     f = Persistence.NoFault ∧
     ∃ doc', files o.2 !! Persistence.file_path_of t (Py.s "data/results")
               = Some doc' ∧
       files o.2 !! Persistence.tmp_path_of t (Py.s "data/results") = None ∧
       file_size o.1 = Some (Py.size doc') ∧
       download_url o.1 =
         Some (match base with
               | Some (c :: u) => c :: u
               | _ => Py.s "https://cdn.example.com/files"
               end ++ Py.s "/" ++ t ++ Py.s ".srt")) ∧
    (status o.1 = Py.s "failed" → f ≠ Persistence.FailGetsize →
     files o.2 !! Persistence.file_path_of t (Py.s "data/results") =
     files w !! Persistence.file_path_of t (Py.s "data/results"))).
  { intros o Hfs Hst. rewrite Hfs, Hst. split; [done|]. split; done. }
  unfold process. fold t.
  cbn [Pipeline.workflow_with Workflow.validate Workflow.split
       Workflow.translate].
  destruct (validate doc) as [v|e]; [|by apply Hearly].
  destruct (negb (Validator.valid v)); [by apply Hearly|].
  destruct (split doc _) as [sr|e]; [|by apply Hearly].
  destruct (Splitter.error sr); [by apply Hearly|].
  destruct (mapM _ (Splitter.chunks sr)) as [rs|e] eqn:Hm;
    [|by apply Hearly].
  rewrite collect_spec by (symmetry; by eapply mapM_result_length).
  cbn [app].
  destruct (succeeded (Splitter.chunks sr) rs) as [|c cs];
    [by apply Hearly|].
  match goal with
  | |- context [finish _ t ?tcs ?w'] =>
      pose proof (finish_files t tcs w') as Hf
  end.
  cbn zeta in Hf. exact Hf.
Qed.

End WorkflowFiles.

Section WorkflowFailures.
Import Workflow.

Lemma succeeded_none (rs : list Translator.translation_result) :
  ∀ chunks : list Splitter.chunk,
    Forall (fun r => is_Some (Translator.error r)) rs →
    succeeded chunks rs = [].
Proof.
  induction rs as [|r rs IH]; intros chunks H; destruct chunks as [|c cs];
    try done.
  apply Forall_cons in H as [[err Hr] H]. cbn [succeeded]. rewrite Hr.
  by apply IH.
Qed.

(** X20.  When no chunk comes back translated, because every result of the
    Translator has an error or because the Splitter returned no chunk,
    [process] fails with the error that all chunks failed and the
    results as details.  It logs one record for every failed chunk and
    one for the failure, sends a [processing] and a [failed] notification,
    and touches no file: the Reassembler and the file writer are not
    called. *)
Theorem no_translated_chunk_fails (self : TranslationWorkflow)
    (default_engine : str) (default_size : Z) (uuid : str)
    (doc source_lang target_lang : str) (tid : option str)
    (g : Translator.glossary) (engine_name : option str)
    (chunk_size : option Z) (w : world)
    (v : Validator.validation_result) (sr : Splitter.split_result)
    (rs : list Translator.translation_result) :
  let t := default uuid tid in
  let out :=
    process self default_engine default_size uuid doc source_lang
      target_lang tid g engine_name chunk_size w in
  validate self doc = Ok v → Validator.valid v = true →
  split self doc (default default_size chunk_size) = Ok sr →
  Splitter.error sr = None →
  mapM (fun c => translate self (Splitter.chunk_content c) source_lang
                   target_lang g (default default_engine engine_name))
       (Splitter.chunks sr) = Ok rs →
  Forall (fun r => is_Some (Translator.error r)) rs →
  out.1 = {| task_id := t; status := Py.s "failed"; download_url := None;
             result_subtitle_count := None; file_size := None;
             expiry_time := None; error := Some (Py.s "所有块翻译失败");
             error_details := Some (TranslationDetails rs) |} ∧
  files out.2 = files w ∧
  log out.2 = log w ++ failure_records 0 rs ++ [Py.s "所有块翻译失败"] ∧
  sent out.2 =
    sent w ++
      [ {| Notification.task_id := t;
           Notification.status := Py.s "processing";
           Notification.sent_download_url := None;
           Notification.error_message := None |};
        {| Notification.task_id := t;
           Notification.status := Py.s "failed";
           Notification.sent_download_url := None;
           Notification.error_message := Some (Py.s "所有块翻译失败") |} ].
Proof.
  cbn zeta. intros Hv Hvalid Hs Herr Hm Hall. unfold process.
  rewrite Hv, Hvalid. cbn [negb]. rewrite Hs, Herr, Hm.
  rewrite collect_spec by (symmetry; by eapply mapM_result_length).
  rewrite succeeded_none by done. cbn.
  split; [done|]. split; [done|]. split; [by rewrite <- app_assoc|].
  by rewrite <- app_assoc.
Qed.

(** X21.  With the agents of the source no run completes.  Whatever the
    document, the providers, the configuration and the behaviour of the
    file system, [process] returns failed without a download URL: for a
    document the Validator rejects with the validation error, and for
    every other document with the splitting error, since [split_srt]
    raises on every input.  No file is touched, and the one notification
    sent is the failure. *)
Theorem source_workflow_never_completes finditer deepseek_api mistral_api key
    default_engine f expiry base default_size uuid
    (doc source_lang target_lang : str) (tid : option str)
    (g : Translator.glossary) (engine_name : option str)
    (chunk_size : option Z) (w : world) :
  let self :=
    Pipeline.translation_workflow finditer deepseek_api mistral_api key
      default_engine f expiry base in
  let out :=
    process self default_engine default_size uuid doc source_lang
      target_lang tid g engine_name chunk_size w in
  let valid := Validator.valid (Pipeline.SRTValidatorAgent_validate doc) in
  status out.1 = Py.s "failed" ∧
  download_url out.1 = None ∧
  error out.1 =
    Some (if valid then Py.s "SRT 文件分块失败"
          else Py.s "SRT 文件格式验证失败") ∧
  files out.2 = files w ∧
  sent out.2 =
    sent w ++
      [ {| Notification.task_id := default uuid tid;
           Notification.status := Py.s "failed";
           Notification.sent_download_url := None;
           Notification.error_message := error out.1 |} ].
Proof.
  cbn zeta. unfold process.
  cbn [Workflow.validate Workflow.split Pipeline.translation_workflow
       Pipeline.workflow_with].
  destruct (Validator.valid (Pipeline.SRTValidatorAgent_validate doc));
    cbn [negb]; [|done].
  unfold Splitter.SRTSplitterAgent_split. rewrite split_srt_raises.
  cbn [Splitter.error]. done.
Qed.

End WorkflowFailures.

Lemma no_translated_chunk_fails_witness :
  let out := Pipeline.run_over [Pipeline.chunk_boom] Pipeline.three_doc in
  Workflow.status out.1 = Py.s "failed" ∧
  Workflow.error out.1 = Some (Py.s "所有块翻译失败") ∧
  Workflow.files out.2 = ∅ ∧
  Workflow.log out.2 =
    [ Py.s "块 1 翻译失败: 翻译过程中发生错误: service unavailable";
      Py.s "所有块翻译失败" ] ∧
  length (Workflow.sent out.2) = 2%nat.
Proof.
  cbn zeta.
  destruct (no_translated_chunk_fails
              (Pipeline.workflow_over [Pipeline.chunk_boom]) (Py.s "mistral")
              100 (Py.s "generated-id") Pipeline.three_doc (Py.s "en")
              (Py.s "zh") (Some (Py.s "job7")) None None None
              Pipeline.empty_world
              (Pipeline.SRTValidatorAgent_validate Pipeline.three_doc)
              {| Splitter.chunks := [Pipeline.chunk_boom];
                 Splitter.total_subtitles := 1; Splitter.error := None |}
              [ {| Translator.translated_content := [];
                   Translator.engine := Py.s "mistral";
                   Translator.glossary_matches := [];
                   Translator.error :=
                     Some (Py.s "翻译过程中发生错误: service unavailable") |} ])
    as (H1 & H2 & H3 & H4).
  - reflexivity.
  - vm_compute. reflexivity.
  - reflexivity.
  - reflexivity.
  - vm_compute. reflexivity.
  - repeat constructor. by eexists.
  - unfold Pipeline.run_over. rewrite H1, H2, H3, H4.
    repeat split; vm_compute; reflexivity.
Defined.

(** ** More on the Translator *)

Section TranslatorExtras.
Import Translator.

Variable deepseek_api mistral_api : provider.
Variable DEEPSEEK_API_KEY : option str.
Variable source_lang target_lang : str.
Variable g : glossary.
Variable engine_name : str.

Lemma mapM_result_Ok {A B} (f : A → result B) (l : list A) :
  (∃ out, mapM f l = Ok out) ↔ Forall (fun x => ∃ y, f x = Ok y) l.
Proof.
  induction l as [|x l IH].
  - split; [constructor|by exists []].
  - cbn [mapM]. split.
    + intros [out H]. destruct (f x) as [y|e] eqn:Hx; [|done].
      cbn in H. destruct (mapM f l) as [k|e] eqn:Hl; [|done].
      constructor; [by exists y|]. apply IH. by exists k.
    + intros H. apply Forall_cons in H as [[y Hy] H].
      apply IH in H as [k Hk]. exists (y :: k). by rewrite Hy, Hk.
Qed.

Lemma elem_of_concat {A} (x : A) (ls : list (list A)) :
  x ∈ concat ls ↔ ∃ l, x ∈ l ∧ l ∈ ls.
Proof.
  induction ls as [|l ls IH]; cbn [concat].
  - split; [by intros H%elem_of_nil|by intros (l & _ & H%elem_of_nil)].
  - rewrite elem_of_app, IH. split.
    + intros [H|(l' & H1 & H2)].
      * exists l. split; [done|by left].
      * exists l'. split; [done|by right].
    + intros (l' & H1 & H2). apply elem_of_cons in H2 as [->|H2];
        [by left|right; by exists l'].
Qed.

(** [translate_blocks] as one pass over the blocks. *)
Lemma translate_blocks_result (blocks : list block) :
  ∀ (tbs0 : list block) (ms0 : list glossary_match) (calls0 : list str),
    snd (translate_blocks deepseek_api mistral_api DEEPSEEK_API_KEY
           source_lang target_lang g engine_name blocks tbs0 ms0 calls0) =
    (out ← mapM (fun b =>
                   if translatable b then
                     t ← dispatch deepseek_api mistral_api DEEPSEEK_API_KEY
                           engine_name (text_of b) source_lang target_lang g;
                     Ok (translated_block b t)
                   else Ok b) blocks;
     Ok (tbs0 ++ out, ms0 ++ concat (map (block_matches g) blocks))).
Proof.
  induction blocks as [|b blocks IH]; intros tbs0 ms0 calls0.
  - cbn. by rewrite !app_nil_r.
  - cbn [translate_blocks mapM map concat]. unfold block_matches at 1.
    unfold translatable at 1 3.
    destruct (length (lines b) <? 3)%nat eqn:Hlen; cbn [negb].
    + rewrite IH. cbn. destruct (mapM _ blocks) as [out|e]; [|done].
      cbn. by rewrite <- app_assoc.
    + fold (text_of b).
      destruct (dispatch _ _ _ _ (text_of b) _ _ _) as [t|e] eqn:Hd;
        [|done].
      rewrite IH. cbn. destruct (mapM _ blocks) as [out|e]; [|done].
      cbn. unfold translated_block. by rewrite <- !app_assoc.
Qed.

(** X7.  Which engine [translate_chunk] uses depends on the engine name
    only: [mistral] goes to [_translate_with_mistral], and every other
    name, known or not, goes to [_translate_with_deepseek], whether or
    not an API key for DeepSeek is configured. *)
Theorem engine_choice_ignores_api_key (text : str) :
  dispatch deepseek_api mistral_api DEEPSEEK_API_KEY engine_name text
    source_lang target_lang g =
  if bool_decide (engine_name = Py.s "mistral")
  then _translate_with_mistral mistral_api text source_lang target_lang g
  else _translate_with_deepseek deepseek_api text source_lang target_lang g.
Proof.
  unfold dispatch.
  destruct (bool_decide (engine_name = Py.s "deepseek")) eqn:Hd; [|done].
  apply bool_decide_eq_true in Hd as ->.
  by destruct (Py.truthy (default [] DEEPSEEK_API_KEY)).
Qed.

(** X8.  [TranslatorAgent.translate] translates a chunk completely or not
    at all.  Its result has no error exactly when the provider returns
    for the text of every block of at least three lines, and then it is
    the result of [translate_chunk].  When the provider raises on one of
    those blocks, the result carries an error message and the engine
    name, with an empty content and no glossary match: what was
    translated before the failing block is dropped. *)
Theorem translate_all_or_nothing (default_engine chunk_content : str) :
  let blocks := parse_blocks chunk_content in
  let r :=
    TranslatorAgent_translate deepseek_api mistral_api DEEPSEEK_API_KEY
      default_engine chunk_content source_lang target_lang g
      (Some engine_name) in
  (error r = None ↔
   Forall (fun b => translatable b = true →
             ∃ t, dispatch deepseek_api mistral_api DEEPSEEK_API_KEY
                    engine_name (text_of b) source_lang target_lang g = Ok t)
          blocks) ∧
  (error r = None →
   translate_chunk deepseek_api mistral_api DEEPSEEK_API_KEY chunk_content
     source_lang target_lang g engine_name = Ok r) ∧
  (∀ b e, b ∈ blocks →
     dispatch deepseek_api mistral_api DEEPSEEK_API_KEY engine_name
       (text_of b) source_lang target_lang g = Raise e →
     translatable b = true →
     translated_content r = [] ∧ glossary_matches r = [] ∧
     ∃ e', error r = Some (Py.s "翻译过程中发生错误: " ++ exn_str e')) ∧
  engine r = engine_name.
Proof.
  cbn zeta. unfold TranslatorAgent_translate, translate_chunk,
    translate_chunk_calls. cbn [default from_option id].
  pose proof (translate_blocks_result (parse_blocks chunk_content) [] [] [])
    as Hr.
  destruct (translate_blocks _ _ _ _ _ _ _ _ _ _ _) as [calls r0].
  cbn [snd] in *. subst r0.
  set (step := fun b : block => _) in *.
  pose proof (mapM_result_Ok step (parse_blocks chunk_content)) as Hok.
  assert (Hstep : ∀ b, (∃ y, step b = Ok y) ↔
            (translatable b = true →
             ∃ t, dispatch deepseek_api mistral_api DEEPSEEK_API_KEY
                    engine_name (text_of b) source_lang target_lang g = Ok t)).
  { intros b. unfold step. destruct (translatable b).
    - split.
      + intros [y Hy] _. destruct (dispatch _ _ _ _ _ _ _ _) as [t|e];
          [by exists t|done].
      + intros H. destruct (H eq_refl) as [t ->]. by eexists.
    - split; [done|]. intros _. by eexists. }
  assert (Hall : (∃ out, mapM step (parse_blocks chunk_content) = Ok out) ↔
            Forall (fun b => translatable b = true →
              ∃ t, dispatch deepseek_api mistral_api DEEPSEEK_API_KEY
                     engine_name (text_of b) source_lang target_lang g = Ok t)
              (parse_blocks chunk_content)).
  { rewrite Hok. apply Forall_iff. intros b. apply Hstep. }
  destruct (mapM step (parse_blocks chunk_content)) as [out|e] eqn:Hm; cbn.
  - split; [split; [intros _; apply Hall; by eexists|done]|].
    split; [done|]. split; [|done].
    intros b e Hb Hd Ht.
    assert (Hf : Forall (fun b => ∃ y, step b = Ok y)
                   (parse_blocks chunk_content)) by (apply Hok; by eexists).
    rewrite Forall_forall in Hf. destruct (Hf b Hb) as [y Hy].
    unfold step in Hy. rewrite Ht, Hd in Hy. done.
  - split; [split; [done|]|].
    { intros H. apply Hall in H as [out H]. done. }
    split; [done|]. split; [|done].
    intros _ _ _ _ _. split; [done|]. split; [done|]. by eexists.
Qed.


End TranslatorExtras.


Section TranslatorStubs.
Import Translator.

Variable DEEPSEEK_API_KEY : option str.
Variable source_lang target_lang : str.
Variable g : glossary.

Lemma stub_dispatch (engine_name text : str) :
  dispatch deepseek_stub mistral_stub DEEPSEEK_API_KEY engine_name text
    source_lang target_lang g =
  Ok (apply_glossary g text
        ((if bool_decide (engine_name = Py.s "mistral")
          then Py.s "[Mistral: " else Py.s "[")
         ++ source_lang ++ Py.s " -> " ++ target_lang ++ Py.s "] " ++ text)).
Proof.
  unfold dispatch.
  destruct (bool_decide (engine_name = Py.s "deepseek")) eqn:Hd.
  - apply bool_decide_eq_true in Hd as ->.
    by destruct (Py.truthy (default [] DEEPSEEK_API_KEY)).
  - cbn [andb]. by destruct (bool_decide (engine_name = Py.s "mistral")).
Qed.


End TranslatorStubs.

(** ** Lines and documents *)

Section LineFacts.
Import Pipeline.

Lemma no_break_cons (c : ascii) (l : str) :
  no_break (c :: l) ↔ Py.is_linebreak c = false ∧ no_break l.
Proof.
  unfold no_break. cbn [forallb]. rewrite andb_true_iff, negb_true_iff. done.
Qed.

Lemma no_break_app (x y : str) : no_break (x ++ y) ↔ no_break x ∧ no_break y.
Proof. unfold no_break. by rewrite forallb_app, andb_true_iff. Qed.

Lemma no_break_rev (x : str) : no_break (rev x) ↔ no_break x.
Proof.
  induction x as [|c x IH]; [done|]. cbn [rev].
  rewrite no_break_app, IH, !no_break_cons. unfold no_break at 2. cbn. tauto.
Qed.

Lemma splitlines_no_break (x : str) : Forall no_break (Py.splitlines x).
Proof.
  induction x as [x IH] using (induction_ltof1 _ (@length ascii)).
  unfold ltof in IH. destruct x as [|c x]; [constructor|].
  cbn [Py.splitlines]. destruct (Py.is_linebreak c) eqn:Hc.
  - constructor; [done|]. destruct x as [|c2 x]; [constructor|].
    destruct (Py.ascii_eqb c Py.CR && Py.ascii_eqb c2 Py.LF);
      apply IH; simpl; lia.
  - assert (Hx : Forall no_break (Py.splitlines x)) by (apply IH; simpl; lia).
    destruct (Py.splitlines x) as [|l ls].
    + constructor; [|constructor]. apply no_break_cons. by split.
    + apply Forall_cons in Hx as [Hl Hls]. constructor; [|done].
      apply no_break_cons. by split.
Qed.

Lemma lstrip_no_break (x : str) : no_break x → no_break (Py.lstrip x).
Proof.
  induction x as [|c x IH]; [done|]. intros H. cbn [Py.lstrip].
  destruct (Py.is_space c); [|done]. apply IH.
  by apply no_break_cons in H as [_ H].
Qed.

Lemma strip_no_break (x : str) : no_break x → no_break (Py.strip x).
Proof.
  intros H. unfold Py.strip, Py.rstrip.
  apply no_break_rev, lstrip_no_break, no_break_rev. by apply lstrip_no_break.
Qed.

(** The lines the parsing loops keep. *)
Lemma kept_lines_clean (doc : str) :
  Forall (fun l => Py.trimmed l ∧ no_break l) (Reassembler.kept_lines doc).
Proof.
  unfold Reassembler.kept_lines. apply Forall_forall. intros l Hl.
  apply list_elem_of_In, filter_In in Hl as [Hin Ht].
  apply in_map_iff in Hin as (raw & <- & Hraw).
  split; [by apply strip_truthy|]. apply strip_no_break.
  pose proof (splitlines_no_break doc) as Hall.
  rewrite Forall_forall in Hall. by apply Hall, list_elem_of_In.
Qed.

End LineFacts.

Section DocumentFacts.
Import Pipeline.

Lemma sep_blocks_Forall (P : str → Prop) (bs : list (list str)) :
  P [] → Forall (Forall P) bs → Forall P (sep_blocks bs).
Proof.
  intros Hnil. induction bs as [|b bs IH]; intros Hall; [constructor|].
  apply Forall_cons in Hall as [Hb Hall].
  destruct bs as [|b' bs]; [done|].
  rewrite sep_blocks_cons by done. apply Forall_app. split; [done|].
  constructor; [done|]. by apply IH.
Qed.

Lemma sep_blocks_last_line (bs : list (list str)) :
  Forall (fun b => b ≠ [] ∧ Forall (fun l => l ≠ []) b) bs →
  ∀ l, last (sep_blocks bs) = Some l → l ≠ [].
Proof.
  induction bs as [|b bs IH]; intros Hall l Hl; [done|].
  apply Forall_cons in Hall as [[Hb Hls] Hall].
  destruct bs as [|b' bs].
  - simpl in Hl. destruct (exists_last Hb) as (b0 & x & ->).
    rewrite last_snoc in Hl. injection Hl as <-.
    apply Forall_app in Hls as [_ Hx]. by apply Forall_cons in Hx as [Hx _].
  - rewrite sep_blocks_cons in Hl by done.
    rewrite last_app in Hl.
    assert (Hne : sep_blocks (b' :: bs) ≠ []).
    { apply sep_blocks_nonempty; [done|].
      eapply Forall_impl; [exact Hall|]. by intros ? [? _]. }
    destruct (last ([] :: sep_blocks (b' :: bs))) as [l'|] eqn:El.
    + injection Hl as <-. rewrite last_cons in El.
      destruct (last (sep_blocks (b' :: bs))) as [l''|] eqn:El2.
      * injection El as <-. by apply (IH Hall).
      * by apply last_None in El2.
    + by apply last_None in El.
Qed.

(** The lines of a document of blocks of clean lines. *)
Lemma splitlines_clean_document (bs : list (list str)) :
  Forall (fun b => b ≠ [] ∧ Forall (fun l => Py.trimmed l ∧ no_break l) b) bs →
  Py.splitlines (Reassembler.document bs) = sep_blocks bs.
Proof.
  intros Hall. rewrite document_lines.
  - apply splitlines_join.
    + apply sep_blocks_Forall; [done|].
      eapply Forall_impl; [exact Hall|]. intros b [_ Hb].
      eapply Forall_impl; [exact Hb|]. by intros l [_ ?].
    + apply sep_blocks_last_line.
      eapply Forall_impl; [exact Hall|]. intros b [Hne Hb]. split; [done|].
      eapply Forall_impl; [exact Hb|]. intros l [Ht _].
      by apply trimmed_truthy in Ht; destruct l.
  - eapply Forall_impl; [exact Hall|]. by intros ? [? _].
Qed.

Lemma kept_clean_lines (ls : list str) :
  Forall (fun l => Py.trimmed l ∧ no_break l) ls →
  List.filter Py.truthy (map Py.strip ls) = ls.
Proof.
  induction ls as [|l ls IH]; intros Hall; [done|].
  apply Forall_cons in Hall as [[Ht _] Hall]. cbn [map List.filter].
  destruct (trimmed_line l Ht) as [-> ->]. by rewrite IH.
Qed.

(** The lines kept of a document are the lines of its blocks. *)
Lemma kept_lines_document (bs : list (list str)) :
  Forall (fun b => b ≠ [] ∧ Forall (fun l => Py.trimmed l ∧ no_break l) b) bs →
  Reassembler.kept_lines (Reassembler.document bs) = concat bs.
Proof.
  intros Hall. unfold Reassembler.kept_lines.
  rewrite splitlines_clean_document by done.
  induction bs as [|b bs IH]; [done|].
  apply Forall_cons in Hall as [[Hb Hls] Hall].
  destruct bs as [|b' bs].
  - cbn [sep_blocks concat]. rewrite app_nil_r. by apply kept_clean_lines.
  - rewrite sep_blocks_cons by done. cbn [concat].
    rewrite map_app, List.filter_app, kept_clean_lines by done.
    cbn [map List.filter]. change (Py.strip []) with (@nil ascii).
    cbn [Py.truthy]. f_equal. by apply IH.
Qed.

Lemma headed_block_clean (b : list str) :
  headed_block b →
  b ≠ [] ∧ Forall (fun l => Py.trimmed l ∧ no_break l) b.
Proof.
  intros (h & tl & -> & Hh & Hb & _ & Hall). split; [done|].
  constructor; [done|]. eapply Forall_impl; [exact Hall|].
  by intros l (? & ? & _).
Qed.

Lemma reassembler_loop_headed (b : list str) (acc : list (list str))
    (cur : list str) :
  headed_block b → Reassembler.parse_loop b acc cur = (flush acc cur, b).
Proof.
  intros (h & tl & -> & Hh & _ & Hi & Hall).
  destruct (trimmed_line h Hh) as [Hs Htr].
  destruct (is_int_Some h Hi) as [z Hz].
  cbn [Reassembler.parse_loop]. rewrite Hs, Htr, Hz. cbn [negb].
  rewrite reassembler_loop_tail by done. by destruct cur.
Qed.

Lemma reassembler_loop_headed_blocks (bs0 : list (list str)) :
  ∀ (b : list str) (acc : list (list str)) (cur : list str),
    Forall headed_block (bs0 ++ [b]) →
    Reassembler.parse_loop (sep_blocks (bs0 ++ [b])) acc cur =
    (flush acc cur ++ bs0, b).
Proof.
  induction bs0 as [|b0 bs0 IH]; intros b acc cur Hall.
  - cbn [app sep_blocks]. rewrite app_nil_r.
    apply reassembler_loop_headed. by apply Forall_cons in Hall as [? _].
  - cbn [app] in *. apply Forall_cons in Hall as [Hb0 Hall].
    rewrite sep_blocks_cons by by destruct bs0.
    rewrite reassembler_loop_app, (reassembler_loop_headed b0) by done.
    cbn [fst snd Reassembler.parse_loop].
    change (Py.strip []) with (@nil ascii). cbn [Py.truthy negb].
    rewrite IH by done. unfold flush at 1.
    destruct b0 as [|l0 b0]; [by apply headed_block_clean in Hb0 as [? _]|].
    by rewrite <- app_assoc.
Qed.

(** The Reassembler reads a document of headed blocks back. *)
Lemma reassembler_parse_headed (cid : option Z) (bs : list (list str)) :
  Forall headed_block bs →
  Reassembler.parse_chunk
    {| Reassembler.chunk_id := cid;
       Reassembler.translated_content := Some (Reassembler.document bs) |} =
  bs.
Proof.
  intros Hall. unfold Reassembler.parse_chunk,
    Reassembler.get_translated_content.
  cbn [Reassembler.translated_content default from_option id].
  rewrite splitlines_clean_document
    by (eapply Forall_impl; [exact Hall|]; apply headed_block_clean).
  destruct bs as [|b bs] using rev_ind; [done|].
  rewrite reassembler_loop_headed_blocks by done. cbn [flush app].
  apply Forall_app in Hall as [_ Hb]. apply Forall_cons in Hb as [Hb _].
  destruct b; [by apply headed_block_clean in Hb as [? _]|done].
Qed.

Lemma translator_loop_headed (b : list str) (acc : list Translator.block)
    (cur : list str) (cid : option Z) :
  headed_block b →
  Translator.parse_loop b acc cur cid =
  (flush_block acc cur cid, b, Some (Translator.id (parsed_block b))).
Proof.
  intros (h & tl & -> & Hh & _ & Hi & Hall).
  destruct (trimmed_line h Hh) as [Hs Htr].
  destruct (is_int_Some h Hi) as [z Hz].
  cbn [Translator.parse_loop]. rewrite Hs, Htr, Hz. cbn [negb].
  rewrite translator_loop_tail by done.
  unfold parsed_block. cbn [head default from_option id Translator.id].
  rewrite Hz. cbn [default from_option id]. by destruct cur, cid.
Qed.

Lemma translator_loop_headed_blocks (bs0 : list (list str)) :
  ∀ (b : list str) (acc : list Translator.block) (cur : list str)
    (cid : option Z),
    Forall headed_block (bs0 ++ [b]) →
    Translator.parse_loop (sep_blocks (bs0 ++ [b])) acc cur cid =
    (flush_block acc cur cid ++ map parsed_block bs0, b,
     Some (Translator.id (parsed_block b))).
Proof.
  induction bs0 as [|b0 bs0 IH]; intros b acc cur cid Hall.
  - cbn [app sep_blocks map]. rewrite app_nil_r.
    apply translator_loop_headed. by apply Forall_cons in Hall as [? _].
  - cbn [app] in *. apply Forall_cons in Hall as [Hb0 Hall].
    rewrite sep_blocks_cons by by destruct bs0.
    rewrite translator_loop_app, (translator_loop_headed b0) by done.
    cbn [fst snd Translator.parse_loop].
    change (Py.strip []) with (@nil ascii). cbn [Py.truthy negb].
    rewrite IH by done. unfold flush_block at 1.
    destruct b0 as [|l0 b0]; [by apply headed_block_clean in Hb0 as [? _]|].
    cbn [map]. by rewrite <- app_assoc.
Qed.

(** The Translator reads a document of headed blocks back. *)
Lemma translator_parse_headed (bs : list (list str)) :
  Forall headed_block bs →
  Translator.parse_blocks (Reassembler.document bs) = map parsed_block bs.
Proof.
  intros Hall. unfold Translator.parse_blocks.
  rewrite splitlines_clean_document
    by (eapply Forall_impl; [exact Hall|]; apply headed_block_clean).
  destruct bs as [|b bs] using rev_ind; [done|].
  rewrite translator_loop_headed_blocks by done. cbn [flush_block app].
  apply Forall_app in Hall as [_ Hb]. apply Forall_cons in Hb as [Hb _].
  rewrite map_app. cbn [map].
  destruct b; [by apply headed_block_clean in Hb as [? _]|done].
Qed.

End DocumentFacts.

Section TranslatorParsing.
Import Pipeline.

Lemma headed_block_snoc (cur : list str) (l : str) :
  headed_block cur → Py.trimmed l → no_break l → Py.int l = None →
  headed_block (cur ++ [l]) ∧
  Translator.id (parsed_block (cur ++ [l])) = Translator.id (parsed_block cur).
Proof.
  intros (h & tl & -> & Hh & Hb & Hi & Hall) Ht Hn Hint. split; [|done].
  exists h, (tl ++ [l]). split; [done|]. split; [done|]. split; [done|].
  split; [done|]. apply Forall_app. split; [done|]. by constructor.
Qed.

Lemma translator_loop_inv (lines : list str) :
  ∀ (acc : list Translator.block) (cur : list str) (cid : option Z),
    Forall no_break lines →
    Forall (fun b => headed_block (Translator.lines b) ∧
                     b = parsed_block (Translator.lines b)) acc →
    (cur = [] ∨
     headed_block cur ∧ cid = Some (Translator.id (parsed_block cur))) →
    let '(sb, cur', cid') := Translator.parse_loop lines acc cur cid in
    Forall (fun b => headed_block (Translator.lines b) ∧
                     b = parsed_block (Translator.lines b)) sb ∧
    (cur' = [] ∨
     headed_block cur' ∧ cid' = Some (Translator.id (parsed_block cur'))).
Proof.
  induction lines as [|raw lines IH]; intros acc cur cid Hnb Hacc Hcur;
    [done|].
  apply Forall_cons in Hnb as [Hraw Hnb]. cbn [Translator.parse_loop].
  destruct (Py.truthy (Py.strip raw)) eqn:Ht; cbn [negb]; [|by apply IH].
  pose proof (strip_truthy raw Ht) as Htrim.
  pose proof (strip_no_break raw Hraw) as Hline.
  destruct (Py.int (Py.strip raw)) as [z|] eqn:Hint.
  - apply IH; [done| |].
    + destruct Hcur as [->|[Hh ->]]; [done|].
      destruct cur as [|c cur]; [done|]. apply Forall_app. split; [done|].
      constructor; [|constructor]. split; [done|]. done.
    + right. split.
      * exists (Py.strip raw), []. split; [done|]. split; [done|].
        split; [done|]. split; [|constructor]. unfold is_int. by rewrite Hint.
      * unfold parsed_block. cbn. by rewrite Hint.
  - destruct cur as [|c cur]; [by apply IH|].
    destruct Hcur as [|[Hh ->]]; [done|].
    destruct (headed_block_snoc (c :: cur) (Py.strip raw) Hh Htrim Hline Hint)
      as [Hh' Hid].
    apply IH; [done|done|]. right. split; [done|]. by rewrite Hid.
Qed.

(** The blocks the Translator parses. *)
Lemma parse_blocks_headed (doc : str) :
  ∃ bs, Forall headed_block bs ∧
        Translator.parse_blocks doc = map parsed_block bs.
Proof.
  unfold Translator.parse_blocks.
  pose proof (translator_loop_inv (Py.splitlines doc) [] [] None
                (splitlines_no_break doc) (Forall_nil_2 _) (or_introl eq_refl))
    as H.
  destruct (Translator.parse_loop (Py.splitlines doc) [] [] None)
    as [[sb cur] cid].
  destruct H as [Hsb Hcur].
  assert (Hmap : ∀ l : list Translator.block,
            Forall (fun b => headed_block (Translator.lines b) ∧
                             b = parsed_block (Translator.lines b)) l →
            Forall headed_block (map Translator.lines l) ∧
            l = map parsed_block (map Translator.lines l)).
  { induction l as [|b l IHl]; intros Hl; [done|].
    apply Forall_cons in Hl as [[Hb Heq] Hl]. destruct (IHl Hl) as [H1 H2].
    split; [by constructor|]. cbn [map]. by rewrite <- Heq, <- H2. }
  destruct cur as [|c cur].
  - exists (map Translator.lines sb). by apply Hmap.
  - destruct Hcur as [|[Hh ->]]; [done|].
    exists (map Translator.lines sb ++ [c :: cur]).
    destruct (Hmap sb Hsb) as [H1 H2]. split.
    + apply Forall_app. split; [done|]. by constructor.
    + rewrite map_app. cbn [map]. by rewrite <- H2.
Qed.

End TranslatorParsing.

Section TranslatorIdentity.
Import Pipeline.

Variable key : option str.
Variable engine_name source_lang target_lang : str.

Lemma identity_block_content (ls : list str) :
  Translator.content
    (if Translator.translatable (parsed_block ls)
     then Translator.translated_block (parsed_block ls)
            (Translator.text_of (parsed_block ls))
     else parsed_block ls) =
  Py.join [Py.LF] ls.
Proof.
  unfold Translator.translatable, Translator.text_of, Translator.translated_block,
    parsed_block. cbn [Translator.lines Translator.content].
  by destruct ls as [|s [|t [|x xs]]].
Qed.

Lemma translate_identity_pass (bs : list (list str)) :
  ∃ out,
    mapM (fun b =>
            if Translator.translatable b then
              t ← Translator.dispatch identity_provider identity_provider key
                    engine_name (Translator.text_of b) source_lang
                    target_lang None;
              Ok (Translator.translated_block b t)
            else Ok b) (map parsed_block bs) = Ok out ∧
    map Translator.content out = map (Py.join [Py.LF]) bs.
Proof.
  induction bs as [|ls bs (out & Hout & Hc)]; [by exists []|].
  cbn [map mapM]. rewrite Hout. rewrite dispatch_same.
  pose proof (identity_block_content ls) as Hb.
  destruct (Translator.translatable (parsed_block ls)).
  - eexists. split; [reflexivity|]. cbn [map]. rewrite Hc. f_equal. exact Hb.
  - eexists. split; [reflexivity|]. cbn [map]. rewrite Hc. f_equal.
Qed.

Lemma block_matches_none (blocks : list Translator.block) :
  concat (map (Translator.block_matches None) blocks) = [].
Proof.
  induction blocks as [|b blocks IH]; [done|]. cbn [map concat].
  rewrite IH. unfold Translator.block_matches. by destruct (Translator.translatable b).
Qed.

Lemma translate_chunk_identity (doc : str) (bs : list (list str)) :
  Translator.parse_blocks doc = map parsed_block bs →
  Translator.translate_chunk identity_provider identity_provider key doc
    source_lang target_lang None engine_name =
  Ok {| Translator.translated_content := Reassembler.document bs;
        Translator.engine := engine_name;
        Translator.glossary_matches := [];
        Translator.error := None |}.
Proof.
  intros Hp. unfold Translator.translate_chunk, Translator.translate_chunk_calls.
  pose proof (translate_blocks_result identity_provider identity_provider key
                source_lang target_lang None engine_name
                (Translator.parse_blocks doc) [] [] []) as Hr.
  destruct (Translator.translate_blocks _ _ _ _ _ _ _ _ _ _ _) as [calls r].
  cbn [snd] in *. subst r. rewrite Hp.
  destruct (translate_identity_pass bs) as (out & -> & Hc).
  cbn. rewrite block_matches_none, Hc. done.
Qed.

(** X10.  With a provider that returns its text unchanged and no glossary,
    [translate_chunk] succeeds on every chunk, whatever the engine name
    and the API key.  It returns the blocks it parsed, their lines joined
    by line feeds and the blocks by an empty line, and records no
    glossary match.  Parsing that content gives the same blocks again, so
    translating the translated content returns the very same result. *)
Theorem identity_translation_is_canonical (doc : str) :
  let blocks := Translator.parse_blocks doc in
  ∃ res,
    Translator.translate_chunk identity_provider identity_provider key doc
      source_lang target_lang None engine_name = Ok res ∧
    Translator.translated_content res =
      Reassembler.document (map Translator.lines blocks) ∧
    Translator.glossary_matches res = [] ∧
    Translator.error res = None ∧
    Translator.parse_blocks (Translator.translated_content res) = blocks ∧
    Translator.translate_chunk identity_provider identity_provider key
      (Translator.translated_content res) source_lang target_lang None
      engine_name = Ok res.
Proof.
  cbn zeta. destruct (parse_blocks_headed doc) as (bs & Hbs & Hp).
  eexists. split; [by apply translate_chunk_identity|].
  cbn [Translator.translated_content Translator.glossary_matches
       Translator.error].
  assert (Hl : map Translator.lines (Translator.parse_blocks doc) = bs).
  { rewrite Hp, map_map. cbn. apply map_id. }
  rewrite Hl, Hp. split; [done|]. split; [done|]. split; [done|].
  split; [by apply translator_parse_headed|].
  apply translate_chunk_identity. by apply translator_parse_headed.
Qed.

End TranslatorIdentity.

(** ** More on the Reassembler *)

Section ReassemblerExtras.
Import Reassembler.
Import Pipeline.

Lemma Forall_concat_inv {A} (P : A → Prop) (ls : list (list A)) :
  Forall P (concat ls) → Forall (Forall P) ls.
Proof.
  induction ls as [|l ls IH]; intros H; [constructor|].
  cbn [concat] in H. apply Forall_app in H as [Hl Hls].
  constructor; [done|by apply IH].
Qed.

(** The blocks read in one chunk. *)
Lemma parse_chunk_clean (chunk : translated_chunk) :
  Forall (fun b => b ≠ [] ∧
                   Forall (fun l => Py.trimmed l ∧ no_break l) b ∧
                   Forall (fun l => Py.int l = None) (tail b))
         (parse_chunk chunk).
Proof.
  pose proof (kept_lines_clean (get_translated_content chunk)) as Hk.
  rewrite <- parse_chunk_concat in Hk. apply Forall_concat_inv in Hk.
  pose proof (parse_chunk_ok chunk) as Hok.
  induction (parse_chunk chunk) as [|b bs IH]; [constructor|].
  apply Forall_cons in Hk as [Hb Hbs].
  apply Forall_cons in Hok as [[Hne Htl] Hok].
  constructor; [done|by apply IH].
Qed.

Lemma digit_no_break (c : ascii) :
  Py.is_digit c = true → Py.is_linebreak c = false.
Proof.
  unfold Py.is_digit, Py.is_linebreak. intros H.
  apply andb_true_iff in H as [H1 H2].
  apply Nat.leb_le in H1. apply Nat.leb_le in H2.
  apply orb_false_iff. split; apply andb_false_iff.
  - right. apply Nat.leb_gt. lia.
  - right. apply Nat.leb_gt. lia.
Qed.

Lemma of_nat_no_break (n : nat) : no_break (Py.of_nat n).
Proof.
  destruct (of_nat_digits n) as [_ H]. unfold no_break.
  apply forallb_forall. intros c Hc. rewrite Forall_forall in H.
  apply negb_true_iff, digit_no_break, H. by apply list_elem_of_In.
Qed.

Lemma normalize_headed (bs : list (list str)) :
  Forall (fun b => b ≠ [] ∧
                   Forall (fun l => Py.trimmed l ∧ no_break l) b ∧
                   Forall (fun l => Py.int l = None) (tail b)) bs →
  Forall headed_block (normalize bs).
Proof.
  unfold normalize. intros Hall. apply Forall_lookup. intros i b Hb.
  rewrite list_lookup_imap in Hb.
  destruct (bs !! i) as [b0|] eqn:E; [|done]. simpl in Hb.
  pose proof (Forall_lookup_1 _ _ _ _ Hall E) as (Hne & Hls & Hint).
  destruct b0 as [|h tl]; [done|]. injection Hb as <-.
  apply Forall_cons in Hls as [_ Htl]. cbn [tail] in Hint.
  exists (Py.of_nat (i + 1)), tl. split; [done|].
  split; [apply of_nat_trimmed|]. split; [apply of_nat_no_break|].
  split; [unfold is_int; by rewrite int_of_nat|].
  apply Forall_forall. intros l Hl. rewrite Forall_forall in Htl, Hint.
  destruct (Htl l Hl). split; [done|]. split; [done|]. by apply Hint.
Qed.

Lemma normalize_fixed (bs : list (list str)) :
  normalize (normalize bs) = normalize bs.
Proof.
  unfold normalize. apply list_eq. intros i. rewrite !list_lookup_imap.
  by destruct (bs !! i) as [[|h tl]|].
Qed.

Lemma normalize_tails (bs : list (list str)) :
  map tail (normalize bs) = map tail bs.
Proof.
  unfold normalize. apply list_eq. intros i.
  rewrite !list_lookup_fmap, list_lookup_imap.
  by destruct (bs !! i) as [[|h tl]|].
Qed.

Lemma all_subtitles_clean (chunks : list translated_chunk) :
  Forall (fun b => b ≠ [] ∧
                   Forall (fun l => Py.trimmed l ∧ no_break l) b ∧
                   Forall (fun l => Py.int l = None) (tail b))
         (all_subtitles_of chunks false).
Proof.
  unfold all_subtitles_of.
  apply Forall_concat, Forall_map, Forall_forall. intros c _.
  apply parse_chunk_clean.
Qed.

Lemma all_subtitles_headed (chunks : list translated_chunk) :
  Forall headed_block (all_subtitles_of chunks true).
Proof. apply normalize_headed, all_subtitles_clean. Qed.

(** X12.  Reassembling is idempotent.  When the content [reassemble_srt]
    returns with [normalize_ids = True] is handed back to it as a single
    chunk, whatever the chunk identifier and with or without
    renumbering, the result is the same content with the same subtitle
    count. *)
Theorem reassemble_is_idempotent (chunks : list translated_chunk)
    (cid : option Z) (normalize_ids : bool) :
  let r := reassemble_srt chunks true in
  reassemble_srt
    [ {| chunk_id := cid; translated_content := Some (content r) |} ]
    normalize_ids = r.
Proof.
  cbn zeta.
  assert (Hn : normalize (all_subtitles_of chunks true) =
               all_subtitles_of chunks true).
  { unfold all_subtitles_of. apply normalize_fixed. }
  pose proof (all_subtitles_headed chunks) as Hh.
  pose proof (all_subtitles_trimmed chunks true) as Ht.
  unfold reassemble_srt at 2 3. cbn [content].
  set (blocks := all_subtitles_of chunks true) in *. clearbody blocks.
  rewrite (strip_render blocks) by done.
  unfold reassemble_srt, all_subtitles_of.
  cbn [sorted foldr insert_by map concat].
  rewrite reassembler_parse_headed by done. rewrite app_nil_r.
  destruct normalize_ids; rewrite ?Hn, strip_render by done; done.
Qed.


Lemma parse_chunk_nil (c : translated_chunk) :
  parse_chunk c = [] ↔ kept_lines (get_translated_content c) = [].
Proof.
  rewrite <- parse_chunk_concat. split; [by intros ->|].
  pose proof (parse_chunk_ok c) as Hok.
  destruct (parse_chunk c) as [|b bs]; [done|].
  apply Forall_cons in Hok as [[Hne _] _]. by destruct b.
Qed.


End ReassemblerExtras.

(** ** More on the Splitter *)

Section SplitterExtras.
Import Splitter.

Lemma join_concat (sep : str) (groups : list (list str)) :
  Forall (fun g => g ≠ []) groups →
  Py.join sep (map (Py.join sep) groups) = Py.join sep (concat groups).
Proof.
  induction groups as [|gr groups IH]; intros Hne; [done|].
  apply Forall_cons in Hne as [Hg Hne]. cbn [map concat].
  destruct groups as [|g' groups].
  - cbn. by rewrite app_nil_r.
  - rewrite join_cons by done. rewrite IH by done.
    rewrite join_app; [done|done|].
    apply Forall_cons in Hne as [Hg' _]. cbn [concat]. by destruct g'.
Qed.

Lemma concat_map_map {A B} (f : A → B) (ls : list (list A)) :
  concat (map (map f) ls) = map f (concat ls).
Proof.
  induction ls as [|l ls IH]; [done|]. cbn [map concat].
  by rewrite map_app, IH.
Qed.

(** The chunks [make_chunks] builds, one per group. *)
Lemma make_chunks_spec (groups : list (list block)) : ∀ (n : nat) cs,
  make_chunks n groups = Ok cs →
  map chunk_id cs = seq (S n) (length groups) ∧
  Forall2 (fun c gr =>
             chunk_content c = Py.join [Py.LF; Py.LF] (map content gr) ∧
             head (map id gr) = Some (range_start (chunk_range c)) ∧
             last (map id gr) = Some (range_end (chunk_range c)))
          cs groups.
Proof.
  induction groups as [|gr groups IH]; intros n cs H.
  - injection H as <-. split; [done|constructor].
  - cbn [make_chunks] in H. unfold make_chunk in H.
    destruct gr as [|b gr]; [done|].
    destruct (last (b :: gr)) as [final|] eqn:El; [|done].
    cbn in H. destruct (make_chunks (S n) groups) as [cs'|] eqn:Hcs; [|done].
    cbn in H. injection H as <-. destruct (IH _ _ Hcs) as [Hid Hall].
    split.
    + cbn [map chunk_id length seq]. rewrite Hid. f_equal. lia.
    + constructor; [|done]. cbn [chunk_content chunk_range range_start
        range_end]. split; [done|]. split; [done|].
      change (last (id <$> b :: gr) = Some (id final)).
      by rewrite fmap_last, El.
Qed.

Lemma chunk_groups_full (blocks : list block) (k : nat) (j : nat)
    (gr : list block) :
  (0 < k)%nat → chunk_groups blocks k !! j = Some gr →
  (S j < length (chunk_groups blocks k))%nat → length gr = k.
Proof.
  intros Hk Hj Hlt. unfold chunk_groups, range_from_0 in *.
  rewrite !length_map, length_seq in Hlt.
  rewrite !list_lookup_fmap in Hj.
  rewrite lookup_seq_lt in Hj by lia. cbn in Hj. injection Hj as <-.
  pose proof (range_inside (length blocks) k (S j) Hk Hlt) as Hin.
  unfold slice. rewrite length_take, length_drop. lia.
Qed.

(** X5.  The chunking loop of [split_srt], for a positive chunk size.  It
    returns without error and reports the number of blocks.  The chunks
    stand for consecutive groups of the blocks that hold every block once
    and in order; no group is empty or larger than the chunk size, and all
    but the last have exactly that size.  The chunks are numbered 1, 2,
    ... in order; the content of a chunk is the contents of its blocks
    joined by an empty line, its range runs from the identifier of its
    first block to that of its last, and the contents of all the chunks
    joined by an empty line are the contents of all the blocks joined that
    way. *)
Theorem chunking_partitions_blocks (blocks : list block) (chunk_size : Z) :
  0 < chunk_size →
  ∃ r groups,
    chunk_up blocks chunk_size = Ok r ∧
    total_subtitles r = length blocks ∧ error r = None ∧
    concat groups = blocks ∧
    Forall (fun gr => (0 < length gr ≤ Z.to_nat chunk_size)%nat) groups ∧
    (∀ j gr, groups !! j = Some gr → (S j < length groups)%nat →
             length gr = Z.to_nat chunk_size) ∧
    map chunk_id (chunks r) = seq 1 (length groups) ∧
    Forall2 (fun c gr =>
               chunk_content c = Py.join [Py.LF; Py.LF] (map content gr) ∧
               head (map id gr) = Some (range_start (chunk_range c)) ∧
               last (map id gr) = Some (range_end (chunk_range c)))
            (chunks r) groups ∧
    Py.join [Py.LF; Py.LF] (map chunk_content (chunks r)) =
      Py.join [Py.LF; Py.LF] (map content blocks).
Proof.
  intros Hk. unfold chunk_up.
  destruct (Z.eqb_spec chunk_size 0) as [->|_]; [lia|].
  destruct (Z.ltb_spec chunk_size 0) as [?|_]; [lia|].
  set (k := Z.to_nat chunk_size). assert (Hk' : (0 < k)%nat) by lia.
  pose proof (chunk_groups_nonempty blocks k Hk') as Hne.
  destruct (make_chunks_ok (chunk_groups blocks k) 0 Hne) as (cs & Hcs & Hl).
  rewrite Hcs. destruct (make_chunks_spec _ _ _ Hcs) as [Hid Hall].
  cbn. eexists _, (chunk_groups blocks k). split; [done|]. cbn.
  split; [done|]. split; [done|].
  split; [by apply chunk_groups_concat|]. split.
  { pose proof (chunk_groups_size blocks k) as Hsz.
    apply Forall_forall. intros gr Hgr. rewrite Forall_forall in Hne, Hsz.
    specialize (Hne gr Hgr). specialize (Hsz gr Hgr).
    destruct gr; [done|]. simpl in *. lia. }
  split; [intros j gr; by apply chunk_groups_full|].
  split; [done|]. split; [done|].
  assert (Hc : map chunk_content cs =
               map (Py.join [Py.LF; Py.LF])
                   (map (map content) (chunk_groups blocks k))).
  { clear -Hall. induction Hall as [|c gr cs grs [Hc _] _ IH]; [done|].
    cbn [map]. by rewrite Hc, IH. }
  rewrite Hc, join_concat.
  - by rewrite concat_map_map, chunk_groups_concat.
  - apply Forall_map. eapply Forall_impl; [exact Hne|].
    intros gr Hgr. by destruct gr.
Qed.

(** X6.  The chunk sizes the loop of [split_srt] is not written for.  With
    a size of zero [range] raises [ValueError].  With a negative size the
    loop body never runs: the result has no chunk, though it reports all
    the blocks.  With a size of at least the number of blocks, and at
    least one block, there is exactly one chunk, numbered 1, with all the
    blocks in it. *)
Theorem chunk_size_edge_cases (blocks : list block) :
  chunk_up blocks 0 =
    Raise (ValueError (Py.s "range() arg 3 must not be zero")) ∧
  (∀ chunk_size, chunk_size < 0 →
     chunk_up blocks chunk_size =
       Ok {| chunks := []; total_subtitles := length blocks;
             error := None |}) ∧
  (∀ chunk_size, Z.of_nat (length blocks) ≤ chunk_size → blocks ≠ [] →
     ∃ c, chunk_up blocks chunk_size =
            Ok {| chunks := [c]; total_subtitles := length blocks;
                  error := None |} ∧
          chunk_id c = 1%nat ∧
          chunk_content c = Py.join [Py.LF; Py.LF] (map content blocks)).
Proof.
  split; [done|]. split.
  - intros k Hk. unfold chunk_up.
    destruct (Z.eqb_spec k 0) as [->|_]; [lia|].
    destruct (Z.ltb_spec k 0) as [_|?]; [done|lia].
  - intros k Hk Hne. unfold chunk_up.
    assert (Hlen : (0 < length blocks)%nat) by (destruct blocks; simpl; [done|lia]).
    destruct (Z.eqb_spec k 0) as [->|_]; [lia|].
    destruct (Z.ltb_spec k 0) as [?|_]; [lia|].
    assert (Hg : chunk_groups blocks (Z.to_nat k) = [blocks]).
    { unfold chunk_groups, range_from_0.
      assert (Hd : ((length blocks + Z.to_nat k - 1) / Z.to_nat k = 1)%nat).
      { symmetry. apply (Nat.div_unique _ _ 1 (length blocks - 1)); lia. }
      rewrite Hd. cbn [seq map]. unfold slice. cbn [Nat.mul drop].
      rewrite Nat.min_r by lia. rewrite Nat.sub_0_r, drop_0.
      by rewrite take_ge by lia. }
    rewrite Hg. cbn [make_chunks]. unfold make_chunk.
    destruct blocks as [|b bs]; [done|].
    destruct (last (b :: bs)) as [final|] eqn:El;
      [|by apply last_None in El].
    cbn. eexists. split; [done|]. done.
Qed.

(** The fallback parser and the parser of the Translator. *)
Lemma fallback_loop_agrees (lines : list str) :
  ∀ (acc : list block) (acc' : list Translator.block) (cur : list str)
    (cid : option Z),
    map (fun b => (id b, content b)) acc =
      map (fun b => (Translator.id b, Translator.content b)) acc' →
    let '(sb, c, i) := parse_loop lines acc cur cid in
    let '(sb', c', i') := Translator.parse_loop lines acc' cur cid in
    map (fun b => (id b, content b)) sb =
      map (fun b => (Translator.id b, Translator.content b)) sb' ∧
    c = c' ∧ i = i'.
Proof.
  induction lines as [|raw lines IH]; intros acc acc' cur cid Hacc; [done|].
  cbn [parse_loop Translator.parse_loop].
  destruct (negb (Py.truthy (Py.strip raw))); [by apply IH|].
  destruct (Py.int (Py.strip raw)).
  - apply IH. destruct cur as [|c cur]; [done|]. destruct cid; [|done].
    rewrite !map_app. by rewrite Hacc.
  - destruct cur; by apply IH.
Qed.

(** X4.  The fallback parser of [split_srt] and the parser at the head of
    [translate_chunk] read the same subtitles in every document: the same
    identifiers with the same contents, in the same order. *)
Theorem fallback_parser_agrees_with_translator (doc : str) :
  map (fun b => (id b, content b)) (parse_fallback doc) =
  map (fun b => (Translator.id b, Translator.content b))
      (Translator.parse_blocks doc).
Proof.
  unfold parse_fallback, Translator.parse_blocks.
  pose proof (fallback_loop_agrees (Py.splitlines doc) [] [] [] None eq_refl)
    as H.
  destruct (parse_loop _ _ _ _) as [[sb c] i].
  destruct (Translator.parse_loop _ _ _ _) as [[sb' c'] i'].
  destruct H as (Hsb & <- & <-).
  destruct c as [|l c]; [done|]. destruct i; [|done].
  rewrite !map_app. by rewrite Hsb.
Qed.

End SplitterExtras.

Lemma chunking_partitions_blocks_witness :
  ∃ r, Splitter.chunk_up (Splitter.parse_fallback Splitter.TEST_SRT) 2 = Ok r ∧
       Splitter.total_subtitles r = 5%nat ∧
       map Splitter.chunk_id (Splitter.chunks r) = [1; 2; 3]%nat.
Proof.
  destruct (chunking_partitions_blocks
              (Splitter.parse_fallback Splitter.TEST_SRT) 2 ltac:(lia))
    as (r & groups & Hr & Ht & _ & Hc & _ & _ & Hid & Hall & _).
  exists r. split; [exact Hr|]. split; [rewrite Ht; reflexivity|].
  rewrite Hid. apply Forall2_length in Hall. rewrite <- Hall.
  assert (Hr' : Splitter.chunk_up (Splitter.parse_fallback Splitter.TEST_SRT) 2
                = Ok r) by exact Hr.
  vm_compute in Hr'. injection Hr' as <-. reflexivity.
Defined.

(** ** More on the Validator *)

Section ValidatorBlocks.
Import Validator.
Import Pipeline.

Lemma match_dead (x : str) : ∀ r1 r2 : Re.regex,
  Re.match_ (Re.Cat (Re.Cat Re.Void r1) r2) x = false.
Proof. induction x as [|c x IH]; intros r1 r2; [done|]. cbn. apply IH. Qed.

Lemma time_pattern_digit (t : str) :
  Re.match_ time_pattern t = true →
  ∃ c x, t = c :: x ∧ Py.is_digit c = true.
Proof.
  destruct t as [|c x]; [done|]. intros H. exists c, x. split; [done|].
  destruct (Py.is_digit c) eqn:Hc; [done|].
  cbn in H. unfold Re.digit in H. cbn in H. rewrite Hc in H.
  by rewrite match_dead in H.
Qed.

Lemma nonspace_truthy (c : ascii) (x : str) :
  Py.is_space c = false → Py.truthy (Py.strip (c :: x)) = true.
Proof.
  intros Hc. assert (Hs : Py.starts_clean (c :: x) = true) by (cbn; by rewrite Hc).
  unfold Py.strip. rewrite lstrip_clean by done.
  apply rstrip_starts in Hs. by destruct (Py.rstrip (c :: x)).
Qed.

Lemma timing_line_not_blank (t : str) :
  Re.match_ time_pattern t = true → Py.truthy (Py.strip t) = true.
Proof.
  intros (c & x & -> & Hc)%time_pattern_digit.
  by apply nonspace_truthy, digit_not_space.
Qed.

Lemma srt_blocks_loop_text (l : str) (rest cur : list str) :
  Py.truthy (Py.strip l) = true →
  srt_blocks_loop (l :: rest) cur = srt_blocks_loop rest (cur ++ [l]).
Proof. intros H. cbn [srt_blocks_loop]. by rewrite H. Qed.

Lemma srt_blocks_loop_blank (l : str) (rest cur : list str) :
  Py.truthy (Py.strip l) = false →
  srt_blocks_loop (l :: rest) cur =
  match cur with
  | [] => srt_blocks_loop rest []
  | _ :: _ => cur :: srt_blocks_loop rest []
  end.
Proof. intros H. cbn [srt_blocks_loop]. by rewrite H. Qed.

Lemma srt_blocks_loop_boundary (rest cur : list str) :
  cur ≠ [] →
  (rest = [] ∨ ∃ l r, rest = l :: r ∧ Py.truthy (Py.strip l) = false) →
  srt_blocks_loop rest cur = cur :: srt_blocks_loop rest [].
Proof.
  intros Hc [->|(l & r & -> & Hl)].
  - by destruct cur.
  - cbn [srt_blocks_loop]. rewrite Hl. by destruct cur.
Qed.

Lemma srt_blocks_loop_head (rest : list str) : ∀ cur,
  cur ≠ [] → ∃ taken more, srt_blocks_loop rest cur = (cur ++ taken) :: more.
Proof.
  induction rest as [|l rest IH]; intros cur Hc.
  - exists [], []. rewrite app_nil_r. by destruct cur.
  - cbn [srt_blocks_loop]. destruct (Py.truthy (Py.strip l)).
    + destruct (IH (cur ++ [l])) as (taken & more & ->); [by destruct cur|].
      exists (l :: taken), more. by rewrite <- app_assoc.
    + exists [], (srt_blocks_loop rest []). rewrite app_nil_r. by destruct cur.
Qed.

Lemma skip_text_blocks (rest : list str) : ∀ (i : nat) (b : bool) rest' i' b' cur,
  skip_text rest i b = (rest', i', b') →
  ∃ taken,
    srt_blocks_loop rest cur = srt_blocks_loop rest' (cur ++ taken) ∧
    b' = b || bool_decide (taken ≠ []) ∧
    (rest' = [] ∨ ∃ l r, rest' = l :: r ∧ Py.truthy (Py.strip l) = false).
Proof.
  induction rest as [|l rest IH]; intros i b rest' i' b' cur H; simpl in H.
  - injection H as <- <- <-. exists []. rewrite app_nil_r, orb_false_r.
    split; [done|]. split; [done|]. by left.
  - destruct (Py.truthy (Py.strip l)) eqn:Hl.
    + destruct (IH _ _ _ _ _ (cur ++ [l]) H) as (taken & Hb & -> & Hr).
      exists (l :: taken). cbn [srt_blocks_loop]. rewrite Hl, Hb.
      rewrite <- app_assoc. split; [done|]. split; [|done].
      by rewrite orb_true_r.
    + injection H as <- <- <-. exists []. rewrite app_nil_r, orb_false_r.
      split; [done|]. split; [done|]. right. by exists l, rest.
Qed.

Lemma skip_blank_blocks (rest : list str) : ∀ (i : nat) rest' i',
  skip_blank rest i = (rest', i') →
  srt_blocks_loop rest [] = srt_blocks_loop rest' [].
Proof.
  induction rest as [|l rest IH]; intros i rest' i' H; simpl in H.
  - by injection H as <- <-.
  - destruct (Py.truthy (Py.strip l)) eqn:Hl; cbn [negb] in H.
    + by injection H as <- <-.
    + cbn [srt_blocks_loop]. rewrite Hl. by eapply IH.
Qed.

(** The loop reports nothing exactly when every block is well formed. *)
Lemma validate_loop_blocks (fuel : nat) : ∀ rest i errors ids errors' ids',
  validate_loop fuel rest i errors ids = Some (errors', ids') →
  ∃ new_errors,
    errors' = errors ++ new_errors ∧
    (new_errors = [] ↔ forallb block_valid (srt_blocks_loop rest []) = true).
Proof.
  induction fuel as [|fuel IH]; intros rest i errors ids errors' ids' H;
    [done|].
  cbn [validate_loop] in H. destruct rest as [|l rest1].
  { injection H as <- <-. exists []. by rewrite app_nil_r. }
  destruct (Py.truthy (Py.strip l)) eqn:Ht; cbn [negb] in H.
  2:{ rewrite srt_blocks_loop_blank by done. by eapply IH. }
  destruct (Py.int (Py.strip l)) as [num|] eqn:Hint.
  - assert (Hi : is_int (Py.strip l) = true) by (unfold is_int; by rewrite Hint).
    destruct rest1 as [|time_line rest2].
    { injection H as <- <-. eexists. split; [done|].
      rewrite srt_blocks_loop_text by done. cbn. done. }
    set (errors1 :=
           if Re.match_ time_pattern time_line then errors
           else errors ++ [{| line := S i + 1;
                              error := InvalidTiming time_line |}]) in *.
    assert (He1 : ∃ e1, errors1 = errors ++ e1 ∧
              (e1 = [] ↔ Re.match_ time_pattern time_line = true)).
    { unfold errors1. destruct (Re.match_ time_pattern time_line).
      - exists []. by rewrite app_nil_r.
      - eexists. split; [done|]. done. }
    destruct He1 as (e1 & He1 & Htim). clearbody errors1. subst errors1.
    destruct rest2 as [|t rest2'].
    { injection H as <- <-. rewrite <- app_assoc. eexists. split; [done|].
      rewrite srt_blocks_loop_text by done. cbn [app].
      split; [by destruct e1|].
      destruct (Py.truthy (Py.strip time_line)) eqn:Htl.
      - rewrite srt_blocks_loop_text by done. cbn. done.
      - rewrite srt_blocks_loop_blank by done. cbn. done. }
    destruct (skip_text (t :: rest2') (S (S i)) false)
      as [[rest3 i3] has_text] eqn:Hst.
    destruct (skip_blank rest3 i3) as [rest4 i4] eqn:Hsb.
    set (e2 := if has_text then []
               else [{| line := i3; error := EmptyText |}]).
    assert (He2 : (if has_text then errors ++ e1
                   else (errors ++ e1) ++
                          [{| line := i3; error := EmptyText |}]) =
                  errors ++ e1 ++ e2).
    { unfold e2. destruct has_text; [by rewrite app_nil_r|].
      by rewrite <- app_assoc. }
    rewrite He2 in H.
    destruct (IH _ _ _ _ _ _ H) as (ne & -> & Hne).
    exists (e1 ++ e2 ++ ne). rewrite <- !app_assoc. split; [done|].
    rewrite srt_blocks_loop_text by done. cbn [app].
    destruct (Py.truthy (Py.strip time_line)) eqn:Htl.
    + rewrite srt_blocks_loop_text by done. cbn [app].
      destruct (skip_text_blocks _ _ _ _ _ _ [l; time_line] Hst)
        as (taken & Hb & Hhas & Hbound).
      rewrite Hb. rewrite srt_blocks_loop_boundary by done.
      rewrite (skip_blank_blocks _ _ _ _ Hsb).
      cbn [forallb app block_valid]. cbn [orb] in Hhas. rewrite Hi.
      cbn [andb]. split.
      * intros Hnil. apply app_eq_nil in Hnil as [H1 Hnil].
        apply app_eq_nil in Hnil as [H2 H3].
        apply Htim in H1. apply Hne in H3. rewrite H3, andb_true_r.
        unfold e2 in H2. destruct has_text; [|done].
        symmetry in Hhas. apply bool_decide_eq_true in Hhas.
        destruct taken; [done|]. done.
      * intros Hv. apply andb_true_iff in Hv as [Hv Hrest].
        apply Hne in Hrest as ->. rewrite app_nil_r.
        destruct taken as [|x taken]; [done|].
        apply Htim in Hv as ->. cbn [app].
        unfold e2. rewrite Hhas. by rewrite bool_decide_eq_true_2.
    + rewrite srt_blocks_loop_blank by done.
      assert (Hm : Re.match_ time_pattern time_line = false).
      { destruct (Re.match_ time_pattern time_line) eqn:Hm; [|done].
        apply timing_line_not_blank in Hm. congruence. }
      cbn [forallb block_valid andb]. split; [|done].
      intros Hnil. apply app_eq_nil in Hnil as [H1 _].
      apply Htim in H1. congruence.
  - destruct (skip_text (l :: rest1) i false) as [[rest' i'] b] eqn:Hst.
    destruct (IH _ _ _ _ _ _ H) as (ne & -> & Hne).
    eexists. rewrite <- app_assoc. split; [done|]. split; [done|].
    rewrite srt_blocks_loop_text by done. cbn [app].
    destruct (srt_blocks_loop_head rest1 [l] ltac:(done))
      as (taken & more & ->).
    cbn [forallb app block_valid]. unfold is_int. rewrite Hint.
    by destruct taken as [|? [|? ?]].
Qed.

End ValidatorBlocks.

Section ValidatorTheorems.
Import Validator.
Import Pipeline.


Lemma srt_blocks_sep (bs : list (list str)) :
  Forall (fun b => b ≠ [] ∧ Forall (fun l => Py.trimmed l ∧ no_break l) b) bs →
  srt_blocks_loop (sep_blocks bs) [] = bs.
Proof.
  assert (Hrun : ∀ (b : list str) rest cur,
            Forall (fun l => Py.trimmed l ∧ no_break l) b →
            srt_blocks_loop (b ++ rest) cur = srt_blocks_loop rest (cur ++ b)).
  { induction b as [|l b IHb]; intros rest cur Hb;
      [by rewrite app_nil_r|].
    apply Forall_cons in Hb as [[Hl _] Hb].
    destruct (trimmed_line l Hl) as [Hs Ht].
    cbn [app]. rewrite srt_blocks_loop_text by by rewrite Hs.
    rewrite IHb by done. by rewrite <- app_assoc. }
  induction bs as [|b bs IH]; intros Hall; [done|].
  apply Forall_cons in Hall as [[Hne Hb] Hall].
  destruct bs as [|b' bs].
  - cbn [sep_blocks]. rewrite <- (app_nil_r b) at 1. rewrite Hrun by done.
    cbn. by destruct b.
  - rewrite sep_blocks_cons by done. rewrite Hrun by done. cbn [app].
    rewrite srt_blocks_loop_blank by done. rewrite IH by done.
    by destruct b.
Qed.

Lemma valid_record_block (r : record) :
  valid_record r = true →
  (record_lines r ≠ [] ∧
   Forall (fun l => Py.trimmed l ∧ no_break l) (record_lines r)) ∧
  block_valid (record_lines r) = true.
Proof.
  unfold valid_record. rewrite !andb_true_iff.
  intros [[[[[Ha Hb] Hc] Hd] He] Hf].
  apply clean_line_spec in Ha as Ha'. apply clean_line_spec in Hc as Hc'.
  unfold record_lines. split.
  - split; [done|]. constructor; [done|]. constructor; [done|].
    apply Forall_forall. intros l Hl. apply clean_line_spec.
    rewrite forallb_forall in He. by apply He, list_elem_of_In.
  - destruct (text_lines r); [done|]. cbn [block_valid].
    destruct Ha' as [Ht _]. rewrite (strip_trimmed _ Ht), Hb, Hd. done.
Qed.


End ValidatorTheorems.


Section ValidatorLines.
Import Validator.

Lemma skip_text_index (rest : list str) : ∀ (i : nat) (b : bool) rest' i' b',
  skip_text rest i b = (rest', i', b') →
  (i' + length rest' = i + length rest)%nat ∧ (b' = false → i' = i) ∧
  (b = true → b' = true).
Proof.
  induction rest as [|l rest IH]; intros i b rest' i' b' H; simpl in H.
  - by injection H as <- <- <-.
  - destruct (Py.truthy (Py.strip l)).
    + apply IH in H as (H1 & H2 & H3). simpl. split; [lia|].
      rewrite (H3 eq_refl). done.
    + by injection H as <- <- <-.
Qed.

Lemma skip_blank_index (rest : list str) : ∀ (i : nat) rest' i',
  skip_blank rest i = (rest', i') →
  (i' + length rest' = i + length rest)%nat.
Proof.
  induction rest as [|l rest IH]; intros i rest' i' H; simpl in H.
  - by injection H as <- <-.
  - destruct (negb (Py.truthy (Py.strip l))).
    + apply IH in H. simpl. lia.
    + by injection H as <- <-.
Qed.

Lemma sorted_lines_app (l1 l2 : list nat) (k : nat) :
  StronglySorted le l1 → StronglySorted le l2 →
  Forall (fun x => x ≤ k)%nat l1 → Forall (fun x => k ≤ x)%nat l2 →
  StronglySorted le (l1 ++ l2).
Proof.
  intros H1 H2 Hb1 Hb2. induction H1 as [|x l1 Hs IH Hx]; [done|].
  apply Forall_cons in Hb1 as [Hxk Hb1]. cbn [app]. constructor.
  - by apply IH.
  - apply Forall_app. split; [done|].
    eapply Forall_impl; [exact Hb2|]. intros y Hy. simpl in *. lia.
Qed.

Lemma same_line_sorted (es : list validation_error) (k : nat) :
  Forall (fun e => line e = k) es → StronglySorted le (map line es).
Proof.
  induction 1 as [|e es He Hall IH]; [constructor|].
  cbn [map]. constructor; [done|]. apply Forall_map.
  eapply Forall_impl; [exact Hall|]. intros e' He'. cbn. by rewrite He, He'.
Qed.

(** The lines the loop reports: inside the document, in its order. *)
Lemma validate_loop_lines (n fuel : nat) : ∀ rest i errors ids errors' ids',
  (i + length rest = n)%nat →
  validate_loop fuel rest i errors ids = Some (errors', ids') →
  ∃ new_errors,
    errors' = errors ++ new_errors ∧
    Forall (fun e => i < line e ≤ n)%nat new_errors ∧
    StronglySorted le (map line new_errors).
Proof.
  induction fuel as [|fuel IH]; intros rest i errors ids errors' ids' Hn H;
    [done|].
  cbn [validate_loop] in H. destruct rest as [|l rest1].
  { injection H as <- <-. exists []. rewrite app_nil_r.
    split; [done|]. split; constructor. }
  cbn [length] in Hn.
  destruct (Py.truthy (Py.strip l)) eqn:Ht; cbn [negb] in H.
  2:{ assert (Hn' : (S i + length rest1 = n)%nat) by lia.
      destruct (IH _ _ _ _ _ _ Hn' H) as (ne & -> & Hb & Hs).
      exists ne. split; [done|]. split; [|done].
      eapply Forall_impl; [exact Hb|]. intros e He. simpl in *. lia. }
  destruct (Py.int (Py.strip l)) as [num|] eqn:Hint.
  - destruct rest1 as [|time_line rest2].
    { injection H as <- <-. eexists. split; [done|]. split.
      - constructor; [|constructor]. cbn. lia.
      - repeat constructor. }
    cbn [length] in Hn.
    set (e1 := if Re.match_ time_pattern time_line then []
               else [{| line := S i + 1; error := InvalidTiming time_line |}]).
    assert (He1 : (if Re.match_ time_pattern time_line then errors
                   else errors ++
                          [{| line := S i + 1;
                              error := InvalidTiming time_line |}]) =
                  errors ++ e1).
    { unfold e1. destruct (Re.match_ time_pattern time_line);
        [by rewrite app_nil_r|done]. }
    rewrite He1 in H.
    assert (Hb1 : Forall (fun e => line e = i + 2)%nat e1).
    { unfold e1. destruct (Re.match_ time_pattern time_line);
        constructor; [cbn; lia|constructor]. }
    clearbody e1. clear He1.
    destruct rest2 as [|t rest2'].
    { injection H as <- <-. rewrite <- app_assoc. eexists. split; [done|].
      split.
      - apply Forall_app. split.
        + eapply Forall_impl; [exact Hb1|]. intros e ->. lia.
        + constructor; [|constructor]. cbn. lia.
      - rewrite map_app. apply (sorted_lines_app _ _ (i + 2)).
        + by eapply same_line_sorted.
        + repeat constructor.
        + apply Forall_map. eapply Forall_impl; [exact Hb1|].
          intros e ->. done.
        + constructor; [cbn; lia|constructor]. }
    destruct (skip_text (t :: rest2') (S (S i)) false)
      as [[rest3 i3] has_text] eqn:Hst.
    destruct (skip_blank rest3 i3) as [rest4 i4] eqn:Hsb.
    destruct (skip_text_index _ _ _ _ _ _ Hst) as (Hi3 & Hno & _).
    pose proof (skip_blank_index _ _ _ _ Hsb) as Hi4.
    pose proof (skip_text_length _ _ _ _ _ _ Hst) as Hl3.
    pose proof (skip_blank_length _ _ _ _ Hsb) as Hl4.
    cbn [length] in Hi3, Hl3.
    set (e2 := if has_text then []
               else [{| line := i3; error := EmptyText |}]).
    assert (He2 : (if has_text then errors ++ e1
                   else (errors ++ e1) ++
                          [{| line := i3; error := EmptyText |}]) =
                  errors ++ e1 ++ e2).
    { unfold e2. destruct has_text; [by rewrite app_nil_r|].
      by rewrite <- app_assoc. }
    rewrite He2 in H.
    assert (Hb2 : Forall (fun e => line e = i + 2)%nat e2).
    { unfold e2. destruct has_text; constructor; [|constructor].
      cbn. specialize (Hno eq_refl). lia. }
    clearbody e2. clear He2.
    assert (Hn' : (i4 + length rest4 = n)%nat) by (cbn [length] in *; lia).
    destruct (IH _ _ _ _ _ _ Hn' H) as (ne & -> & Hb & Hs).
    exists (e1 ++ e2 ++ ne). rewrite <- !app_assoc. split; [done|].
    assert (Hb12 : Forall (fun e => line e = i + 2)%nat (e1 ++ e2))
      by (by apply Forall_app).
    rewrite !app_assoc. split.
    + apply Forall_app. split.
      * eapply Forall_impl; [exact Hb12|]. intros e ->.
        cbn [length] in *. lia.
      * eapply Forall_impl; [exact Hb|]. intros e He.
        cbn [length] in *. lia.
    + rewrite map_app. apply (sorted_lines_app _ _ (i + 2)).
      * by eapply same_line_sorted.
      * done.
      * apply Forall_map. eapply Forall_impl; [exact Hb12|].
        intros e ->. done.
      * apply Forall_map. eapply Forall_impl; [exact Hb|].
        intros e He. cbn [length] in *. cbn. lia.
  - destruct (skip_text (l :: rest1) i false) as [[rest' i'] b] eqn:Hst.
    destruct (skip_text_index _ _ _ _ _ _ Hst) as (Hi' & _ & _).
    cbn [length] in Hi'.
    assert (Hlt : (i < i')%nat).
    { simpl in Hst. rewrite Ht in Hst.
      pose proof (skip_text_length _ _ _ _ _ _ Hst) as Hy. lia. }
    assert (Hn' : (i' + length rest' = n)%nat) by lia.
    destruct (IH _ _ _ _ _ _ Hn' H) as (ne & -> & Hb & Hs).
    eexists. rewrite <- app_assoc. split; [done|]. cbn [app]. split.
    + constructor; [cbn; lia|].
      eapply Forall_impl; [exact Hb|]. intros e He. simpl in *. lia.
    + cbn [map line]. constructor; [done|].
      apply Forall_map. eapply Forall_impl; [exact Hb|].
      intros e He. simpl in *. lia.
Qed.


End ValidatorLines.
